(** * OplogObserveDriver: a shallow embedding of
      packages/mongo-livedata/oplog_observe_driver.js

    The driver keeps the result set of a Mongo query in sync with the
    collection by following the oplog.  The JavaScript object [self] becomes
    the record [World]; every method becomes a computation in a small monad
    that threads the world and can throw.  A JavaScript exception leaves the
    mutations made before it in place, so a thrown outcome still carries the
    world it was thrown in. *)

From Stdlib Require Import ZArith List String Ascii Bool Lia Permutation Relations
  RelationClasses.
Import ListNotations.
Local Open Scope string_scope.
Local Open Scope list_scope.
Local Open Scope Z_scope.

(** ** EJSON values, documents and ids *)

#[local] Set Warnings "-register-all".

Inductive Value : Type :=
| VUndefined
| VNull
| VBool (b : bool)
| VNum (n : Z)
| VStr (s : string)
| VObj (fields : list (string * Value)).

(** A document (and an oplog payload, and a modifier) is a JavaScript object:
    its keys in insertion order. *)
Definition Doc : Type := list (string * Value).

(** Ids are EJSON values ([doc._id]). *)
Definition Id : Type := Value.

(** [EJSON.equals] on the values modelled here. *)
Fixpoint EJSON_equals (a b : Value) : bool :=
  match a, b with
  | VUndefined, VUndefined => true
  | VNull, VNull => true
  | VBool x, VBool y => Bool.eqb x y
  | VNum x, VNum y => Z.eqb x y
  | VStr x, VStr y => String.eqb x y
  | VObj fa, VObj fb =>
      (fix fields_equal (fa fb : list (string * Value)) : bool :=
         match fa, fb with
         | [], [] => true
         | (ka, va) :: ra, (kb, vb) :: rb =>
             String.eqb ka kb && EJSON_equals va vb && fields_equal ra rb
         | _, _ => false
         end) fa fb
  | _, _ => false
  end.

Module Obj.
(** [obj[k]], [undefined] when the key is absent. *)
Fixpoint lookup (k : string) (o : Doc) : Value :=
  match o with
  | [] => VUndefined
  | (k', v) :: r => if String.eqb k' k then v else lookup k r
  end.

(** [_.has(obj, k)] *)
Fixpoint has (k : string) (o : Doc) : bool :=
  match o with
  | [] => false
  | (k', _) :: r => String.eqb k' k || has k r
  end.

(** [delete obj[k]] *)
Fixpoint delete (k : string) (o : Doc) : Doc :=
  match o with
  | [] => []
  | (k', v) :: r =>
      if String.eqb k' k then delete k r else (k', v) :: delete k r
  end.

(** [obj[k] = v] *)
Fixpoint assign (k : string) (v : Value) (o : Doc) : Doc :=
  match o with
  | [] => [(k, v)]
  | (k', v') :: r =>
      if String.eqb k' k then (k', v) :: r else (k', v') :: assign k v r
  end.

(** [_.isEmpty(obj)] *)
Definition isEmpty (o : Doc) : bool :=
  match o with [] => true | _ => false end.

(** [_.extend(target, source)] *)
Definition extend (target source : Doc) : Doc :=
  fold_left (fun acc kv => assign (fst kv) (snd kv) acc) source target.
End Obj.

(** [new RegExp(pattern).test(s)] for a pattern without metacharacters:
    [pattern] occurs in [s]. *)
Fixpoint occurs_in (pattern s : string) : bool :=
  String.prefix pattern s ||
  match s with
  | EmptyString => false
  | String _ r => occurs_in pattern r
  end.

(** [doc._id] *)
Definition doc_id (doc : Doc) : Id := Obj.lookup "_id" doc.

(** ** LocalCollection._IdMap

    Modelled from the spec: the id map ([set], [get], [has], [remove],
    [size], [empty], [forEach]) lives in another package.  It is an
    association list in insertion order; [set] on a present id replaces the
    value in place. *)
Module IdMap.
Definition t (V : Type) : Type := list (Id * V).

Fixpoint has {V} (id : Id) (m : t V) : bool :=
  match m with
  | [] => false
  | (k, _) :: r => EJSON_equals k id || has id r
  end.

Fixpoint get {V} (id : Id) (m : t V) : option V :=
  match m with
  | [] => None
  | (k, v) :: r => if EJSON_equals k id then Some v else get id r
  end.

Fixpoint set {V} (id : Id) (v : V) (m : t V) : t V :=
  match m with
  | [] => [(id, v)]
  | (k, x) :: r =>
      if EJSON_equals k id then (k, v) :: r else (k, x) :: set id v r
  end.

Fixpoint remove {V} (id : Id) (m : t V) : t V :=
  match m with
  | [] => []
  | (k, x) :: r =>
      if EJSON_equals k id then remove id r else (k, x) :: remove id r
  end.

Definition size {V} (m : t V) : Z := Z.of_nat (List.length m).

Definition empty {V} (m : t V) : bool :=
  match m with [] => true | _ => false end.
End IdMap.

(** ** MaxHeap / MinMaxHeap

    Modelled from the spec: the heaps (package binary-heap) are id maps that
    also answer [maxElementId] and [minElementId] under the comparator.  Among
    equal elements the one inserted first is returned. *)
Definition Heap : Type := IdMap.t Doc.

(** The comparator built by [Minimongo.Sorter]: its first argument is always a
    document here, its second may be [null] ([None]). *)
Definition Comparator : Type := Doc -> option Doc -> Z.

Module HeapOps.
Fixpoint maxEntry (cmp : Comparator) (best : Id * Doc) (h : Heap) : Id * Doc :=
  match h with
  | [] => best
  | e :: r =>
      maxEntry cmp (if cmp (snd best) (Some (snd e)) <? 0 then e else best) r
  end.

Fixpoint minEntry (cmp : Comparator) (best : Id * Doc) (h : Heap) : Id * Doc :=
  match h with
  | [] => best
  | e :: r =>
      minEntry cmp (if cmp (snd e) (Some (snd best)) <? 0 then e else best) r
  end.

(** [null] on an empty heap. *)
Definition maxElementId (cmp : Comparator) (h : Heap) : Id :=
  match h with
  | [] => VNull
  | e :: r => fst (maxEntry cmp e r)
  end.

Definition minElementId (cmp : Comparator) (h : Heap) : Id :=
  match h with
  | [] => VNull
  | e :: r => fst (minEntry cmp e r)
  end.
End HeapOps.

(** ** Oplog entries and notifications *)

Record OplogEntry : Type := {
  op_op : string;      (* 'i', 'u', 'd', ... *)
  op_o  : Doc;         (* inserted document, replacement or modifier *)
  op_o2 : Doc;         (* for an update, the selector of the document *)
  op_ts : string       (* op.ts.toString() *)
}.

Record Notification : Type := {
  dropCollection : bool;
  op : OplogEntry
}.

Inductive Phase : Type := QUERYING | FETCHING | STEADY.

Definition Phase_eqb (a b : Phase) : bool :=
  match a, b with
  | QUERYING, QUERYING | FETCHING, FETCHING | STEADY, STEADY => true
  | _, _ => false
  end.

(** A write of a write fence ([fence.beginWrite()]). *)
Definition WriteToken : Type := nat.

(** ** What the constructor receives

    [options.cursorDescription], [options.matcher] and the functions the
    constructor derives from them once and never reassigns ([self._limit],
    [self._comparator], [self._projectionFn], [self._sharedProjectionFn]),
    together with the helpers of other files the driver calls. *)
Record Options : Type := {
  ordered : bool;
  (* cursorDescription.options.limit; 0 when there is none *)
  limit : Z;
  (* new Minimongo.Sorter(sort).getComparator() *)
  comparator : Comparator;
  (* matcher.documentMatches(doc).result *)
  documentMatches : Doc -> bool;
  (* matcher.canBecomeTrueByModifier(modifier) *)
  canBecomeTrueByModifier : Doc -> bool;
  (* LocalCollection._compileProjection(fields) *)
  projectionFn : Doc -> Doc;
  (* LocalCollection._compileProjection(matcher.combineIntoProjection(fields)) *)
  sharedProjectionFn : Doc -> Doc;
  (* LocalCollection._makeChangedFields(newDoc, oldDoc) *)
  makeChangedFields : Doc -> option Doc -> Doc;
  (* LocalCollection._modify(doc, modifier); None when it throws *)
  LocalCollection_modify : Doc -> Doc -> option Doc;
  (* idForOp(op), defined with the oplog tailing code *)
  idForOp : OplogEntry -> Id
}.

(** ** Calls made on the multiplexer *)
Inductive MuxCall : Type :=
| added (id : Id) (fields : Doc)
| changed (id : Id) (fields : Doc)
| removed (id : Id)
| ready.

(** Work handed to the scheduler: bodies passed to [Meteor.defer], and fibers
    suspended at a yield, each named by the code that runs when it resumes. *)
Inductive Task : Type :=
| Task_runInitialQuery
| Task_pollQuery
| Task_fetchLoop
| Task_fenceWrite (write : WriteToken)
| Task_doneQuerying_caughtUp
| Task_fetchLoop_afterWait (thisGeneration : Z).

(** The local variables of one round of fetches in [_fetchModifiedDocuments]:
    the callbacks still to come ([waiting] is their number) and [anyError]. *)
Record FetchBatch : Type := {
  thisGeneration : Z;
  outstanding : list Id;
  anyError : option string
}.

Inductive Error : Type :=
| TypeError                              (* property access on null *)
| Err_ordered
| Err_alreadyPublished (id : Id)
| Err_alreadyBuffered (id : Id)
| Err_overflowing (n : Z)
| Err_justAddedOverflowing
| Err_bufferEmptyAtThisPhase
| Err_removeNotCached (id : Id)
| Err_cachedBeforeImplies
| Err_phaseInFetch (p : Phase)
| Err_insertAlreadyPublished
| Err_insertAlreadyBuffered
| Err_surprisingOperation
| Err_stoppedSurprisinglyEarly
| Err_stoppedQuiteEarly
| Err_phaseUnexpectedly (p : Phase)
| Err_failedToCopy
| Err_publishedHasExtra (id : Id)
| Err_modify
| Err_fetch (e : string).

(** ** The driver and what it talks to *)
Record World : Type := mkWorld {
  (* fields of [self] *)
  _published : option Heap;
  _unpublishedBuffer : option Heap;
  _safeAppendToBuffer : bool;
  _stopped : bool;
  _phase : Phase;
  _needToFetch : option (IdMap.t string);
  _currentlyFetching : option (IdMap.t string);
  _fetchGeneration : Z;
  _requeryWhenDoneThisQuery : bool;
  _writesToCommitWhenWeReachSteady : option (list WriteToken);
  (* the multiplexer: calls received, and onFlush callbacks not yet run,
     each the list of writes it commits *)
  multiplexer : list MuxCall;
  onFlush : list (list WriteToken);
  (* the write fence: writes begun and writes committed *)
  begun : list WriteToken;
  committed : list WriteToken;
  (* the scheduler and the rounds of fetches in flight *)
  scheduled : list Task;
  fetching : list FetchBatch
}.

Definition set_published v w :=
  mkWorld v (_unpublishedBuffer w) (_safeAppendToBuffer w) (_stopped w) (_phase w)
    (_needToFetch w) (_currentlyFetching w) (_fetchGeneration w)
    (_requeryWhenDoneThisQuery w) (_writesToCommitWhenWeReachSteady w)
    (multiplexer w) (onFlush w) (begun w) (committed w) (scheduled w) (fetching w).
Definition set_unpublishedBuffer v w :=
  mkWorld (_published w) v (_safeAppendToBuffer w) (_stopped w) (_phase w)
    (_needToFetch w) (_currentlyFetching w) (_fetchGeneration w)
    (_requeryWhenDoneThisQuery w) (_writesToCommitWhenWeReachSteady w)
    (multiplexer w) (onFlush w) (begun w) (committed w) (scheduled w) (fetching w).
Definition set_safeAppendToBuffer v w :=
  mkWorld (_published w) (_unpublishedBuffer w) v (_stopped w) (_phase w)
    (_needToFetch w) (_currentlyFetching w) (_fetchGeneration w)
    (_requeryWhenDoneThisQuery w) (_writesToCommitWhenWeReachSteady w)
    (multiplexer w) (onFlush w) (begun w) (committed w) (scheduled w) (fetching w).
Definition set_stopped v w :=
  mkWorld (_published w) (_unpublishedBuffer w) (_safeAppendToBuffer w) v (_phase w)
    (_needToFetch w) (_currentlyFetching w) (_fetchGeneration w)
    (_requeryWhenDoneThisQuery w) (_writesToCommitWhenWeReachSteady w)
    (multiplexer w) (onFlush w) (begun w) (committed w) (scheduled w) (fetching w).
Definition set_phase v w :=
  mkWorld (_published w) (_unpublishedBuffer w) (_safeAppendToBuffer w) (_stopped w) v
    (_needToFetch w) (_currentlyFetching w) (_fetchGeneration w)
    (_requeryWhenDoneThisQuery w) (_writesToCommitWhenWeReachSteady w)
    (multiplexer w) (onFlush w) (begun w) (committed w) (scheduled w) (fetching w).
Definition set_needToFetch v w :=
  mkWorld (_published w) (_unpublishedBuffer w) (_safeAppendToBuffer w) (_stopped w)
    (_phase w) v (_currentlyFetching w) (_fetchGeneration w)
    (_requeryWhenDoneThisQuery w) (_writesToCommitWhenWeReachSteady w)
    (multiplexer w) (onFlush w) (begun w) (committed w) (scheduled w) (fetching w).
Definition set_currentlyFetching v w :=
  mkWorld (_published w) (_unpublishedBuffer w) (_safeAppendToBuffer w) (_stopped w)
    (_phase w) (_needToFetch w) v (_fetchGeneration w)
    (_requeryWhenDoneThisQuery w) (_writesToCommitWhenWeReachSteady w)
    (multiplexer w) (onFlush w) (begun w) (committed w) (scheduled w) (fetching w).
Definition set_fetchGeneration v w :=
  mkWorld (_published w) (_unpublishedBuffer w) (_safeAppendToBuffer w) (_stopped w)
    (_phase w) (_needToFetch w) (_currentlyFetching w) v
    (_requeryWhenDoneThisQuery w) (_writesToCommitWhenWeReachSteady w)
    (multiplexer w) (onFlush w) (begun w) (committed w) (scheduled w) (fetching w).
Definition set_requeryWhenDoneThisQuery v w :=
  mkWorld (_published w) (_unpublishedBuffer w) (_safeAppendToBuffer w) (_stopped w)
    (_phase w) (_needToFetch w) (_currentlyFetching w) (_fetchGeneration w)
    v (_writesToCommitWhenWeReachSteady w)
    (multiplexer w) (onFlush w) (begun w) (committed w) (scheduled w) (fetching w).
Definition set_writesToCommitWhenWeReachSteady v w :=
  mkWorld (_published w) (_unpublishedBuffer w) (_safeAppendToBuffer w) (_stopped w)
    (_phase w) (_needToFetch w) (_currentlyFetching w) (_fetchGeneration w)
    (_requeryWhenDoneThisQuery w) v
    (multiplexer w) (onFlush w) (begun w) (committed w) (scheduled w) (fetching w).
Definition set_multiplexer v w :=
  mkWorld (_published w) (_unpublishedBuffer w) (_safeAppendToBuffer w) (_stopped w)
    (_phase w) (_needToFetch w) (_currentlyFetching w) (_fetchGeneration w)
    (_requeryWhenDoneThisQuery w) (_writesToCommitWhenWeReachSteady w)
    v (onFlush w) (begun w) (committed w) (scheduled w) (fetching w).
Definition set_onFlush v w :=
  mkWorld (_published w) (_unpublishedBuffer w) (_safeAppendToBuffer w) (_stopped w)
    (_phase w) (_needToFetch w) (_currentlyFetching w) (_fetchGeneration w)
    (_requeryWhenDoneThisQuery w) (_writesToCommitWhenWeReachSteady w)
    (multiplexer w) v (begun w) (committed w) (scheduled w) (fetching w).
Definition set_begun v w :=
  mkWorld (_published w) (_unpublishedBuffer w) (_safeAppendToBuffer w) (_stopped w)
    (_phase w) (_needToFetch w) (_currentlyFetching w) (_fetchGeneration w)
    (_requeryWhenDoneThisQuery w) (_writesToCommitWhenWeReachSteady w)
    (multiplexer w) (onFlush w) v (committed w) (scheduled w) (fetching w).
Definition set_committed v w :=
  mkWorld (_published w) (_unpublishedBuffer w) (_safeAppendToBuffer w) (_stopped w)
    (_phase w) (_needToFetch w) (_currentlyFetching w) (_fetchGeneration w)
    (_requeryWhenDoneThisQuery w) (_writesToCommitWhenWeReachSteady w)
    (multiplexer w) (onFlush w) (begun w) v (scheduled w) (fetching w).
Definition set_scheduled v w :=
  mkWorld (_published w) (_unpublishedBuffer w) (_safeAppendToBuffer w) (_stopped w)
    (_phase w) (_needToFetch w) (_currentlyFetching w) (_fetchGeneration w)
    (_requeryWhenDoneThisQuery w) (_writesToCommitWhenWeReachSteady w)
    (multiplexer w) (onFlush w) (begun w) (committed w) v (fetching w).
Definition set_fetching v w :=
  mkWorld (_published w) (_unpublishedBuffer w) (_safeAppendToBuffer w) (_stopped w)
    (_phase w) (_needToFetch w) (_currentlyFetching w) (_fetchGeneration w)
    (_requeryWhenDoneThisQuery w) (_writesToCommitWhenWeReachSteady w)
    (multiplexer w) (onFlush w) (begun w) (committed w) (scheduled w) v.

(** ** The monad of driver code *)

Inductive Outcome (A : Type) : Type :=
| Returned (a : A)
| Thrown (e : Error).
Arguments Returned {A} a.
Arguments Thrown {A} e.

Definition M (A : Type) : Type := World -> Outcome A * World.

Definition ret {A} (a : A) : M A := fun w => (Returned a, w).

Definition bind {A B} (m : M A) (k : A -> M B) : M B :=
  fun w =>
    match m w with
    | (Returned a, w') => k a w'
    | (Thrown e, w') => (Thrown e, w')
    end.

Definition throw {A} (e : Error) : M A := fun w => (Thrown e, w).
Definition gets {A} (f : World -> A) : M A := fun w => (Returned (f w), w).
Definition modify (f : World -> World) : M unit := fun w => (Returned tt, f w).

Declare Scope driver_scope.
Delimit Scope driver_scope with driver.
Notation "x <- m ;; k" := (bind m (fun x => k))
  (at level 61, m at next level, right associativity) : driver_scope.
Notation "m ;; k" := (bind m (fun _ => k))
  (at level 61, right associativity) : driver_scope.
Local Open Scope driver_scope.

(** [if (c) body] with no else. *)
Definition when (c : bool) (body : M unit) : M unit :=
  if c then body else ret tt.

(** [_.each(xs, f)] and the [forEach] of an id map or a cursor. *)
Fixpoint forEach {A} (xs : list A) (f : A -> M unit) : M unit :=
  match xs with
  | [] => ret tt
  | x :: r => f x ;; forEach r f
  end.

(** The world a computation ends in, and its outcome. *)
Definition exec {A} (m : M A) (w : World) : World := snd (m w).
Definition outcome {A} (m : M A) (w : World) : Outcome A := fst (m w).

(** ** The driver *)

Section Driver.

Variable options : Options.

Local Abbreviation _limit := (limit options).
Local Abbreviation _comparator := (comparator options).
Local Abbreviation _projectionFn := (projectionFn options).
Local Abbreviation _sharedProjectionFn := (sharedProjectionFn options).

(** A number used as a condition: [0] is falsy. *)
Definition truthy (n : Z) : bool := negb (n =? 0).

(** Method calls on [self._published], [self._unpublishedBuffer] and
    [self._needToFetch]: a query reads the object, a mutation updates it in
    place.  [stop] sets these fields to [null], and a method call on [null]
    is a TypeError. *)
Definition queryPublished {A} (f : Heap -> A) : M A :=
  fun w => match _published w with
           | Some h => (Returned (f h), w)
           | None => (Thrown TypeError, w)
           end.

Definition mutatePublished (f : Heap -> Heap) : M unit :=
  fun w => match _published w with
           | Some h => (Returned tt, set_published (Some (f h)) w)
           | None => (Thrown TypeError, w)
           end.

Definition queryBuffer {A} (f : Heap -> A) : M A :=
  fun w => match _unpublishedBuffer w with
           | Some h => (Returned (f h), w)
           | None => (Thrown TypeError, w)
           end.

Definition mutateBuffer (f : Heap -> Heap) : M unit :=
  fun w => match _unpublishedBuffer w with
           | Some h => (Returned tt, set_unpublishedBuffer (Some (f h)) w)
           | None => (Thrown TypeError, w)
           end.

Definition queryNeedToFetch {A} (f : IdMap.t string -> A) : M A :=
  fun w => match _needToFetch w with
           | Some m => (Returned (f m), w)
           | None => (Thrown TypeError, w)
           end.

Definition mutateNeedToFetch (f : IdMap.t string -> IdMap.t string) : M unit :=
  fun w => match _needToFetch w with
           | Some m => (Returned tt, set_needToFetch (Some (f m)) w)
           | None => (Thrown TypeError, w)
           end.

(** A call on [self._multiplexer]. *)
Definition emit (c : MuxCall) : M unit :=
  modify (fun w => set_multiplexer (multiplexer w ++ [c]) w).

(** [Meteor.defer(body)], and a fiber yielding until [t] may run. *)
Definition defer (t : Task) : M unit :=
  modify (fun w => set_scheduled (scheduled w ++ [t]) w).

(** [_registerPhaseChange]: the time spent in the previous phase goes to the
    facts package; the driver itself keeps the phase. *)
Definition _registerPhaseChange (phase : Phase) : M unit :=
  modify (set_phase phase).

Definition _pollQuery : M unit :=
  stopped <- gets _stopped ;;
  if stopped then ret tt else
  (* Yay, we get to forget about all the things we thought we had to fetch. *)
  modify (set_needToFetch (Some [])) ;;
  modify (set_currentlyFetching None) ;;
  modify (fun w => set_fetchGeneration (_fetchGeneration w + 1) w) ;;
  _registerPhaseChange QUERYING ;;
  defer Task_pollQuery.

Definition _needToPollQuery : M unit :=
  stopped <- gets _stopped ;;
  if stopped then ret tt else
  phase <- gets _phase ;;
  if negb (Phase_eqb phase QUERYING) then _pollQuery
  else modify (set_requeryWhenDoneThisQuery true).

Definition _addBuffered (id : Id) (doc : Doc) : M unit :=
  mutateBuffer (IdMap.set id (_sharedProjectionFn doc)) ;;
  (* If something is overflowing the buffer, we just remove it from cache *)
  size <- queryBuffer IdMap.size ;;
  when (_limit <? size)
    (maxBufferedId <- queryBuffer (HeapOps.maxElementId _comparator) ;;
     mutateBuffer (IdMap.remove maxBufferedId) ;;
     (* Since something matching is removed from cache (both published set
        and buffer), set flag to false *)
     modify (set_safeAppendToBuffer false)).

Definition _removeBuffered (id : Id) : M unit :=
  mutateBuffer (IdMap.remove id) ;;
  size <- queryBuffer IdMap.size ;;
  safe <- gets _safeAppendToBuffer ;;
  when ((size =? 0) && negb safe) _needToPollQuery.

Definition _addPublished (id : Id) (doc : Doc) : M unit :=
  let fields := Obj.delete "_id" doc in
  mutatePublished (IdMap.set id (_sharedProjectionFn doc)) ;;
  emit (added id (_projectionFn fields)) ;;
  size <- queryPublished IdMap.size ;;
  when (truthy _limit && (_limit <? size))
    ((* XXX in theory the size of published is no more than limit+1 *)
     (if negb (size =? _limit + 1)
      then throw (Err_overflowing (size - _limit)) else ret tt) ;;
     overflowingDocId <- queryPublished (HeapOps.maxElementId _comparator) ;;
     overflowingDoc <- queryPublished (IdMap.get overflowingDocId) ;;
     (if EJSON_equals overflowingDocId id
      then throw Err_justAddedOverflowing else ret tt) ;;
     mutatePublished (IdMap.remove overflowingDocId) ;;
     emit (removed overflowingDocId) ;;
     match overflowingDoc with
     | Some d => _addBuffered overflowingDocId d
     | None => throw TypeError   (* the projection of [null] *)
     end).

Definition _removePublished (id : Id) : M unit :=
  mutatePublished (IdMap.remove id) ;;
  emit (removed id) ;;
  if negb (truthy _limit) then ret tt else
  size <- queryPublished IdMap.size ;;
  when (size <? _limit)
    (bufferSize <- queryBuffer IdMap.size ;;
     if bufferSize =? 0 then
       (* Assertion of the statement above *)
       safe <- gets _safeAppendToBuffer ;;
       phase <- gets _phase ;;
       if negb safe && negb (Phase_eqb phase QUERYING)
       then throw Err_bufferEmptyAtThisPhase
       else ret tt
     else
       newDocId <- queryBuffer (HeapOps.minElementId _comparator) ;;
       newDoc <- queryBuffer (IdMap.get newDocId) ;;
       _removeBuffered newDocId ;;
       match newDoc with
       | Some d => _addPublished newDocId d
       | None => throw TypeError   (* [_.clone(null)] has no [_id] to delete *)
       end).

Definition _changePublished (id : Id) (oldDoc : option Doc) (newDoc : Doc) : M unit :=
  mutatePublished (IdMap.set id (_sharedProjectionFn newDoc)) ;;
  let changedFields := _projectionFn (makeChangedFields options newDoc oldDoc) in
  when (negb (Obj.isEmpty changedFields)) (emit (changed id changedFields)).

(** [self._limit && self._unpublishedBuffer.has(id)] *)
Definition limit_and_buffered (id : Id) : M bool :=
  if truthy _limit then queryBuffer (IdMap.has id) else ret false.

(** [heap.get(heap.maxElementId())] and [heap.get(heap.minElementId())] *)
Definition maxElement (h : Heap) : option Doc :=
  IdMap.get (HeapOps.maxElementId _comparator h) h.

Definition minElement (h : Heap) : option Doc :=
  IdMap.get (HeapOps.minElementId _comparator h) h.

(** [maxBuffered && comparator(doc, maxBuffered) <= 0] *)
Definition fitsBelow (doc : Doc) (maxBuffered : option Doc) : bool :=
  match maxBuffered with
  | Some mb => _comparator doc (Some mb) <=? 0
  | None => false
  end.

Definition _addMatching (doc : Doc) : M unit :=
  let id := doc_id doc in
  alreadyPublished <- queryPublished (IdMap.has id) ;;
  if alreadyPublished then throw (Err_alreadyPublished id) else
  alreadyBuffered <- limit_and_buffered id ;;
  if alreadyBuffered then throw (Err_alreadyBuffered id) else
  maxPublished <-
    (if truthy _limit then
       size <- queryPublished IdMap.size ;;
       if 0 <? size then queryPublished maxElement else ret None
     else ret None) ;;
  maxBuffered <-
    (if truthy _limit then
       size <- queryBuffer IdMap.size ;;
       if 0 <? size then queryBuffer maxElement else ret None
     else ret None) ;;
  (* The query is unlimited or didn't publish enough documents yet or the
     new document would fit into published set pushing the maximum element
     out, then we need to publish the doc. *)
  publishedSize <- queryPublished IdMap.size ;;
  let toPublish := negb (truthy _limit) || (publishedSize <? _limit) ||
                   (_comparator doc maxPublished <? 0) in
  (* Otherwise we might need to buffer it (only in case of limited query). *)
  canAppendToBuffer <-
    (if negb toPublish then
       safe <- gets _safeAppendToBuffer ;;
       if safe
       then bufferSize <- queryBuffer IdMap.size ;; ret (bufferSize <? _limit)
       else ret false
     else ret false) ;;
  (* Or if it is small enough to be safely inserted to the middle or the
     beginning of the buffer. *)
  let canInsertIntoBuffer := negb toPublish && fitsBelow doc maxBuffered in
  let toBuffer := canAppendToBuffer || canInsertIntoBuffer in
  if toPublish then _addPublished id doc
  else if toBuffer then _addBuffered id doc
  else (* dropping it and not saving to the cache *)
    modify (set_safeAppendToBuffer false).

Definition _removeMatching (id : Id) : M unit :=
  isPublished <- queryPublished (IdMap.has id) ;;
  if negb isPublished && negb (truthy _limit)
  then throw (Err_removeNotCached id) else
  if isPublished then _removePublished id
  else
    isBuffered <- queryBuffer (IdMap.has id) ;;
    when isBuffered (_removeBuffered id).

(** The branch of [_handleDoc] for a cached document that still matches. *)
Definition _handleDoc_stillMatching (id : Id) (newDoc : Doc)
    (publishedBefore bufferedBefore : bool) : M unit :=
  oldDoc <- queryPublished (IdMap.get id) ;;
  minBuffered <-
    (if truthy _limit then
       bufferSize <- queryBuffer IdMap.size ;;
       if truthy bufferSize then queryBuffer minElement else ret None
     else ret None) ;;
  if publishedBefore then
    (* Unlimited case where the document stays in published once it matches
       or the case when we don't have enough matching docs to publish or the
       changed but matching doc will stay in published anyways. *)
    staysInPublished <-
      (if negb (truthy _limit) then ret true else
       bufferSize <- queryBuffer IdMap.size ;;
       ret ((bufferSize =? 0) || (_comparator newDoc minBuffered <=? 0))) ;;
    if staysInPublished then _changePublished id oldDoc newDoc
    else
      (* after the change doc doesn't stay in the published, remove it *)
      _removePublished id ;;
      (* but it can move into buffered now, check it *)
      maxBuffered <- queryBuffer maxElement ;;
      safe <- gets _safeAppendToBuffer ;;
      let toBuffer := safe || fitsBelow newDoc maxBuffered in
      if toBuffer then _addBuffered id newDoc
      else (* Throw away from both published set and buffer *)
        modify (set_safeAppendToBuffer false)
  else if bufferedBefore then
    (* remove the old version manually so we don't trigger the querying
       immediately *)
    mutateBuffer (IdMap.remove id) ;;
    maxPublished <- queryPublished maxElement ;;
    bufferSize <- queryBuffer IdMap.size ;;
    maxBuffered <-
      (if bufferSize =? 0 then ret None else queryBuffer maxElement) ;;
    (* the buffered doc was updated, it could move to published *)
    let toPublish := _comparator newDoc maxPublished <? 0 in
    (* or stays in buffer even after the change *)
    safe <- gets _safeAppendToBuffer ;;
    let staysInBuffer := (negb toPublish && safe) ||
                         (negb toPublish && fitsBelow newDoc maxBuffered) in
    if toPublish then _addPublished id newDoc
    else if staysInBuffer then
      (* stays in buffer but changes *)
      mutateBuffer (IdMap.set id newDoc)
    else (* Throw away from both published set and buffer *)
      modify (set_safeAppendToBuffer false)
  else throw Err_cachedBeforeImplies.

Definition _handleDoc (id : Id) (newDoc : option Doc) : M unit :=
  let matchesNow :=
    match newDoc with
    | Some d => documentMatches options d
    | None => false
    end in
  publishedBefore <- queryPublished (IdMap.has id) ;;
  bufferedBefore <- limit_and_buffered id ;;
  let cachedBefore := publishedBefore || bufferedBefore in
  (* where [matchesNow] holds, [newDoc] is a document *)
  if matchesNow && negb cachedBefore then
    match newDoc with Some d => _addMatching d | None => ret tt end
  else if cachedBefore && negb matchesNow then _removeMatching id
  else if cachedBefore && matchesNow then
    match newDoc with
    | Some d => _handleDoc_stillMatching id d publishedBefore bufferedBefore
    | None => ret tt
    end
  else ret tt.

(** *** Phases, fetching and querying *)

(** [_beSteady]: the onFlush callback registered here commits [writes];
    [_.each] over [null] does nothing. *)
Definition _beSteady : M unit :=
  _registerPhaseChange STEADY ;;
  writes <- gets _writesToCommitWhenWeReachSteady ;;
  modify (set_writesToCommitWhenWeReachSteady (Some [])) ;;
  modify (fun w =>
    set_onFlush (onFlush w ++ [match writes with Some ws => ws | None => [] end]) w).

(** [_fetchModifiedDocuments] up to its [Meteor.defer]. *)
Definition _fetchModifiedDocuments : M unit :=
  _registerPhaseChange FETCHING ;;
  defer Task_fetchLoop.

(** The deferred body of [_fetchModifiedDocuments], from the test of the
    [while] to [fut.wait()]: either the loop is over and the driver becomes
    steady, or a round of fetches is started and the fiber waits for its
    callbacks. *)
Definition fetchLoop : M unit :=
  stopped <- gets _stopped ;;
  continue <-
    (if stopped then ret false
     else empty <- queryNeedToFetch IdMap.empty ;; ret (negb empty)) ;;
  if continue then
    phase <- gets _phase ;;
    if negb (Phase_eqb phase FETCHING) then throw (Err_phaseInFetch phase) else
    nf <- queryNeedToFetch (fun m => m) ;;
    modify (set_currentlyFetching (Some nf)) ;;
    modify (fun w => set_fetchGeneration (_fetchGeneration w + 1) w) ;;
    thisGeneration <- gets _fetchGeneration ;;
    modify (set_needToFetch (Some [])) ;;
    (* one fetch per entry of _currentlyFetching *)
    modify (fun w =>
      set_fetching (fetching w ++ [Build_FetchBatch thisGeneration (map fst nf) None]) w)
  else _beSteady.

Definition batch_is (g : Z) (b : FetchBatch) : bool := thisGeneration b =? g.

(** [if (!anyError) anyError = err] in the round of generation [g]. *)
Definition note_error (g : Z) (e : string) (bs : list FetchBatch) : list FetchBatch :=
  map (fun b =>
         if batch_is g b
         then Build_FetchBatch (thisGeneration b) (outstanding b)
                (match anyError b with Some e0 => Some e0 | None => Some e end)
         else b) bs.

Fixpoint remove_first (id : Id) (ids : list Id) : list Id :=
  match ids with
  | [] => []
  | i :: r => if EJSON_equals i id then r else i :: remove_first id r
  end.

(** [waiting--] in the round of generation [g], for the callback of [id]. *)
Definition note_delivery (g : Z) (id : Id) (bs : list FetchBatch) : list FetchBatch :=
  map (fun b =>
         if batch_is g b
         then Build_FetchBatch (thisGeneration b) (remove_first id (outstanding b))
                (anyError b)
         else b) bs.

(** [waiting === 0] in the round of generation [g]. *)
Definition none_waiting (g : Z) (bs : list FetchBatch) : bool :=
  forallb (fun b => negb (batch_is g b) ||
                    match outstanding b with [] => true | _ => false end) bs.

(** The end of the callback given to [docFetcher.fetch]: [waiting--], and
    [fut.return()] when nothing is waited for any more, which lets the fiber
    of the loop go on. *)
Definition oneLessWaiting (thisGeneration : Z) (id : Id) : M unit :=
  modify (fun w => set_fetching (note_delivery thisGeneration id (fetching w)) w) ;;
  bs <- gets fetching ;;
  when (none_waiting thisGeneration bs) (defer (Task_fetchLoop_afterWait thisGeneration)).

(** The callback given to [docFetcher.fetch] for [id] in the round of
    generation [thisGeneration]. *)
Definition fetchCallback (thisGeneration : Z) (id : Id)
    (err : option string) (doc : option Doc) : M unit :=
  match err with
  | Some e => modify (fun w => set_fetching (note_error thisGeneration e (fetching w)) w)
  | None =>
      stopped <- gets _stopped ;;
      phase <- gets _phase ;;
      generation <- gets _fetchGeneration ;;
      (* We re-check the generation in case we've had an explicit _pollQuery
         call which should effectively cancel this round of fetches. *)
      when (negb stopped && Phase_eqb phase FETCHING && (generation =? thisGeneration))
        (_handleDoc id doc)
  end ;;
  oneLessWaiting thisGeneration id.

(** The loop body after [fut.wait()], then the next test of the [while]. *)
Definition fetchLoop_afterWait (thisGeneration : Z) : M unit :=
  bs <- gets fetching ;;
  modify (fun w =>
    set_fetching (filter (fun b => negb (batch_is thisGeneration b)) (fetching w)) w) ;;
  match flat_map (fun b => if batch_is thisGeneration b
                           then match anyError b with Some e => [e] | None => [] end
                           else []) bs with
  | e :: _ => throw (Err_fetch e)
  | [] =>
      phase <- gets _phase ;;
      (* Exit now if we've had a _pollQuery call. *)
      if Phase_eqb phase QUERYING then ret tt else
      modify (set_currentlyFetching None) ;;
      fetchLoop
  end.

Definition _handleOplogEntryQuerying (op : OplogEntry) : M unit :=
  mutateNeedToFetch (IdMap.set (idForOp options op) (op_ts op)).

Definition modifierCanBeDirectlyApplied (modifier : Doc) : bool :=
  forallb (fun operation =>
             match snd operation with
             | VObj fields =>
                 forallb (fun field => negb (occurs_in "EJSON$" (fst field))) fields
             | _ => true
             end) modifier.

Definition _handleOplogEntrySteadyOrFetching (op : OplogEntry) : M unit :=
  let id := idForOp options op in
  phase <- gets _phase ;;
  (* If we're already fetching this one, or about to, we can't optimize *)
  alreadyFetching <-
    (if Phase_eqb phase FETCHING then
       cf <- gets _currentlyFetching ;;
       if match cf with Some m => IdMap.has id m | None => false end
       then ret true
       else queryNeedToFetch (IdMap.has id)
     else ret false) ;;
  if alreadyFetching then
    mutateNeedToFetch (IdMap.set id (op_ts op))
  else if String.eqb (op_op op) "d" then
    isPublished <- queryPublished (IdMap.has id) ;;
    cached <- (if isPublished then ret true else limit_and_buffered id) ;;
    when cached (_removeMatching id)
  else if String.eqb (op_op op) "i" then
    isPublished <- queryPublished (IdMap.has id) ;;
    if isPublished then throw Err_insertAlreadyPublished else
    ob <- gets _unpublishedBuffer ;;
    if match ob with Some b => IdMap.has id b | None => false end
    then throw Err_insertAlreadyBuffered else
    when (documentMatches options (op_o op)) (_addMatching (op_o op))
  else if String.eqb (op_op op) "u" then
    let isReplace := negb (Obj.has "$set" (op_o op)) &&
                     negb (Obj.has "$unset" (op_o op)) in
    let canDirectlyModifyDoc :=
      negb isReplace && modifierCanBeDirectlyApplied (op_o op) in
    publishedBefore <- queryPublished (IdMap.has id) ;;
    bufferedBefore <- limit_and_buffered id ;;
    if isReplace then
      _handleDoc id (Some (Obj.extend [("_id", id)] (op_o op)))
    else if (publishedBefore || bufferedBefore) && canDirectlyModifyDoc then
      (* Oh great, we actually know what the document is, so we can apply
         this directly. *)
      isPublished <- queryPublished (IdMap.has id) ;;
      cachedDoc <-
        (if isPublished then queryPublished (IdMap.get id)
         else queryBuffer (IdMap.get id)) ;;
      match cachedDoc with
      | None => throw TypeError       (* [newDoc._id = id] on null *)
      | Some newDoc =>
          match LocalCollection_modify options (Obj.assign "_id" id newDoc) (op_o op) with
          | None => throw Err_modify
          | Some modified => _handleDoc id (Some (_sharedProjectionFn modified))
          end
      end
    else if negb canDirectlyModifyDoc || canBecomeTrueByModifier options (op_o op) then
      mutateNeedToFetch (IdMap.set id (op_ts op)) ;;
      phase <- gets _phase ;;
      when (Phase_eqb phase STEADY) _fetchModifiedDocuments
    else ret tt
  else throw Err_surprisingOperation.

(** [_doneQuerying] up to [waitUntilCaughtUp()], where the fiber yields. *)
Definition _doneQuerying : M unit :=
  stopped <- gets _stopped ;;
  if stopped then ret tt else
  defer Task_doneQuerying_caughtUp.

(** [_doneQuerying] after [waitUntilCaughtUp()]. *)
Definition _doneQuerying_caughtUp : M unit :=
  stopped <- gets _stopped ;;
  if stopped then ret tt else
  phase <- gets _phase ;;
  if negb (Phase_eqb phase QUERYING) then throw (Err_phaseUnexpectedly phase) else
  requery <- gets _requeryWhenDoneThisQuery ;;
  if requery then
    modify (set_requeryWhenDoneThisQuery false) ;;
    _pollQuery
  else
    empty <- queryNeedToFetch IdMap.empty ;;
    if empty then _beSteady else _fetchModifiedDocuments.

(** The options of the cursor built by [_cursorForQuery]: the fields are the
    shared projection and there is no transform; the caller chooses the
    limit. *)
Record CursorOptions : Type := { cursor_limit : Z }.

Definition _cursorForQuery (limitOverwrite : Z) : CursorOptions :=
  {| cursor_limit := limitOverwrite |}.

(** What iterating a cursor yields, by the options of the cursor. *)
Definition Mongo : Type := CursorOptions -> list Doc.

Definition _runInitialQuery (mongo : Mongo) : M unit :=
  stopped <- gets _stopped ;;
  if stopped then throw Err_stoppedSurprisinglyEarly else
  let initialCursor := mongo (_cursorForQuery (_limit * 2)) in
  forEach initialCursor _addMatching ;;
  let fetchedDocsCount := Z.of_nat (List.length initialCursor) in
  modify (set_safeAppendToBuffer (fetchedDocsCount <? _limit * 2)) ;;
  stopped <- gets _stopped ;;
  if stopped then throw Err_stoppedQuiteEarly else
  emit ready ;;
  _doneQuerying.

Definition _publishNewResults (newResults newBuffer : IdMap.t Doc) : M unit :=
  (* If the query is limited and there is a buffer, shut down so it doesn't
     stay in a way. *)
  when (truthy _limit) (mutateBuffer (fun _ => [])) ;;
  (* First remove anything that's gone. Be careful not to modify
     self._published while iterating over it. *)
  idsToRemove <- queryPublished (fun p =>
    map fst (filter (fun e => negb (IdMap.has (fst e) newResults)) p)) ;;
  forEach idsToRemove _removePublished ;;
  (* Now do adds and changes. *)
  forEach newResults (fun e => _handleDoc (fst e) (Some (snd e))) ;;
  (* Sanity-check that everything we tried to put into _published ended up
     there. *)
  size <- queryPublished IdMap.size ;;
  if negb (size =? IdMap.size newResults) then throw Err_failedToCopy else
  p <- queryPublished (fun p => p) ;;
  forEach p (fun e =>
    if negb (IdMap.has (fst e) newResults)
    then throw (Err_publishedHasExtra (fst e)) else ret tt) ;;
  (* Finally, replace the buffer *)
  forEach newBuffer (fun e => _addBuffered (fst e) (snd e)) ;;
  modify (set_safeAppendToBuffer (IdMap.size newBuffer <? _limit)).

(** The [forEach] of the deferred body of [_pollQuery]: the first [limit]
    documents go to [newResults], the rest to [newBuffer]. *)
Fixpoint splitResults (docs : list Doc) (i : Z)
    (newResults newBuffer : IdMap.t Doc) : IdMap.t Doc * IdMap.t Doc :=
  match docs with
  | [] => (newResults, newBuffer)
  | doc :: r =>
      if negb (truthy _limit) || (i <? _limit)
      then splitResults r (i + 1) (IdMap.set (doc_id doc) doc newResults) newBuffer
      else splitResults r (i + 1) newResults (IdMap.set (doc_id doc) doc newBuffer)
  end.

(** The deferred body of [_pollQuery]. *)
Definition pollQuery_deferred (mongo : Mongo) : M unit :=
  let cursor := mongo (_cursorForQuery (_limit * 2)) in
  let split := splitResults cursor 0 [] [] in
  _publishNewResults (fst split) (snd split) ;;
  _doneQuerying.

Definition stop : M unit :=
  stopped <- gets _stopped ;;
  if stopped then ret tt else
  modify (set_stopped true) ;;
  (* the handles are stopped *)
  writes <- gets _writesToCommitWhenWeReachSteady ;;
  forEach (match writes with Some ws => ws | None => [] end)
    (fun w => modify (fun s => set_committed (committed s ++ [w]) s)) ;;
  modify (set_writesToCommitWhenWeReachSteady None) ;;
  (* Proactively drop references to potentially big things. *)
  modify (set_published None) ;;
  modify (set_unpublishedBuffer None) ;;
  modify (set_needToFetch None) ;;
  modify (set_currentlyFetching None).

(** *** Callbacks registered by the constructor *)

(** The callback given to [onOplogEntry]. *)
Definition onOplogEntry (notification : Notification) : M unit :=
  if dropCollection notification then _needToPollQuery
  else
    phase <- gets _phase ;;
    if Phase_eqb phase QUERYING
    then _handleOplogEntryQuerying (op notification)
    else _handleOplogEntrySteadyOrFetching (op notification).

(** The callback given to [listenAll]; [fence] is the write that
    [fence.beginWrite()] returns when there is a current write fence. *)
Definition onListen (fence : option WriteToken) : M unit :=
  match fence with
  | None => ret tt
  | Some write =>
      modify (fun w => set_begun (begun w ++ [write]) w) ;;
      defer (Task_fenceWrite write)
  end.

(** The body deferred by the [listenAll] callback, after
    [waitUntilCaughtUp()]. *)
Definition fenceWrite (write : WriteToken) : M unit :=
  stopped <- gets _stopped ;;
  if stopped then
    (* We're stopped, so just immediately commit. *)
    modify (fun w => set_committed (committed w ++ [write]) w)
  else
    phase <- gets _phase ;;
    if Phase_eqb phase STEADY then
      modify (fun w => set_onFlush (onFlush w ++ [[write]]) w)
    else
      fun w =>
        match _writesToCommitWhenWeReachSteady w with
        | Some ws => (Returned tt, set_writesToCommitWhenWeReachSteady (Some (ws ++ [write])) w)
        | None => (Thrown TypeError, w)
        end.

(** The constructor: the state it leaves, with the initial query deferred. *)
Definition OplogObserveDriver : Outcome World :=
  if ordered options then Thrown Err_ordered else
  Returned
    {| _published := Some [];
       _unpublishedBuffer := if truthy _limit then Some [] else None;
       _safeAppendToBuffer := false;
       _stopped := false;
       _phase := QUERYING;
       _needToFetch := Some [];
       _currentlyFetching := None;
       _fetchGeneration := 0;
       _requeryWhenDoneThisQuery := false;
       _writesToCommitWhenWeReachSteady := Some [];
       multiplexer := [];
       onFlush := [];
       begun := [];
       committed := [];
       scheduled := [Task_runInitialQuery];
       fetching := [] |}.

(** *** The driver at work

    Everything that happens to a driver runs one piece of its code to the
    next yield: an oplog notification, a listen notification, a task the
    scheduler resumes, the callback of a fetch, [stop], or the multiplexer
    running its oldest onFlush callback.  An exception ends the piece and
    leaves the world as it is at that point. *)

Definition runTask (mongo : Mongo) (t : Task) : M unit :=
  match t with
  | Task_runInitialQuery => _runInitialQuery mongo
  | Task_pollQuery => pollQuery_deferred mongo
  | Task_fetchLoop => fetchLoop
  | Task_fenceWrite write => fenceWrite write
  | Task_doneQuerying_caughtUp => _doneQuerying_caughtUp
  | Task_fetchLoop_afterWait g => fetchLoop_afterWait g
  end.

(** The multiplexer runs an onFlush callback: its writes are committed. *)
Definition flushed (writes : list WriteToken) (rest : list (list WriteToken))
    (w : World) : World :=
  set_committed (committed w ++ writes) (set_onFlush rest w).

Inductive step : World -> World -> Prop :=
| step_oplog (n : Notification) w :
    step w (exec (onOplogEntry n) w)
| step_listen (fence : option WriteToken) w :
    step w (exec (onListen fence) w)
| step_task (mongo : Mongo) (t : Task) before after w :
    scheduled w = before ++ t :: after ->
    step w (exec (runTask mongo t) (set_scheduled (before ++ after) w))
| step_fetched (b : FetchBatch) (id : Id) err doc w :
    In b (fetching w) -> In id (outstanding b) ->
    step w (exec (fetchCallback (thisGeneration b) id err doc) w)
| step_stop w :
    step w (exec stop w)
| step_flush writes rest w :
    onFlush w = writes :: rest ->
    step w (flushed writes rest w).

Inductive reachable : World -> Prop :=
| reachable_constructed w :
    OplogObserveDriver = Returned w -> reachable w
| reachable_step w w' :
    reachable w -> step w w' -> reachable w'.

End Driver.

(** ** OplogObserveDriver.cursorSupported

    The static method that decides whether a cursor can be observed through
    the oplog.  It reads [cursorDescription.options] and asks the matcher two
    questions; [LocalCollection._checkSupportedProjection] belongs to
    minimongo and either returns or throws. *)

(** A JavaScript exception, as far as [cursorSupported] looks at it. *)
Record JsError : Type := { error_name : string }.

(** How a call ends. *)
Inductive Completion (A : Type) : Type :=
| Normal (a : A)
| Abrupt (e : JsError).
Arguments Normal {A} a.
Arguments Abrupt {A} e.

(** The options [cursorSupported] reads.  [_disableOplog] is the option as a
    condition; a number option that is absent is 0; [sort] and [fields] are
    objects when they are given. *)
Record CursorDescriptionOptions : Type := {
  opt_disableOplog : bool;
  opt_skip : Z;
  opt_limit : Z;
  opt_sort : option Doc;
  opt_fields : option Doc
}.

(** [matcher.hasWhere()] and [matcher.hasGeoQuery()] *)
Record Matcher : Type := {
  hasWhere : bool;
  hasGeoQuery : bool
}.

(** [checkSupportedProjection fields] is [Some e] when
    [LocalCollection._checkSupportedProjection(fields)] throws [e]. *)
Definition cursorSupported (checkSupportedProjection : Doc -> option JsError)
    (options : CursorDescriptionOptions) (matcher : Matcher) : Completion bool :=
  (* Did the user say no explicitly? *)
  if opt_disableOplog options then Normal false else
  (* skip is not supported; limit w/o a sort specifier is not supported *)
  if truthy (opt_skip options) ||
     (truthy (opt_limit options) &&
      negb (match opt_sort options with Some _ => true | None => false end))
  then Normal false else
  match
    match opt_fields options with
    | Some fields => checkSupportedProjection fields
    | None => None
    end
  with
  | Some e =>
      if String.eqb (error_name e) "MinimongoError" then Normal false else Abrupt e
  | None => Normal (negb (hasWhere matcher) && negb (hasGeoQuery matcher))
  end.

(** ** Vocabulary of the statements *)

(** Induction on values that reaches inside objects. *)
Section ValueInduction.
Variable P : Value -> Prop.
Hypothesis P_undefined : P VUndefined.
Hypothesis P_null : P VNull.
Hypothesis P_bool : forall b, P (VBool b).
Hypothesis P_num : forall n, P (VNum n).
Hypothesis P_str : forall s, P (VStr s).
Hypothesis P_obj :
  forall fields, Forall (fun kv => P (snd kv)) fields -> P (VObj fields).

Fixpoint Value_nested_ind (v : Value) : P v :=
  match v with
  | VUndefined => P_undefined
  | VNull => P_null
  | VBool b => P_bool b
  | VNum n => P_num n
  | VStr s => P_str s
  | VObj fields =>
      P_obj fields
        ((fix all (l : list (string * Value)) : Forall (fun kv => P (snd kv)) l :=
            match l with
            | [] => Forall_nil _
            | kv :: r => Forall_cons kv (Value_nested_ind (snd kv)) (all r)
            end) fields)
  end.
End ValueInduction.

Module IdMapFacts.
(** No id occurs twice. *)
Fixpoint wf {V} (m : IdMap.t V) : Prop :=
  match m with
  | [] => True
  | (k, _) :: r => IdMap.has k r = false /\ wf r
  end.
End IdMapFacts.

Section Statements.

Variable options : Options.

(** [m] run from [w] ends in a world related to [w] by [R], whether it
    returns or throws. *)
Definition preserves (R : World -> World -> Prop) {A} (m : M A) : Prop :=
  forall w, R w (exec m w).

(** Every error [m] can end with is one of [E]. *)
Definition throws_only (E : Error -> Prop) {A} (m : M A) : Prop :=
  forall w e, outcome m w = Thrown e -> E e.

(** Errors other than the one [_removeMatching] itself raises. *)
Definition not_removeNotCached (e : Error) : Prop :=
  forall id, e <> Err_removeNotCached id.

(** The writes of a scheduled task: the one a deferred fence body will
    handle. *)
Definition writesOfTask (t : Task) : list WriteToken :=
  match t with
  | Task_fenceWrite write => [write]
  | _ => []
  end.

Definition pendingWrites (w : World) : list WriteToken :=
  match _writesToCommitWhenWeReachSteady w with
  | Some ws => ws
  | None => []
  end.

(** Every write the driver has taken charge of, wherever it is now: with a
    deferred fence body, pending until steady, handed to the multiplexer with
    an onFlush callback, or committed. *)
Definition heldWrites (w : World) : list WriteToken :=
  flat_map writesOfTask (scheduled w) ++ pendingWrites w ++
  List.concat (onFlush w) ++ committed w.

(** An [added] call carries the publish projection of a document whose
    [_id] was deleted. *)
Definition fromStrippedDoc (c : MuxCall) : Prop :=
  match c with
  | added _ fields =>
      exists doc, fields = projectionFn options (Obj.delete "_id" doc)
  | _ => True
  end.

(** Every round of fetches in flight was started at a generation the
    driver has reached. *)
Definition rounds_below_generation (w : World) : Prop :=
  forall b, In b (fetching w) -> thisGeneration b <= _fetchGeneration w.

(** What every piece of driver code other than [stop] and the fence
    callbacks guarantees between the world it starts in and the world it
    ends in. *)
Record progress (w w' : World) : Prop := {
  generation_grows : _fetchGeneration w <= _fetchGeneration w';
  stopped_same : _stopped w' = _stopped w;
  published_stays : _published w <> None -> _published w' <> None;
  buffer_stays : _unpublishedBuffer w <> None -> _unpublishedBuffer w' <> None;
  pending_stays :
    _writesToCommitWhenWeReachSteady w <> None ->
    _writesToCommitWhenWeReachSteady w' <> None;
  begun_same : begun w' = begun w;
  committed_same : committed w' = committed w;
  rounds_bounded : rounds_below_generation w -> rounds_below_generation w';
  writes_kept : Permutation (heldWrites w) (heldWrites w');
  calls_appended :
    exists calls, multiplexer w' = multiplexer w ++ calls /\
                  Forall fromStrippedDoc calls
}.

(** What one step of the driver guarantees: the generation does not go
    back, the writes begun in the step are the only new writes held, and the
    multiplexer gets calls from stripped documents only. *)
Record advance (w w' : World) : Prop := {
  advance_generation : _fetchGeneration w <= _fetchGeneration w';
  advance_writes :
    exists new, begun w' = begun w ++ new /\
                Permutation (heldWrites w') (heldWrites w ++ new);
  advance_calls :
    exists calls, multiplexer w' = multiplexer w ++ calls /\
                  Forall fromStrippedDoc calls;
  advance_pending :
    (_stopped w = false -> _writesToCommitWhenWeReachSteady w <> None) ->
    (_stopped w' = false -> _writesToCommitWhenWeReachSteady w' <> None);
  advance_rounds : rounds_below_generation w -> rounds_below_generation w'
}.

(** Worlds linked by any number of steps. *)
Definition steps : World -> World -> Prop := clos_refl_trans World (step options).

(** What [fetchLoop] does when it starts a round of fetches. *)
Definition roundStarted (nf : IdMap.t string) (w : World) : World :=
  let g := _fetchGeneration w + 1 in
  set_fetching (fetching w ++ [Build_FetchBatch g (map fst nf) None])
    (set_needToFetch (Some [])
       (set_fetchGeneration g (set_currentlyFetching (Some nf) w))).

(** [w'] differs from [w] at most in the bookkeeping of the rounds of
    fetches and in what the scheduler holds: no field of the driver and no
    call on a collaborator is different. *)
Definition only_bookkeeping (w w' : World) : Prop :=
  exists rounds tasks, w' = set_scheduled tasks (set_fetching rounds w).

(** Code that leaves the writes alone: none becomes pending, none is handed
    to the multiplexer, none is committed. *)
Record quiet (w w' : World) : Prop := {
  quiet_pending :
    _writesToCommitWhenWeReachSteady w' = _writesToCommitWhenWeReachSteady w;
  quiet_onFlush : onFlush w' = onFlush w;
  quiet_committed : committed w' = committed w
}.

(** The world [_beSteady] leaves: the phase is STEADY, the pending list is
    empty, and one more onFlush callback is registered, which commits all
    the writes that were pending. *)
Definition steadied (w : World) : World :=
  set_onFlush (onFlush w ++ [pendingWrites w])
    (set_writesToCommitWhenWeReachSteady (Some []) (set_phase STEADY w)).

(** Code that leaves the writes alone or ends by entering STEADY. *)
Definition quiet_or_steadied (w w' : World) : Prop :=
  quiet w w' \/
  (_phase w' = STEADY /\
   _writesToCommitWhenWeReachSteady w' = Some [] /\
   onFlush w' = onFlush w ++ [pendingWrites w] /\
   committed w' = committed w).

(** The ways the writes can move in one step of the driver. *)
Inductive writes_move (w w' : World) : Prop :=
| move_none :
    quiet w w' -> writes_move w w'
| move_steady :
    (* entering STEADY: all pending writes go to one onFlush callback *)
    _phase w' = STEADY ->
    _writesToCommitWhenWeReachSteady w' = Some [] ->
    onFlush w' = onFlush w ++ [pendingWrites w] ->
    committed w' = committed w ->
    writes_move w w'
| move_fence_stopped write :
    (* a fence body run after stop commits at once *)
    _stopped w = true ->
    _writesToCommitWhenWeReachSteady w' = _writesToCommitWhenWeReachSteady w ->
    onFlush w' = onFlush w ->
    committed w' = committed w ++ [write] ->
    writes_move w w'
| move_fence_steady write :
    (* a fence body run in STEADY registers its own onFlush callback *)
    _stopped w = false -> _phase w = STEADY ->
    _writesToCommitWhenWeReachSteady w' = _writesToCommitWhenWeReachSteady w ->
    onFlush w' = onFlush w ++ [[write]] ->
    committed w' = committed w ->
    writes_move w w'
| move_fence_pending write :
    (* a fence body run in another phase makes its write pending *)
    _stopped w = false -> _phase w <> STEADY ->
    _writesToCommitWhenWeReachSteady w' = Some (pendingWrites w ++ [write]) ->
    onFlush w' = onFlush w ->
    committed w' = committed w ->
    writes_move w w'
| move_stop :
    (* stop commits the pending writes at once *)
    _stopped w = false -> _stopped w' = true ->
    _writesToCommitWhenWeReachSteady w' = None ->
    onFlush w' = onFlush w ->
    committed w' = committed w ++ pendingWrites w ->
    writes_move w w'
| move_flush writes :
    (* the multiplexer runs an onFlush callback *)
    onFlush w = writes :: onFlush w' ->
    _writesToCommitWhenWeReachSteady w' = _writesToCommitWhenWeReachSteady w ->
    committed w' = committed w ++ writes ->
    writes_move w w'.

(** Invariant 1 of the specification, for the published heap as it is
    represented here: no id twice, and at most [limit] documents. *)
Definition within_limit (w : World) : Prop :=
  forall p, _published w = Some p ->
            IdMapFacts.wf p /\ IdMap.size p <= limit options.

(** Code that keeps invariant 1, however it ends. *)
Definition keeps_limit (w w' : World) : Prop :=
  within_limit w -> within_limit w'.

(** Code that does not touch the published heap. *)
Definition same_published (w w' : World) : Prop := _published w' = _published w.

(** The test the callers of [_addPublished] make: when the published heap is
    full and the id is new, the document sorts strictly before the greatest
    published one. *)
Definition sorts_before_greatest (id : Id) (doc : Doc) (w : World) : Prop :=
  forall p, _published w = Some p -> IdMap.size p = limit options ->
            IdMap.has id p = false ->
            comparator options doc (maxElement options p) < 0.

(** A driver that is not stopped has its list of pending writes. *)
Definition pending_list_alive (w : World) : Prop :=
  _stopped w = false -> _writesToCommitWhenWeReachSteady w <> None.

(** The three things [_addMatching] can do with a document. *)
Inductive Placement : Type := Publish | Buffer | Drop.

(** The rule of the specification for a newly matching document, given the
    published heap, the buffer and [safeAppendToBuffer]. *)
Definition addMatching_rule (p b : Heap) (safe : bool) (doc : Doc) : Placement :=
  if (limit options =? 0) || (IdMap.size p <? limit options) ||
     (comparator options doc (maxElement options p) <? 0)
  then Publish
  else if (safe && (IdMap.size b <? limit options)) ||
          fitsBelow options doc (maxElement options b)
  then Buffer
  else Drop.

(** The buffer, empty for an unlimited query (which has none). *)
Definition bufferOf (w : World) : Heap :=
  match _unpublishedBuffer w with
  | Some b => b
  | None => []
  end.

Definition publishedOf (w : World) : Heap :=
  match _published w with
  | Some p => p
  | None => []
  end.

(** The row "matches now, was published" of the table of [handleDoc] in the
    specification. *)
Definition handleDoc_published_rule (id : Id) (newDoc : Doc) (w : World)
    : Outcome unit * World :=
  if (limit options =? 0) || (IdMap.size (bufferOf w) =? 0) ||
     (comparator options newDoc (minElement options (bufferOf w)) <=? 0)
  then _changePublished options id (IdMap.get id (publishedOf w)) newDoc w
  else
    match _removePublished options id w with
    | (Returned _, w1) =>
        if _safeAppendToBuffer w1 ||
           fitsBelow options newDoc (maxElement options (bufferOf w1))
        then _addBuffered options id newDoc w1
        else (Returned tt, set_safeAppendToBuffer false w1)
    | (Thrown e, w1) => (Thrown e, w1)
    end.

(** The row "matches now, was buffered": the old version leaves the buffer
    with nothing else touched, then the document is published, put back
    into the buffer, or dropped. *)
Definition handleDoc_buffered_rule (id : Id) (newDoc : Doc) (w : World)
    : Outcome unit * World :=
  let rest := IdMap.remove id (bufferOf w) in
  let w1 := set_unpublishedBuffer (Some rest) w in
  if comparator options newDoc (maxElement options (publishedOf w)) <? 0
  then _addPublished options id newDoc w1
  else if _safeAppendToBuffer w || fitsBelow options newDoc (maxElement options rest)
  then (Returned tt, set_unpublishedBuffer (Some (IdMap.set id newDoc rest)) w1)
  else (Returned tt, set_safeAppendToBuffer false w1).

(** Invariant 5 of the specification: no published document sorts after a
    buffered one. *)
Definition caches_ordered (w : World) : Prop :=
  forall pd bd, In pd (publishedOf w) -> In bd (bufferOf w) ->
                comparator options (snd pd) (Some (snd bd)) <= 0.

(** The world after the first two calls of [_addPublished]: the document is
    stored under its id and [added] is called. *)
Definition afterAdding (id : Id) (doc : Doc) (p : Heap) (w : World) : World :=
  set_multiplexer
    (multiplexer w ++ [added id (projectionFn options (Obj.delete "_id" doc))])
    (set_published (Some (IdMap.set id (sharedProjectionFn options doc) p)) w).

End Statements.

(** ** A query sorted by a number field, for worked examples

    Documents are compared by their field [n], ascending; nothing is
    projected away and every document matches. *)
Module Example.
Definition num (k : string) (d : Doc) : Z :=
  match Obj.lookup k d with
  | VNum n => n
  | _ => 0
  end.

Definition byN : Comparator :=
  fun a b =>
    match b with
    | Some b => num "n" a - num "n" b
    | None => 1
    end.

Definition options (lim : Z) : Options :=
  {| ordered := false;
     limit := lim;
     comparator := byN;
     documentMatches := fun _ => true;
     canBecomeTrueByModifier := fun _ => false;
     projectionFn := fun d => d;
     sharedProjectionFn := fun d => d;
     makeChangedFields := fun newDoc _ => newDoc;
     LocalCollection_modify := fun d _ => Some d;
     idForOp := fun o => if String.eqb (op_op o) "u" then doc_id (op_o2 o)
                         else doc_id (op_o o) |}.

(** The document [{_id: i, n: n}]. *)
Definition doc (i n : Z) : Doc := [("_id", VNum i); ("n", VNum n)].

(** The entry of a heap for [doc i n]. *)
Definition entry (i n : Z) : Id * Doc := (VNum i, doc i n).

(** A running driver with the given caches. *)
Definition world (p b : Heap) (safe : bool) (phase : Phase) : World :=
  {| _published := Some p;
     _unpublishedBuffer := Some b;
     _safeAppendToBuffer := safe;
     _stopped := false;
     _phase := phase;
     _needToFetch := Some [];
     _currentlyFetching := None;
     _fetchGeneration := 0;
     _requeryWhenDoneThisQuery := false;
     _writesToCommitWhenWeReachSteady := Some [];
     multiplexer := [];
     onFlush := [];
     begun := [];
     committed := [];
     scheduled := [];
     fetching := [] |}.

(** Four documents with [n] = 10, 20, 30, 40. *)
Definition fourDocs : list Doc := [doc 1 10; doc 2 20; doc 3 30; doc 4 40].

(** A database answering every query with the first [limit] of [docs]. *)
Definition mongo (docs : list Doc) : Mongo :=
  fun o => firstn (Z.to_nat (cursor_limit o)) docs.

(** The driver with [limit = 2] over [fourDocs], once its initial query has
    run and the oplog has caught up: documents 1 and 2 are published, the
    buffer is empty and the driver is steady. *)
Definition steady : World :=
  match OplogObserveDriver (options 2) with
  | Returned w0 =>
      let w1 := exec (_runInitialQuery (options 2) (mongo fourDocs))
                  (set_scheduled [] w0) in
      exec _doneQuerying_caughtUp (set_scheduled [] w1)
  | Thrown _ => world [] [] false QUERYING
  end.
End Example.

(** ** Vocabulary for further properties *)

(** The id map a cursor fills when each of its documents is stored under
    its [_id], starting from [m]. *)
Definition storedById (docs : list Doc) (m : IdMap.t Doc) : IdMap.t Doc :=
  fold_left (fun acc doc => IdMap.set (doc_id doc) doc acc) docs m.

(** The buffer, when there is one, holds at most [limit] documents. *)
Definition buffer_within_limit (options : Options) (w : World) : Prop :=
  forall b, _unpublishedBuffer w = Some b -> IdMap.size b <= limit options.

(** Code that keeps the buffer within the limit, however it ends. *)
Definition keeps_buffer_limit (options : Options) (w w' : World) : Prop :=
  buffer_within_limit options w -> buffer_within_limit options w'.

(** A driver after [stop]: the flag is set and the published heap is
    dropped. *)
Definition halted (w : World) : Prop := _stopped w = true /\ _published w = None.

(** Code that leaves a stopped driver stopped and calls nothing on the
    multiplexer. *)
Definition mute (w w' : World) : Prop :=
  halted w -> halted w' /\ multiplexer w' = multiplexer w.

(** A driver is stopped only with its published heap dropped. *)
Definition stopped_tidily (w : World) : Prop :=
  _stopped w = true -> _published w = None.

Definition keeps_tidy (w w' : World) : Prop := stopped_tidily w -> stopped_tidily w'.

(** What a call tells an observer about [id]: whether the document is in the
    result set, given what the observer knew. *)
Definition tells (c : MuxCall) (id : Id) (known : bool) : bool :=
  match c with
  | added i _ => if EJSON_equals i id then true else known
  | removed i => if EJSON_equals i id then false else known
  | changed _ _ | ready => known
  end.

(** Whether [id] is in the result set of an observer that has received
    [calls], starting from the empty set. *)
Definition observed (calls : list MuxCall) (id : Id) : bool :=
  fold_left (fun known c => tells c id known) calls false.

(** The observers have been told of exactly the published documents. *)
Definition observers_agree (w : World) : Prop :=
  forall p, _published w = Some p ->
            forall id, IdMap.has id p = observed (multiplexer w) id.

Definition keeps_agreement (w w' : World) : Prop :=
  observers_agree w -> observers_agree w'.

(** Code that changes nothing. *)
Definition unchanged (w w' : World) : Prop := w' = w.

(** A running driver has everything [stop] drops: the published heap, the
    map of ids to fetch, the list of pending writes and, for a limited
    query, the buffer. *)
Definition running (options : Options) (w : World) : Prop :=
  _stopped w = false /\ _published w <> None /\ _needToFetch w <> None /\
  _writesToCommitWhenWeReachSteady w <> None /\
  (limit options <> 0 -> _unpublishedBuffer w <> None).

(** [m], run from [w] in a running driver, leaves the driver running and
    does not end in a TypeError. *)
Definition careful_at (options : Options) {A} (m : M A) (w : World) : Prop :=
  running options w ->
  running options (exec m w) /\ outcome m w <> Thrown TypeError.

Definition careful (options : Options) {A} (m : M A) : Prop :=
  forall w, careful_at options m w.

Definition is_ready (c : MuxCall) : bool :=
  match c with ready => true | _ => false end.

Definition is_initialQuery (t : Task) : bool :=
  match t with Task_runInitialQuery => true | _ => false end.

(** How often [multiplexer.ready()] was called. *)
Definition readyCalls (w : World) : nat :=
  List.length (filter is_ready (multiplexer w)).

(** How many initial queries are waiting to run. *)
Definition initialQueries (w : World) : nat :=
  List.length (filter is_initialQuery (scheduled w)).

(** Code that neither calls [ready] nor schedules an initial query. *)
Definition no_more_ready (w w' : World) : Prop :=
  (readyCalls w' + initialQueries w' <= readyCalls w + initialQueries w)%nat.

(** Code that calls [ready] at most once and schedules no initial query. *)
Definition one_more_ready (w w' : World) : Prop :=
  (readyCalls w' + initialQueries w' <= S (readyCalls w + initialQueries w))%nat.

(** The test [_handleOplogEntrySteadyOrFetching] makes first: the driver is
    fetching, and [id] is in the round in flight or queued for the next. *)
Definition being_fetched (id : Id) (w : World) : bool :=
  Phase_eqb (_phase w) FETCHING &&
  (match _currentlyFetching w with Some cf => IdMap.has id cf | None => false end
   || match _needToFetch w with Some nf => IdMap.has id nf | None => false end).

(** Whether [id] is cached, as the handlers of oplog entries test it. *)
Definition cached (options : Options) (id : Id) (w : World) : bool :=
  IdMap.has id (publishedOf w) || (truthy (limit options) && IdMap.has id (bufferOf w)).

(** The map of ids to fetch once the entries [entries] are recorded in it,
    in order. *)
Definition queued (options : Options) (entries : list OplogEntry)
    (nf : IdMap.t string) : IdMap.t string :=
  fold_left (fun m o => IdMap.set (idForOp options o) (op_ts o) m) entries nf.

(** The notification of an oplog entry that is not the drop of the
    collection. *)
Definition notify (o : OplogEntry) : Notification :=
  {| dropCollection := false; op := o |}.

(** No id is published twice (the published heap is an id map). *)
Definition published_wf (w : World) : Prop :=
  forall p, _published w = Some p -> IdMapFacts.wf p.

Definition keeps_wf (w w' : World) : Prop := published_wf w -> published_wf w'.

(** Code that leaves the records of the rounds of fetches alone. *)
Definition same_rounds (w w' : World) : Prop := fetching w' = fetching w.

(** The record of a round after the callback of [id] has come, with [err] if
    the fetch failed. *)
Definition delivered (id : Id) (err : option string) (b : FetchBatch) : FetchBatch :=
  {| thisGeneration := thisGeneration b;
     outstanding := remove_first id (outstanding b);
     anyError := match anyError b with
                 | Some e0 => Some e0
                 | None => err
                 end |}.

(** An update that has to be fetched (its modifier names a field of a custom
    type). *)
Definition updateToFetch : OplogEntry :=
  {| op_op := "u";
     op_o := [("$set", VObj [("EJSON$value", VNum 1)])];
     op_o2 := [("_id", VNum 7)];
     op_ts := "ts1" |}.

(** [Example.steady] after the update [updateToFetch] and then the drop of
    the collection, the deferred fetch loop not having run yet. *)
Definition polledBeforeFetching : World :=
  let o := Example.options 2 in
  exec (onOplogEntry o {| dropCollection := true; op := updateToFetch |})
    (exec (onOplogEntry o (notify updateToFetch)) Example.steady).

(** In the phase STEADY a driver that is not stopped has nothing to
    fetch. *)
Definition steady_settled (w : World) : Prop :=
  _stopped w = false -> _phase w = STEADY -> _needToFetch w = Some [].

Definition keeps_settled (w w' : World) : Prop :=
  steady_settled w -> steady_settled w'.

(** A limited query whose first sort key is not among its fields,
    [find({}, {sort: {n: -1, m: 1}, fields: {m: 1}, limit: 1})]: the
    documents are stored, and published, without [n]. *)
Module Projecting.
(** The comparator of [{n: -1, m: 1}]: the greater [n] first, then the
    smaller [m]; a document without [n] comes after those with a positive
    [n]. *)
Definition byNdescThenM : Comparator :=
  fun a b =>
    match b with
    | Some b =>
        if Example.num "n" b =? Example.num "n" a
        then Example.num "m" a - Example.num "m" b
        else Example.num "n" b - Example.num "n" a
    | None => 1
    end.

(** The projection of [{m: 1}]: [_id] and [m] are kept. *)
Definition onlyM (d : Doc) : Doc :=
  filter (fun kv => String.eqb (fst kv) "_id" || String.eqb (fst kv) "m") d.

Definition options : Options :=
  {| ordered := false;
     limit := 1;
     comparator := byNdescThenM;
     documentMatches := fun _ => true;
     canBecomeTrueByModifier := fun _ => false;
     projectionFn := onlyM;
     sharedProjectionFn := onlyM;
     makeChangedFields := fun newDoc _ => newDoc;
     LocalCollection_modify := fun d _ => Some d;
     idForOp := fun o => if String.eqb (op_op o) "u" then doc_id (op_o2 o)
                         else doc_id (op_o o) |}.

(** The document [{_id: i, n: n, m: m}]. *)
Definition doc (i n m : Z) : Doc := [("_id", VNum i); ("n", VNum n); ("m", VNum m)].

(** The cursors of [_cursorForQuery] over a collection that holds
    [{_id: 1, n: 10, m: 1}]: their fields are the shared projection. *)
Definition mongo : Mongo := Example.mongo [onlyM (doc 1 10 1)].

(** The driver over that collection, once its initial query has run and the
    oplog has caught up. *)
Definition steady : World :=
  match OplogObserveDriver options with
  | Returned w0 =>
      let w1 := exec (_runInitialQuery options mongo) (set_scheduled [] w0) in
      exec _doneQuerying_caughtUp (set_scheduled [] w1)
  | Thrown _ => Example.world [] [] false QUERYING
  end.

(** The oplog entry of the insertion of [{_id: 2, n: 20, m: 5}]. *)
Definition insertion : Notification :=
  {| dropCollection := false;
     op := {| op_op := "i"; op_o := doc 2 20 5; op_o2 := []; op_ts := "ts1" |} |}.

(** [steady] after that entry. *)
Definition overflowed : World := exec (onOplogEntry options insertion) steady.
End Projecting.

(** [Example.steady] after two writes were begun under a write fence: the
    deferred body of write 7 has run and the multiplexer has run the onFlush
    callback of [_beSteady], so write 7 is with an onFlush callback and write
    8 with its deferred body. *)
Definition fenced : World :=
  let w1 := exec (onListen (Some 7%nat)) Example.steady in
  let w2 := exec (fenceWrite 7%nat) (set_scheduled [] w1) in
  exec (onListen (Some 8%nat)) (flushed [] [[7%nat]] w2).

(** [Example.steady] after the update [updateToFetch] and then [stop], the
    deferred fetch loop not having run yet. *)
Definition stoppedWhileFetching : World :=
  exec stop (exec (onOplogEntry (Example.options 2) (notify updateToFetch)) Example.steady).

(** * Properties *)

(** ** Equality of ids *)

Lemma EJSON_equals_eq (a b : Value) : EJSON_equals a b = true <-> a = b.
Proof.
  revert b. induction a using Value_nested_ind; intros [] ; cbn;
    try (split; [discriminate | congruence]); try tauto.
  - rewrite Bool.eqb_true_iff. split; congruence.
  - rewrite Z.eqb_eq. split; congruence.
  - rewrite String.eqb_eq. split; congruence.
  - rename fields0 into other. revert other.
    induction H as [| [k v] r Hv _ IH]; intros [| [k' v'] r'];
      try (split; [discriminate | congruence]); try tauto.
    cbn in Hv. rewrite !andb_true_iff, String.eqb_eq, Hv, IH.
    split; [intros [[-> ->] E]; congruence | intros E; injection E; intuition congruence].
Qed.

Lemma EJSON_equals_refl (a : Value) : EJSON_equals a a = true.
Proof. now apply EJSON_equals_eq. Qed.

Lemma EJSON_equals_neq (a b : Value) : EJSON_equals a b = false <-> a <> b.
Proof.
  rewrite <- EJSON_equals_eq. destruct (EJSON_equals a b); intuition congruence.
Qed.

(** ** Id maps *)

Ltac ejson :=
  repeat match goal with
         | H : EJSON_equals _ _ = true |- _ => apply EJSON_equals_eq in H
         | H : EJSON_equals _ _ = false |- _ => apply EJSON_equals_neq in H
         end;
  subst; try reflexivity; try congruence.

Module Import IdMapLemmas.
Import IdMapFacts.

Lemma has_get {V} id (m : IdMap.t V) :
  IdMap.has id m = true <-> exists v, IdMap.get id m = Some v.
Proof.
  induction m as [| [k x] r IH]; cbn.
  - split; [discriminate | intros [v E]; discriminate].
  - destruct (EJSON_equals k id); cbn; [split; eauto | exact IH].
Qed.

Lemma hasnt_get {V} id (m : IdMap.t V) :
  IdMap.has id m = false <-> IdMap.get id m = None.
Proof.
  induction m as [| [k x] r IH]; cbn; [tauto |].
  destruct (EJSON_equals k id); cbn; [split; discriminate | exact IH].
Qed.

Lemma has_In {V} id (m : IdMap.t V) :
  IdMap.has id m = true <-> exists v, In (id, v) m.
Proof.
  induction m as [| [k x] r IH]; cbn.
  - split; [discriminate | intros [v []]].
  - rewrite orb_true_iff, IH, EJSON_equals_eq. split.
    + intros [-> | [v Hv]]; eauto.
    + intros [v [E | Hv]]; [left; congruence | eauto].
Qed.

Lemma set_absent {V} id (v : V) m :
  IdMap.has id m = false -> IdMap.set id v m = m ++ [(id, v)].
Proof.
  induction m as [| [k x] r IH]; cbn; [reflexivity |].
  intros H. apply orb_false_iff in H as [-> H]. now rewrite IH.
Qed.

Lemma size_set_present {V} id (v : V) m :
  IdMap.has id m = true -> IdMap.size (IdMap.set id v m) = IdMap.size m.
Proof.
  unfold IdMap.size. induction m as [| [k x] r IH]; cbn; [discriminate |].
  destruct (EJSON_equals k id); cbn; [reflexivity |].
  intros H. apply IH in H. cbn in *. lia.
Qed.

Lemma size_set_absent {V} id (v : V) m :
  IdMap.has id m = false -> IdMap.size (IdMap.set id v m) = IdMap.size m + 1.
Proof.
  intros H. rewrite (set_absent _ _ _ H). unfold IdMap.size.
  rewrite length_app. cbn. lia.
Qed.

Lemma size_set_le {V} id (v : V) m :
  IdMap.size m <= IdMap.size (IdMap.set id v m) <= IdMap.size m + 1.
Proof.
  destruct (IdMap.has id m) eqn:H.
  - rewrite (size_set_present _ _ _ H). lia.
  - rewrite (size_set_absent _ _ _ H). lia.
Qed.

Lemma size_nonneg {V} (m : IdMap.t V) : 0 <= IdMap.size m.
Proof. unfold IdMap.size. lia. Qed.

Lemma size_remove_le {V} id (m : IdMap.t V) :
  IdMap.size (IdMap.remove id m) <= IdMap.size m.
Proof.
  unfold IdMap.size. induction m as [| [k x] r IH]; cbn; [lia |].
  destruct (EJSON_equals k id); cbn; lia.
Qed.

Lemma size_remove_present {V} id (m : IdMap.t V) :
  IdMap.has id m = true -> IdMap.size (IdMap.remove id m) < IdMap.size m.
Proof.
  unfold IdMap.size. induction m as [| [k x] r IH]; cbn; [discriminate |].
  destruct (EJSON_equals k id); cbn.
  - intros _. pose proof (size_remove_le id r). unfold IdMap.size in *. lia.
  - intros H. apply IH in H. lia.
Qed.

Lemma has_set {V} id id' (v : V) m :
  IdMap.has id' (IdMap.set id v m) = EJSON_equals id id' || IdMap.has id' m.
Proof.
  induction m as [| [k x] r IH]; cbn; [now rewrite orb_false_r |].
  destruct (EJSON_equals k id) eqn:E; cbn.
  - apply EJSON_equals_eq in E as ->.
    now destruct (EJSON_equals id id').
  - rewrite IH. destruct (EJSON_equals k id'), (EJSON_equals id id'); reflexivity.
Qed.

Lemma has_remove {V} id id' (m : IdMap.t V) :
  IdMap.has id' (IdMap.remove id m) = negb (EJSON_equals id id') && IdMap.has id' m.
Proof.
  induction m as [| [k x] r IH]; cbn; [now rewrite andb_false_r |].
  destruct (EJSON_equals k id) eqn:E; cbn; rewrite IH;
    destruct (EJSON_equals k id') eqn:E', (EJSON_equals id id') eqn:E'';
    cbn; ejson.
Qed.

Lemma wf_set {V} id (v : V) m : wf m -> wf (IdMap.set id v m).
Proof.
  induction m as [| [k x] r IH]; cbn; [auto |].
  intros [H W]. destruct (EJSON_equals k id) eqn:E; cbn; [auto |].
  split; [| auto]. rewrite has_set, H.
  destruct (EJSON_equals id k) eqn:E'; ejson.
Qed.

Lemma wf_remove {V} id (m : IdMap.t V) : wf m -> wf (IdMap.remove id m).
Proof.
  induction m as [| [k x] r IH]; cbn; [auto |].
  intros [H W]. destruct (EJSON_equals k id); cbn; [auto |].
  split; [| auto]. rewrite has_remove, H. apply andb_false_r.
Qed.

Lemma wf_get_In {V} id (v : V) m : wf m -> In (id, v) m -> IdMap.get id m = Some v.
Proof.
  induction m as [| [k x] r IH]; cbn; [tauto |].
  intros [H W] [E | I].
  - injection E as -> ->. now rewrite EJSON_equals_refl.
  - destruct (EJSON_equals k id) eqn:E; [| auto].
    apply EJSON_equals_eq in E as ->.
    assert (IdMap.has id r = true) by (apply has_In; eauto). congruence.
Qed.
End IdMapLemmas.

(** ** Running driver code *)

Lemma run_bind {A B} (m : M A) (k : A -> M B) w a w' :
  m w = (Returned a, w') -> bind m k w = k a w'.
Proof. unfold bind. now intros ->. Qed.

Lemma run_bind_thrown {A B} (m : M A) (k : A -> M B) w e w' :
  m w = (Thrown e, w') -> bind m k w = (Thrown e, w').
Proof. unfold bind. now intros ->. Qed.

Lemma run_queryPublished {A} (f : Heap -> A) w p :
  _published w = Some p -> queryPublished f w = (Returned (f p), w).
Proof. unfold queryPublished. now intros ->. Qed.

Lemma run_queryBuffer {A} (f : Heap -> A) w b :
  _unpublishedBuffer w = Some b -> queryBuffer f w = (Returned (f b), w).
Proof. unfold queryBuffer. now intros ->. Qed.

Lemma run_mutatePublished f w p :
  _published w = Some p ->
  mutatePublished f w = (Returned tt, set_published (Some (f p)) w).
Proof. unfold mutatePublished. now intros ->. Qed.

Lemma run_mutateBuffer f w b :
  _unpublishedBuffer w = Some b ->
  mutateBuffer f w = (Returned tt, set_unpublishedBuffer (Some (f b)) w).
Proof. unfold mutateBuffer. now intros ->. Qed.

Lemma bind_assoc {A B C} (m : M A) (f : A -> M B) (g : B -> M C) w :
  bind (bind m f) g w = bind m (fun a => bind (f a) g) w.
Proof. unfold bind. destruct (m w) as [[a | e] w']; reflexivity. Qed.

Lemma bind_ret {A B} (a : A) (k : A -> M B) w : bind (ret a) k w = k a w.
Proof. reflexivity. Qed.

Lemma bind_gets {A B} (f : World -> A) (k : A -> M B) w :
  bind (gets f) k w = k (f w) w.
Proof. reflexivity. Qed.

Lemma bind_modify {B} (f : World -> World) (k : unit -> M B) w :
  bind (modify f) k w = k tt (f w).
Proof. reflexivity. Qed.

Lemma bind_throw {A B} (e : Error) (k : A -> M B) w :
  bind (throw e) k w = (Thrown e, w).
Proof. reflexivity. Qed.

Lemma bind_queryPublished {A B} (f : Heap -> A) (k : A -> M B) w p :
  _published w = Some p -> bind (queryPublished f) k w = k (f p) w.
Proof. intros H. apply run_bind, run_queryPublished, H. Qed.

Lemma bind_queryBuffer {A B} (f : Heap -> A) (k : A -> M B) w b :
  _unpublishedBuffer w = Some b -> bind (queryBuffer f) k w = k (f b) w.
Proof. intros H. apply run_bind, run_queryBuffer, H. Qed.

Lemma bind_mutatePublished {B} f (k : unit -> M B) w p :
  _published w = Some p ->
  bind (mutatePublished f) k w = k tt (set_published (Some (f p)) w).
Proof. intros H. apply run_bind, run_mutatePublished, H. Qed.

Lemma bind_mutateBuffer {B} f (k : unit -> M B) w b :
  _unpublishedBuffer w = Some b ->
  bind (mutateBuffer f) k w = k tt (set_unpublishedBuffer (Some (f b)) w).
Proof. intros H. apply run_bind, run_mutateBuffer, H. Qed.

(** Run the code at the head of the goal one call further. *)
Ltac known := cbn; first [eassumption | reflexivity].
Ltac run1 :=
  first
    [ rewrite bind_assoc
    | rewrite bind_ret
    | rewrite bind_gets
    | rewrite bind_modify
    | rewrite bind_throw
    | erewrite bind_queryPublished by known
    | erewrite bind_queryBuffer by known
    | erewrite bind_mutatePublished by known
    | erewrite bind_mutateBuffer by known
    | erewrite run_queryPublished by known
    | erewrite run_queryBuffer by known
    | erewrite run_mutatePublished by known
    | erewrite run_mutateBuffer by known ].
Ltac run := repeat run1.

Lemma size_zero_empty {V} (m : IdMap.t V) : IdMap.size m = 0 <-> m = [].
Proof.
  destruct m; cbn; [tauto |]. unfold IdMap.size. cbn.
  split; [lia | discriminate].
Qed.

Lemma maxElement_if_nonempty options (h : Heap) :
  (if 0 <? IdMap.size h then maxElement options h else None) = maxElement options h.
Proof.
  destruct (0 <? IdMap.size h) eqn:S; [reflexivity |].
  apply Z.ltb_ge in S. pose proof (size_nonneg h).
  assert (h = []) as -> by (apply size_zero_empty; lia). reflexivity.
Qed.

(** ** What all driver code guarantees *)

Section Preservation.

Context {R : World -> World -> Prop} {R_preorder : PreOrder R}.

Let R_refl : forall w, R w w := fun w => reflexivity w.

Lemma preserves_ret {A} (a : A) : preserves R (ret a).
Proof. intros w. apply R_refl. Qed.

Lemma preserves_throw {A} e : preserves R (@throw A e).
Proof. intros w. apply R_refl. Qed.

Lemma preserves_gets {A} (f : World -> A) : preserves R (gets f).
Proof. intros w. apply R_refl. Qed.

Lemma preserves_modify f : (forall w, R w (f w)) -> preserves R (modify f).
Proof. intros H w. apply H. Qed.

Lemma preserves_bind {A B} (m : M A) (k : A -> M B) :
  preserves R m -> (forall a, preserves R (k a)) -> preserves R (bind m k).
Proof.
  intros Hm Hk w. specialize (Hm w). unfold exec, bind in *.
  destruct (m w) as [[a | e] w1]; cbn in *; [| exact Hm].
  etransitivity; [exact Hm | apply Hk].
Qed.

Lemma preserves_when c body : preserves R body -> preserves R (when c body).
Proof. destruct c; [auto | intros _; apply preserves_ret]. Qed.

Lemma preserves_forEach {A} (xs : list A) f :
  (forall x, preserves R (f x)) -> preserves R (forEach xs f).
Proof.
  intros H. induction xs; cbn; [apply preserves_ret |].
  apply preserves_bind; auto.
Qed.

Lemma preserves_queryPublished {A} (f : Heap -> A) : preserves R (queryPublished f).
Proof. intros w. unfold exec, queryPublished. destruct (_published w); apply R_refl. Qed.

Lemma preserves_queryBuffer {A} (f : Heap -> A) : preserves R (queryBuffer f).
Proof. intros w. unfold exec, queryBuffer. destruct (_unpublishedBuffer w); apply R_refl. Qed.

Lemma preserves_queryNeedToFetch {A} (f : _ -> A) : preserves R (queryNeedToFetch f).
Proof. intros w. unfold exec, queryNeedToFetch. destruct (_needToFetch w); apply R_refl. Qed.

Lemma preserves_mutatePublished f :
  (forall w p, _published w = Some p -> R w (set_published (Some (f p)) w)) ->
  preserves R (mutatePublished f).
Proof.
  intros H w. unfold exec, mutatePublished.
  destruct (_published w) eqn:E; [now apply H | apply R_refl].
Qed.

Lemma preserves_mutateBuffer f :
  (forall w b, _unpublishedBuffer w = Some b ->
               R w (set_unpublishedBuffer (Some (f b)) w)) ->
  preserves R (mutateBuffer f).
Proof.
  intros H w. unfold exec, mutateBuffer.
  destruct (_unpublishedBuffer w) eqn:E; [now apply H | apply R_refl].
Qed.

Lemma preserves_mutateNeedToFetch f :
  (forall w m, _needToFetch w = Some m -> R w (set_needToFetch (Some (f m)) w)) ->
  preserves R (mutateNeedToFetch f).
Proof.
  intros H w. unfold exec, mutateNeedToFetch.
  destruct (_needToFetch w) eqn:E; [now apply H | apply R_refl].
Qed.

End Preservation.

(** Split a goal about a piece of driver code along its structure; what is
    left is about single assignments and calls. *)
Ltac along_code known :=
  lazymatch goal with
  | |- preserves _ (bind _ _) =>
      apply preserves_bind; [along_code known | intros; along_code known]
  | |- preserves _ (ret _) => apply preserves_ret
  | |- preserves _ (throw _) => apply preserves_throw
  | |- preserves _ (gets _) => apply preserves_gets
  | |- preserves _ (queryPublished _) => apply preserves_queryPublished
  | |- preserves _ (queryBuffer _) => apply preserves_queryBuffer
  | |- preserves _ (queryNeedToFetch _) => apply preserves_queryNeedToFetch
  | |- preserves _ (when _ _) => apply preserves_when; along_code known
  | |- preserves _ (forEach _ _) =>
      apply preserves_forEach; intros; along_code known
  | |- preserves _ (if ?c then _ else _) => destruct c; along_code known
  | |- preserves _ (match ?x with _ => _ end) => destruct x; along_code known
  | |- preserves _ (modify _) => apply preserves_modify; intros; known
  | |- preserves _ (mutatePublished _) =>
      apply preserves_mutatePublished; intros; known
  | |- preserves _ (mutateBuffer _) =>
      apply preserves_mutateBuffer; intros; known
  | |- preserves _ (mutateNeedToFetch _) =>
      apply preserves_mutateNeedToFetch; intros; known
  | |- _ => known
  end.

#[export] Instance progress_preorder options : PreOrder (progress options).
Proof.
  split.
  - intros w. split; auto; try lia.
    exists []. now rewrite app_nil_r.
  - intros a b c [G1 S1 P1 B1 N1 E1 C1 R1 W1 (l1 & M1 & F1)]
      [G2 S2 P2 B2 N2 E2 C2 R2 W2 (l2 & M2 & F2)].
    split; auto; try lia; try congruence.
    + now rewrite W1.
    + exists (l1 ++ l2). rewrite M2, M1, app_assoc. split; [reflexivity |].
      apply Forall_app. auto.
Qed.

(** An assignment that leaves the generation, the writes and the calls
    alone, and sets no cache to [null]. *)
Lemma progress_untouched options (w w' : World) :
  _fetchGeneration w' = _fetchGeneration w ->
  _stopped w' = _stopped w ->
  (_published w' <> None \/ _published w' = _published w) ->
  (_unpublishedBuffer w' <> None \/ _unpublishedBuffer w' = _unpublishedBuffer w) ->
  begun w' = begun w ->
  scheduled w' = scheduled w ->
  _writesToCommitWhenWeReachSteady w' = _writesToCommitWhenWeReachSteady w ->
  onFlush w' = onFlush w ->
  committed w' = committed w ->
  multiplexer w' = multiplexer w ->
  fetching w' = fetching w ->
  progress options w w'.
Proof.
  intros G St P B E S W F C Mx Fe. split; try lia; try congruence.
  - destruct P; congruence.
  - destruct B; congruence.
  - unfold rounds_below_generation. now rewrite G, Fe.
  - unfold heldWrites, pendingWrites. now rewrite S, W, F, C.
  - exists []. now rewrite app_nil_r.
Qed.

Ltac untouched :=
  apply progress_untouched; cbn;
  first [reflexivity | left; discriminate | right; reflexivity].

(** The fields of [progress] that hold at once. *)
Ltac plain_fields :=
  cbn; auto; try lia; try discriminate;
  try (unfold rounds_below_generation; cbn;
       let R := fresh in let b := fresh in let I := fresh in
       intros R b I; specialize (R b I); lia);
  try (exists []; now rewrite app_nil_r).

Lemma emit_progress options c :
  fromStrippedDoc options c -> preserves (progress options) (emit c).
Proof.
  intros H w. cbn. split; try solve [plain_fields].
  exists [c]. auto.
Qed.

Lemma defer_progress options t :
  writesOfTask t = [] -> preserves (progress options) (defer t).
Proof.
  intros H w. cbn. split; try solve [plain_fields].
  unfold heldWrites, pendingWrites. cbn.
  now rewrite flat_map_app; cbn; rewrite H, !app_nil_r.
Qed.

Lemma next_generation_progress options w :
  progress options w (set_fetchGeneration (_fetchGeneration w + 1) w).
Proof. split; plain_fields. Qed.

Create HintDb progress.

(** Settle what [along_code] leaves: a call of code already dealt with, a
    call on the multiplexer, a deferred task, or a plain assignment. *)
Ltac settle :=
  first
    [ solve [eauto with progress]
    | apply emit_progress; cbn; solve [eauto]
    | apply defer_progress; reflexivity
    | apply next_generation_progress
    | untouched ].

Ltac by_progress := along_code settle.

Lemma registerPhaseChange_progress options phase :
  preserves (progress options) (_registerPhaseChange phase).
Proof. unfold _registerPhaseChange. by_progress. Qed.
#[export] Hint Resolve registerPhaseChange_progress : progress.

Lemma pollQuery_progress options : preserves (progress options) _pollQuery.
Proof. unfold _pollQuery. by_progress. Qed.
#[export] Hint Resolve pollQuery_progress : progress.

Lemma needToPollQuery_progress options :
  preserves (progress options) _needToPollQuery.
Proof. unfold _needToPollQuery. by_progress. Qed.
#[export] Hint Resolve needToPollQuery_progress : progress.

Lemma addBuffered_progress options id doc :
  preserves (progress options) (_addBuffered options id doc).
Proof. unfold _addBuffered. by_progress. Qed.
#[export] Hint Resolve addBuffered_progress : progress.

Lemma removeBuffered_progress options id :
  preserves (progress options) (_removeBuffered id).
Proof. unfold _removeBuffered. by_progress. Qed.
#[export] Hint Resolve removeBuffered_progress : progress.

Lemma addPublished_progress options id doc :
  preserves (progress options) (_addPublished options id doc).
Proof. unfold _addPublished. by_progress. Qed.
#[export] Hint Resolve addPublished_progress : progress.

Lemma removePublished_progress options id :
  preserves (progress options) (_removePublished options id).
Proof. unfold _removePublished. by_progress. Qed.
#[export] Hint Resolve removePublished_progress : progress.

Lemma changePublished_progress options id oldDoc newDoc :
  preserves (progress options) (_changePublished options id oldDoc newDoc).
Proof. unfold _changePublished. by_progress. Qed.
#[export] Hint Resolve changePublished_progress : progress.

Lemma limit_and_buffered_progress options id :
  preserves (progress options) (limit_and_buffered options id).
Proof. unfold limit_and_buffered. by_progress. Qed.
#[export] Hint Resolve limit_and_buffered_progress : progress.

Lemma addMatching_progress options doc :
  preserves (progress options) (_addMatching options doc).
Proof. unfold _addMatching. by_progress. Qed.
#[export] Hint Resolve addMatching_progress : progress.

Lemma removeMatching_progress options id :
  preserves (progress options) (_removeMatching options id).
Proof. unfold _removeMatching. by_progress. Qed.
#[export] Hint Resolve removeMatching_progress : progress.

Lemma handleDoc_stillMatching_progress options id newDoc pb bb :
  preserves (progress options) (_handleDoc_stillMatching options id newDoc pb bb).
Proof. unfold _handleDoc_stillMatching. by_progress. Qed.
#[export] Hint Resolve handleDoc_stillMatching_progress : progress.

Lemma handleDoc_progress options id newDoc :
  preserves (progress options) (_handleDoc options id newDoc).
Proof. unfold _handleDoc. by_progress. Qed.
#[export] Hint Resolve handleDoc_progress : progress.

Lemma beSteady_progress options : preserves (progress options) _beSteady.
Proof.
  intros w. cbn. split; try solve [plain_fields].
  unfold heldWrites, pendingWrites. cbn.
  destruct (_writesToCommitWhenWeReachSteady w) as [ws |]; cbn.
  - rewrite concat_app. cbn. rewrite app_nil_r, <- !app_assoc.
    apply Permutation_app_head.
    rewrite !app_assoc. apply Permutation_app_tail, Permutation_app_comm.
  - rewrite concat_app. cbn. now rewrite app_nil_r.
Qed.
#[export] Hint Resolve beSteady_progress : progress.

Lemma fetchModifiedDocuments_progress options :
  preserves (progress options) _fetchModifiedDocuments.
Proof. unfold _fetchModifiedDocuments. by_progress. Qed.
#[export] Hint Resolve fetchModifiedDocuments_progress : progress.

Lemma run_queryNeedToFetch {A} (f : IdMap.t string -> A) w m :
  _needToFetch w = Some m -> queryNeedToFetch f w = (Returned (f m), w).
Proof. unfold queryNeedToFetch. now intros ->. Qed.

Lemma bind_queryNeedToFetch {A B} (f : IdMap.t string -> A) (k : A -> M B) w m :
  _needToFetch w = Some m -> bind (queryNeedToFetch f) k w = k (f m) w.
Proof. intros H. apply run_bind, run_queryNeedToFetch, H. Qed.

Lemma fetchLoop_cases (w : World) :
  (fetchLoop w = _beSteady w /\
   (_stopped w = true \/ _needToFetch w = Some [])) \/
  (fetchLoop w = (Thrown TypeError, w) /\ _stopped w = false /\ _needToFetch w = None) \/
  (fetchLoop w = (Thrown (Err_phaseInFetch (_phase w)), w) /\ _phase w <> FETCHING) \/
  (exists nf, fetchLoop w = (Returned tt, roundStarted nf w) /\
              _stopped w = false /\ _needToFetch w = Some nf /\ nf <> [] /\
              _phase w = FETCHING).
Proof.
  unfold fetchLoop. rewrite bind_gets.
  destruct (_stopped w) eqn:St.
  { rewrite bind_ret. left. auto. }
  destruct (_needToFetch w) as [nf |] eqn:Nf.
  - rewrite bind_assoc. erewrite bind_queryNeedToFetch by eassumption.
    rewrite bind_ret.
    destruct nf as [| e r]; cbn [IdMap.empty negb]; [left; auto |].
    rewrite bind_gets. destruct (_phase w) eqn:Ph; cbn [Phase_eqb negb].
    + right. right. left. split; [reflexivity | discriminate].
    + right. right. right. exists (e :: r).
      erewrite bind_queryNeedToFetch by eassumption.
      repeat split; try assumption; discriminate.
    + right. right. left. split; [reflexivity | discriminate].
  - right. left. rewrite bind_assoc. unfold queryNeedToFetch at 1.
    unfold bind at 1. rewrite Nf. auto.
Qed.

Lemma fetchLoop_progress options : preserves (progress options) fetchLoop.
Proof.
  intros w. unfold exec.
  destruct (fetchLoop_cases w) as [[E _] | [[E _] | [[E _] | (nf & E & _)]]];
    rewrite E; try reflexivity.
  - apply beSteady_progress.
  - cbn [snd]. unfold roundStarted. split; try solve [plain_fields].
    unfold rounds_below_generation. cbn. intros R b I.
    apply in_app_or in I as [I | [<- | []]]; [specialize (R b I); lia | cbn; lia].
Qed.
#[export] Hint Resolve fetchLoop_progress : progress.

(** Bookkeeping on the rounds in flight that starts no round. *)
Lemma rounds_kept_progress options (f : list FetchBatch -> list FetchBatch) w :
  (forall bs b, In b (f bs) ->
                exists b0, In b0 bs /\ thisGeneration b0 = thisGeneration b) ->
  progress options w (set_fetching (f (fetching w)) w).
Proof.
  intros H. split; try solve [plain_fields].
  unfold rounds_below_generation. cbn. intros R b I.
  destruct (H _ _ I) as (b0 & I0 & <-). auto.
Qed.

Lemma note_error_rounds g e bs b :
  In b (note_error g e bs) ->
  exists b0, In b0 bs /\ thisGeneration b0 = thisGeneration b.
Proof.
  unfold note_error. intros I. apply in_map_iff in I as (b0 & <- & I0).
  exists b0. split; [exact I0 |]. now destruct (batch_is g b0).
Qed.

Lemma note_delivery_rounds g id bs b :
  In b (note_delivery g id bs) ->
  exists b0, In b0 bs /\ thisGeneration b0 = thisGeneration b.
Proof.
  unfold note_delivery. intros I. apply in_map_iff in I as (b0 & <- & I0).
  exists b0. split; [exact I0 |]. now destruct (batch_is g b0).
Qed.

Lemma filter_rounds (keep : FetchBatch -> bool) bs b :
  In b (filter keep bs) ->
  exists b0, In b0 bs /\ thisGeneration b0 = thisGeneration b.
Proof. intros I. apply filter_In in I as [I _]. eauto. Qed.

Ltac settle_rounds :=
  first
    [ settle
    | apply rounds_kept_progress;
      first [apply note_error_rounds | apply note_delivery_rounds | apply filter_rounds] ].

Lemma oneLessWaiting_progress options g id :
  preserves (progress options) (oneLessWaiting g id).
Proof. unfold oneLessWaiting. along_code settle_rounds. Qed.
#[export] Hint Resolve oneLessWaiting_progress : progress.

Lemma fetchCallback_progress options g id err doc :
  preserves (progress options) (fetchCallback options g id err doc).
Proof. unfold fetchCallback. along_code settle_rounds. Qed.
#[export] Hint Resolve fetchCallback_progress : progress.

Lemma fetchLoop_afterWait_progress options g :
  preserves (progress options) (fetchLoop_afterWait g).
Proof. unfold fetchLoop_afterWait. along_code settle_rounds. Qed.
#[export] Hint Resolve fetchLoop_afterWait_progress : progress.

Lemma handleOplogEntryQuerying_progress options o :
  preserves (progress options) (_handleOplogEntryQuerying options o).
Proof. unfold _handleOplogEntryQuerying. by_progress. Qed.
#[export] Hint Resolve handleOplogEntryQuerying_progress : progress.

Lemma handleOplogEntrySteadyOrFetching_progress options o :
  preserves (progress options) (_handleOplogEntrySteadyOrFetching options o).
Proof. unfold _handleOplogEntrySteadyOrFetching. by_progress. Qed.
#[export] Hint Resolve handleOplogEntrySteadyOrFetching_progress : progress.

Lemma doneQuerying_progress options : preserves (progress options) _doneQuerying.
Proof. unfold _doneQuerying. by_progress. Qed.
#[export] Hint Resolve doneQuerying_progress : progress.

Lemma doneQuerying_caughtUp_progress options :
  preserves (progress options) _doneQuerying_caughtUp.
Proof. unfold _doneQuerying_caughtUp. by_progress. Qed.
#[export] Hint Resolve doneQuerying_caughtUp_progress : progress.

Lemma runInitialQuery_progress options mongo :
  preserves (progress options) (_runInitialQuery options mongo).
Proof. unfold _runInitialQuery. by_progress. Qed.
#[export] Hint Resolve runInitialQuery_progress : progress.

Lemma publishNewResults_progress options newResults newBuffer :
  preserves (progress options) (_publishNewResults options newResults newBuffer).
Proof. unfold _publishNewResults. by_progress. Qed.
#[export] Hint Resolve publishNewResults_progress : progress.

Lemma pollQuery_deferred_progress options mongo :
  preserves (progress options) (pollQuery_deferred options mongo).
Proof. unfold pollQuery_deferred. by_progress. Qed.
#[export] Hint Resolve pollQuery_deferred_progress : progress.

Lemma onOplogEntry_progress options n :
  preserves (progress options) (onOplogEntry options n).
Proof. unfold onOplogEntry. by_progress. Qed.
#[export] Hint Resolve onOplogEntry_progress : progress.

(** ** Steps of the driver *)

(** Two lists of writes built by appending hold the same writes when every
    write is counted as often on both sides. *)
Ltac same_writes :=
  unfold heldWrites, pendingWrites;
  cbn [snd modify scheduled _writesToCommitWhenWeReachSteady onFlush committed
       set_published set_unpublishedBuffer set_safeAppendToBuffer set_stopped
       set_phase set_needToFetch set_currentlyFetching set_fetchGeneration
       set_requeryWhenDoneThisQuery set_writesToCommitWhenWeReachSteady
       set_multiplexer set_onFlush set_begun set_committed set_scheduled
       set_fetching];
  rewrite ?concat_app, ?flat_map_app;
  cbn [List.concat flat_map writesOfTask];
  rewrite ?app_nil_r; cbn [app];
  apply (Permutation_count_occ Nat.eq_dec); intro;
  repeat match goal with
         | |- context [count_occ _ (?a :: ?l) _] =>
             lazymatch l with
             | [] => fail
             | _ => change (a :: l) with ([a] ++ l)
             end
         end;
  rewrite ?count_occ_app; cbv delta [WriteToken]; lia.

Lemma no_new_calls options (w w' : World) :
  multiplexer w' = multiplexer w ->
  exists calls, multiplexer w' = multiplexer w ++ calls /\
                Forall (fromStrippedDoc options) calls.
Proof. intros ->. exists []. now rewrite app_nil_r. Qed.

Lemma no_new_writes (w w' : World) :
  begun w' = begun w -> Permutation (heldWrites w') (heldWrites w) ->
  exists new, begun w' = begun w ++ new /\
              Permutation (heldWrites w') (heldWrites w ++ new).
Proof. intros -> H. exists []. now rewrite !app_nil_r. Qed.

Ltac nothing_begun :=
  exists []; rewrite !app_nil_r; split; [reflexivity |].

Lemma progress_advance options w w' : progress options w w' -> advance options w w'.
Proof.
  intros [G S P B N E Co Ro W C]. split; auto.
  - apply no_new_writes; [exact E | now symmetry].
  - intros H S'. rewrite S in S'. auto.
Qed.

(** [stop] commits the pending writes one after the other. *)
Lemma commit_each (ws : list WriteToken) (s : World) :
  forEach ws (fun w => modify (fun s => set_committed (committed s ++ [w]) s)) s
  = (Returned tt, set_committed (committed s ++ ws) s).
Proof.
  revert s. induction ws as [| a r IH]; intros s.
  - destruct s. cbn. now rewrite app_nil_r.
  - cbn [forEach]. rewrite bind_modify, IH. destruct s. cbn.
    now rewrite <- app_assoc.
Qed.

Lemma heldWrites_without_task (t : Task) before after w :
  scheduled w = before ++ t :: after ->
  Permutation (heldWrites w)
    (writesOfTask t ++ heldWrites (set_scheduled (before ++ after) w)).
Proof.
  intros E. unfold heldWrites. rewrite E. cbn [scheduled set_scheduled].
  change (t :: after) with ([t] ++ after). same_writes.
Qed.

Lemma rounds_untouched (w w' : World) :
  fetching w' = fetching w -> _fetchGeneration w' = _fetchGeneration w ->
  rounds_below_generation w -> rounds_below_generation w'.
Proof. unfold rounds_below_generation. now intros -> ->. Qed.

Lemma stop_advance options w : advance options w (exec stop w).
Proof.
  unfold exec, stop. run.
  destruct (_stopped w) eqn:St.
  { apply progress_advance. reflexivity. }
  run. rewrite (run_bind _ _ _ _ _ (commit_each _ _)). run. cbn [snd].
  split; [cbn; lia | | now apply no_new_calls | cbn; discriminate
         | now apply rounds_untouched].
  nothing_begun.
  destruct (_writesToCommitWhenWeReachSteady w) as [ws |] eqn:Ew;
    unfold heldWrites, pendingWrites; cbn; rewrite ?Ew.
  all: same_writes.
Qed.

Lemma onListen_advance options fence w : advance options w (exec (onListen fence) w).
Proof.
  destruct fence as [write |]; [| apply progress_advance; reflexivity].
  cbn. split; [cbn; lia | | now apply no_new_calls | cbn; auto
              | now apply rounds_untouched].
  exists [write]. split; [reflexivity | same_writes].
Qed.

Lemma flushed_advance options writes rest w :
  onFlush w = writes :: rest -> advance options w (flushed writes rest w).
Proof.
  intros E. split; [cbn; lia | | now apply no_new_calls | cbn; auto
                   | now apply rounds_untouched].
  nothing_begun. unfold flushed, heldWrites. cbn. rewrite E. same_writes.
Qed.

(** The deferred fence body, run from a world where its task has just been
    taken from the scheduler: the write goes to exactly one place. *)
Lemma fenceWrite_advance options write before after w :
  scheduled w = before ++ Task_fenceWrite write :: after ->
  (_stopped w = false -> _writesToCommitWhenWeReachSteady w <> None) ->
  advance options w (exec (fenceWrite write) (set_scheduled (before ++ after) w)).
Proof.
  intros E Alive.
  pose proof (heldWrites_without_task _ _ _ _ E) as H. cbn [writesOfTask] in H.
  unfold exec, fenceWrite. run. cbn [_stopped set_scheduled].
  destruct (_stopped w) eqn:St; run.
  - split; cbn [snd]; [cbn; lia | | now apply no_new_calls | cbn; congruence
                      | now apply rounds_untouched].
    nothing_begun. rewrite H. same_writes.
  - cbn [_phase set_scheduled]. destruct (Phase_eqb (_phase w) STEADY); run.
    + split; cbn [snd]; [cbn; lia | | now apply no_new_calls | cbn; auto
                        | now apply rounds_untouched].
      nothing_begun. rewrite H. same_writes.
    + cbn [_writesToCommitWhenWeReachSteady set_scheduled].
      destruct (_writesToCommitWhenWeReachSteady w) as [ws |] eqn:Ew;
        [| exfalso; now apply Alive].
      split; cbn [snd]; [cbn; lia | | now apply no_new_calls | cbn; discriminate
                        | now apply rounds_untouched].
      nothing_begun. rewrite H.
      unfold heldWrites, pendingWrites. cbn. rewrite Ew. same_writes.
Qed.

(** A task that carries no write, run from a world where it has just been
    taken from the scheduler. *)
Lemma task_advance options (t : Task) before after w w' :
  writesOfTask t = [] ->
  scheduled w = before ++ t :: after ->
  progress options (set_scheduled (before ++ after) w) w' ->
  advance options w w'.
Proof.
  intros T E [G S P B N Eb Co Ro W C]. cbn in *.
  pose proof (heldWrites_without_task _ _ _ _ E) as H. rewrite T in H. cbn in H.
  split; auto.
  - apply no_new_writes; [exact Eb |]. now rewrite H, W.
  - intros A S'. rewrite S in S'. auto.
Qed.


Lemma step_advance options w w' :
  step options w w' -> pending_list_alive w -> advance options w w'.
Proof.
  intros [n w0 | fence w0 | mongo t before after w0 E | b id err doc w0 _ _
          | w0 | writes rest w0 E] Alive.
  - apply progress_advance, onOplogEntry_progress.
  - apply onListen_advance.
  - destruct t; cbn [runTask];
      try (match type of E with
           | _ = _ ++ ?t :: _ =>
               refine (task_advance options t before after w0 _ eq_refl E _)
           end).
    + apply runInitialQuery_progress.
    + apply pollQuery_deferred_progress.
    + apply fetchLoop_progress.
    + now apply fenceWrite_advance.
    + apply doneQuerying_caughtUp_progress.
    + apply fetchLoop_afterWait_progress.
  - apply progress_advance, fetchCallback_progress.
  - apply stop_advance.
  - now apply flushed_advance.
Qed.

(** What holds of every world the driver can be in. *)
Lemma reachable_accounts options w :
  reachable options w ->
  pending_list_alive w /\
  rounds_below_generation w /\
  Permutation (begun w) (heldWrites w) /\
  Forall (fromStrippedDoc options) (multiplexer w).
Proof.
  induction 1 as [w C | w w' _ (Alive & Rounds & Held & Calls) St].
  - unfold OplogObserveDriver in C. destruct (ordered options); [discriminate |].
    injection C as <-. cbn.
    repeat split; [discriminate | intros b [] | reflexivity | constructor].
  - destruct (step_advance _ _ _ St Alive)
      as [_ (new & Eb & W) (calls & Em & F) A Ro].
    repeat split.
    + exact (A Alive).
    + exact (Ro Rounds).
    + rewrite Eb, W. now apply Permutation_app_tail.
    + rewrite Em. apply Forall_app. auto.
Qed.

Lemma reachable_steps options w w' :
  reachable options w -> steps options w w' -> reachable options w'.
Proof.
  intros R S. apply clos_rt_rt1n in S. induction S as [| a b c St _ IH]; [exact R |].
  apply IH. now apply reachable_step with a.
Qed.

(** The generation never goes back along the steps of a driver. *)
Lemma steps_generation options w w' :
  pending_list_alive w -> steps options w w' ->
  _fetchGeneration w <= _fetchGeneration w'.
Proof.
  intros Alive S. apply clos_rt_rt1n in S.
  induction S as [| a b c St _ IH]; [lia |].
  pose proof (step_advance _ _ _ St Alive) as [G _ _ A _].
  specialize (IH (A Alive)). lia.
Qed.

(** ** Code that leaves the writes alone *)

#[export] Instance quiet_preorder : PreOrder quiet.
Proof.
  split.
  - intros w. now split.
  - intros a b c [P1 F1 C1] [P2 F2 C2]. split; congruence.
Qed.

Create HintDb quiet.

Ltac settle_quiet :=
  first [ solve [eauto with quiet] | split; reflexivity ].

Ltac by_quiet := along_code settle_quiet.

Lemma emit_quiet c : preserves quiet (emit c).
Proof. unfold emit. by_quiet. Qed.

Lemma defer_quiet t : preserves quiet (defer t).
Proof. unfold defer. by_quiet. Qed.

Lemma registerPhaseChange_quiet phase : preserves quiet (_registerPhaseChange phase).
Proof. unfold _registerPhaseChange. by_quiet. Qed.
#[export] Hint Resolve emit_quiet defer_quiet registerPhaseChange_quiet : quiet.

Lemma pollQuery_quiet : preserves quiet _pollQuery.
Proof. unfold _pollQuery. by_quiet. Qed.
#[export] Hint Resolve pollQuery_quiet : quiet.

Lemma needToPollQuery_quiet : preserves quiet _needToPollQuery.
Proof. unfold _needToPollQuery. by_quiet. Qed.
#[export] Hint Resolve needToPollQuery_quiet : quiet.

Lemma addBuffered_quiet options id doc : preserves quiet (_addBuffered options id doc).
Proof. unfold _addBuffered. by_quiet. Qed.
#[export] Hint Resolve addBuffered_quiet : quiet.

Lemma removeBuffered_quiet id : preserves quiet (_removeBuffered id).
Proof. unfold _removeBuffered. by_quiet. Qed.
#[export] Hint Resolve removeBuffered_quiet : quiet.

Lemma addPublished_quiet options id doc : preserves quiet (_addPublished options id doc).
Proof. unfold _addPublished. by_quiet. Qed.
#[export] Hint Resolve addPublished_quiet : quiet.

Lemma removePublished_quiet options id : preserves quiet (_removePublished options id).
Proof. unfold _removePublished. by_quiet. Qed.
#[export] Hint Resolve removePublished_quiet : quiet.

Lemma changePublished_quiet options id oldDoc newDoc :
  preserves quiet (_changePublished options id oldDoc newDoc).
Proof. unfold _changePublished. by_quiet. Qed.
#[export] Hint Resolve changePublished_quiet : quiet.

Lemma limit_and_buffered_quiet options id :
  preserves quiet (limit_and_buffered options id).
Proof. unfold limit_and_buffered. by_quiet. Qed.
#[export] Hint Resolve limit_and_buffered_quiet : quiet.

Lemma addMatching_quiet options doc : preserves quiet (_addMatching options doc).
Proof. unfold _addMatching. by_quiet. Qed.
#[export] Hint Resolve addMatching_quiet : quiet.

Lemma removeMatching_quiet options id : preserves quiet (_removeMatching options id).
Proof. unfold _removeMatching. by_quiet. Qed.
#[export] Hint Resolve removeMatching_quiet : quiet.

Lemma handleDoc_stillMatching_quiet options id newDoc pb bb :
  preserves quiet (_handleDoc_stillMatching options id newDoc pb bb).
Proof. unfold _handleDoc_stillMatching. by_quiet. Qed.
#[export] Hint Resolve handleDoc_stillMatching_quiet : quiet.

Lemma handleDoc_quiet options id newDoc : preserves quiet (_handleDoc options id newDoc).
Proof. unfold _handleDoc. by_quiet. Qed.
#[export] Hint Resolve handleDoc_quiet : quiet.

Lemma fetchModifiedDocuments_quiet : preserves quiet _fetchModifiedDocuments.
Proof. unfold _fetchModifiedDocuments. by_quiet. Qed.
#[export] Hint Resolve fetchModifiedDocuments_quiet : quiet.

Lemma oneLessWaiting_quiet g id : preserves quiet (oneLessWaiting g id).
Proof. unfold oneLessWaiting. by_quiet. Qed.
#[export] Hint Resolve oneLessWaiting_quiet : quiet.

Lemma fetchCallback_quiet options g id err doc :
  preserves quiet (fetchCallback options g id err doc).
Proof. unfold fetchCallback. by_quiet. Qed.
#[export] Hint Resolve fetchCallback_quiet : quiet.

Lemma handleOplogEntryQuerying_quiet options o :
  preserves quiet (_handleOplogEntryQuerying options o).
Proof. unfold _handleOplogEntryQuerying. by_quiet. Qed.
#[export] Hint Resolve handleOplogEntryQuerying_quiet : quiet.

Lemma handleOplogEntrySteadyOrFetching_quiet options o :
  preserves quiet (_handleOplogEntrySteadyOrFetching options o).
Proof. unfold _handleOplogEntrySteadyOrFetching. by_quiet. Qed.
#[export] Hint Resolve handleOplogEntrySteadyOrFetching_quiet : quiet.

Lemma doneQuerying_quiet : preserves quiet _doneQuerying.
Proof. unfold _doneQuerying. by_quiet. Qed.
#[export] Hint Resolve doneQuerying_quiet : quiet.

Lemma runInitialQuery_quiet options mongo :
  preserves quiet (_runInitialQuery options mongo).
Proof. unfold _runInitialQuery. by_quiet. Qed.
#[export] Hint Resolve runInitialQuery_quiet : quiet.

Lemma publishNewResults_quiet options newResults newBuffer :
  preserves quiet (_publishNewResults options newResults newBuffer).
Proof. unfold _publishNewResults. by_quiet. Qed.
#[export] Hint Resolve publishNewResults_quiet : quiet.

Lemma pollQuery_deferred_quiet options mongo :
  preserves quiet (pollQuery_deferred options mongo).
Proof. unfold pollQuery_deferred. by_quiet. Qed.
#[export] Hint Resolve pollQuery_deferred_quiet : quiet.

Lemma onOplogEntry_quiet options n : preserves quiet (onOplogEntry options n).
Proof. unfold onOplogEntry. by_quiet. Qed.
#[export] Hint Resolve onOplogEntry_quiet : quiet.

Lemma onListen_quiet fence : preserves quiet (onListen fence).
Proof. unfold onListen. by_quiet. Qed.
#[export] Hint Resolve onListen_quiet : quiet.

(** ** How the writes move *)

Lemma beSteady_run w : _beSteady w = (Returned tt, steadied w).
Proof. reflexivity. Qed.

Lemma steadied_after_quiet w w0 : quiet w w0 -> quiet_or_steadied w (steadied w0).
Proof.
  intros [P F C]. right. unfold steadied, pendingWrites. cbn.
  rewrite P, F. auto.
Qed.

Lemma quiet_then w w0 w' :
  quiet w w0 -> quiet_or_steadied w0 w' -> quiet_or_steadied w w'.
Proof.
  intros Q [Q' | (Ph & P & F & C)].
  - left. now transitivity w0.
  - right. destruct Q as [P0 F0 C0]. unfold pendingWrites in *.
    rewrite F, C, P0, F0, C0. auto.
Qed.

Lemma fetchLoop_moves w : quiet_or_steadied w (exec fetchLoop w).
Proof.
  unfold exec.
  destruct (fetchLoop_cases w) as [[E _] | [[E _] | [[E _] | (nf & E & _)]]];
    rewrite E; cbn [snd]; try (left; reflexivity).
  - apply steadied_after_quiet. reflexivity.
  - left. now split.
Qed.

Lemma fetchLoop_afterWait_moves g w :
  quiet_or_steadied w (exec (fetchLoop_afterWait g) w).
Proof.
  unfold exec, fetchLoop_afterWait. run.
  destruct (flat_map _ (fetching w)) as [| e _]; [| left; now split].
  run. cbn [_phase set_fetching].
  destruct (Phase_eqb (_phase w) QUERYING); [left; now split |].
  run. eapply quiet_then; [| apply fetchLoop_moves]. now split.
Qed.

Lemma doneQuerying_caughtUp_moves w :
  quiet_or_steadied w (exec _doneQuerying_caughtUp w).
Proof.
  unfold exec, _doneQuerying_caughtUp. run.
  destruct (_stopped w); [left; reflexivity |]. run.
  destruct (negb (Phase_eqb (_phase w) QUERYING)); [left; reflexivity |]. run.
  destruct (_requeryWhenDoneThisQuery w); run.
  - left. transitivity (set_requeryWhenDoneThisQuery false w); [now split |].
    apply pollQuery_quiet.
  - unfold queryNeedToFetch, bind.
    destruct (_needToFetch w) as [nf |]; [| left; reflexivity].
    destruct (IdMap.empty nf).
    + apply steadied_after_quiet. reflexivity.
    + left. apply fetchModifiedDocuments_quiet.
Qed.

Lemma quiet_or_steadied_moves w w' : quiet_or_steadied w w' -> writes_move w w'.
Proof.
  intros [Q | (Ph & P & F & C)]; [now apply move_none | now apply move_steady].
Qed.

Lemma fenceWrite_moves write tasks w :
  pending_list_alive w ->
  writes_move w (exec (fenceWrite write) (set_scheduled tasks w)).
Proof.
  intros Alive. unfold exec, fenceWrite. run. cbn [_stopped _phase set_scheduled].
  destruct (_stopped w) eqn:St; run.
  - now apply move_fence_stopped with write.
  - cbn [_phase set_scheduled].
    destruct (Phase_eqb (_phase w) STEADY) eqn:Ph; run.
    + apply move_fence_steady with write; auto. now destruct (_phase w).
    + cbn [_writesToCommitWhenWeReachSteady set_scheduled].
      destruct (_writesToCommitWhenWeReachSteady w) as [ws |] eqn:Ew;
        [| exfalso; now apply Alive].
      apply move_fence_pending with write; auto.
      * intros E. now rewrite E in Ph.
      * cbn. unfold pendingWrites. now rewrite Ew.
Qed.

Lemma stop_moves w : writes_move w (exec stop w).
Proof.
  unfold exec, stop. run.
  destruct (_stopped w) eqn:St; [apply move_none; reflexivity |].
  run. rewrite (run_bind _ _ _ _ _ (commit_each _ _)). run. cbn [snd].
  now apply move_stop.
Qed.

Lemma step_writes_move options w w' :
  step options w w' -> pending_list_alive w -> writes_move w w'.
Proof.
  intros [n w0 | fence w0 | mongo t before after w0 E | b id err doc w0 _ _
          | w0 | writes rest w0 E] Alive.
  - apply move_none, onOplogEntry_quiet.
  - apply move_none, onListen_quiet.
  - assert (Q : quiet w0 (set_scheduled (before ++ after) w0)) by now split.
    destruct t; cbn [runTask].
    + apply move_none. etransitivity; [exact Q | apply runInitialQuery_quiet].
    + apply move_none. etransitivity; [exact Q | apply pollQuery_deferred_quiet].
    + apply quiet_or_steadied_moves. eapply quiet_then; [exact Q | apply fetchLoop_moves].
    + now apply fenceWrite_moves.
    + apply quiet_or_steadied_moves.
      eapply quiet_then; [exact Q | apply doneQuerying_caughtUp_moves].
    + apply quiet_or_steadied_moves.
      eapply quiet_then; [exact Q | apply fetchLoop_afterWait_moves].
  - apply move_none, fetchCallback_quiet.
  - apply stop_moves.
  - apply move_flush with writes; cbn; auto.
Qed.

(** ** Code that does not touch the published heap *)

#[export] Instance same_published_preorder : PreOrder same_published.
Proof.
  split; [intros w; reflexivity |].
  intros a b c H1 H2. unfold same_published in *. congruence.
Qed.

Create HintDb same_published.

Ltac settle_same_published :=
  first [ solve [eauto with same_published]
        | unfold same_published; cbn; reflexivity ].

Lemma emit_same_published c : preserves same_published (emit c).
Proof. unfold emit. along_code settle_same_published. Qed.

Lemma defer_same_published t : preserves same_published (defer t).
Proof. unfold defer. along_code settle_same_published. Qed.

Lemma registerPhaseChange_same_published phase :
  preserves same_published (_registerPhaseChange phase).
Proof. unfold _registerPhaseChange. along_code settle_same_published. Qed.
#[export] Hint Resolve emit_same_published defer_same_published
  registerPhaseChange_same_published : same_published.

Lemma pollQuery_same_published : preserves same_published _pollQuery.
Proof. unfold _pollQuery. along_code settle_same_published. Qed.
#[export] Hint Resolve pollQuery_same_published : same_published.

Lemma needToPollQuery_same_published : preserves same_published _needToPollQuery.
Proof. unfold _needToPollQuery. along_code settle_same_published. Qed.
#[export] Hint Resolve needToPollQuery_same_published : same_published.

Lemma addBuffered_same_published options id doc :
  preserves same_published (_addBuffered options id doc).
Proof. unfold _addBuffered. along_code settle_same_published. Qed.
#[export] Hint Resolve addBuffered_same_published : same_published.

Lemma removeBuffered_same_published id : preserves same_published (_removeBuffered id).
Proof. unfold _removeBuffered. along_code settle_same_published. Qed.
#[export] Hint Resolve removeBuffered_same_published : same_published.

(** ** Greatest and least elements *)

Lemma maxEntry_In cmp best (h : Heap) : In (HeapOps.maxEntry cmp best h) (best :: h).
Proof.
  revert best. induction h as [| e r IH]; intros best; cbn; [auto |].
  destruct (IH (if cmp (snd best) (Some (snd e)) <? 0 then e else best)) as [E | I].
  - destruct (cmp (snd best) (Some (snd e)) <? 0); rewrite <- E; auto.
  - auto.
Qed.

Lemma maxEntry_app cmp best (h : Heap) e :
  HeapOps.maxEntry cmp best (h ++ [e]) =
    let m := HeapOps.maxEntry cmp best h in
    if cmp (snd m) (Some (snd e)) <? 0 then e else m.
Proof.
  revert best. induction h as [| x r IH]; intros best; cbn; [reflexivity |].
  apply IH.
Qed.

Lemma minEntry_In cmp best (h : Heap) : In (HeapOps.minEntry cmp best h) (best :: h).
Proof.
  revert best. induction h as [| e r IH]; intros best; cbn; [auto |].
  destruct (IH (if cmp (snd e) (Some (snd best)) <? 0 then e else best)) as [E | I].
  - destruct (cmp (snd e) (Some (snd best)) <? 0); rewrite <- E; auto.
  - auto.
Qed.

(** The greatest element of a non-empty heap is one of its entries. *)
Lemma maxElementId_In cmp (h : Heap) :
  h <> [] -> exists d, In (HeapOps.maxElementId cmp h, d) h.
Proof.
  destruct h as [| e r]; [congruence | intros _].
  exists (snd (HeapOps.maxEntry cmp e r)). cbn [HeapOps.maxElementId].
  rewrite <- surjective_pairing. apply maxEntry_In.
Qed.

Lemma minElementId_In cmp (h : Heap) :
  h <> [] -> exists d, In (HeapOps.minElementId cmp h, d) h.
Proof.
  destruct h as [| e r]; [congruence | intros _].
  exists (snd (HeapOps.minEntry cmp e r)). cbn [HeapOps.minElementId].
  rewrite <- surjective_pairing. apply minEntry_In.
Qed.

Lemma In_has {V} id (v : V) (m : IdMap.t V) : In (id, v) m -> IdMap.has id m = true.
Proof. intros H. apply has_In. eauto. Qed.

(** Adding a document that sorts strictly before the greatest one, under an
    id that is new, leaves the greatest element where it was. *)
Lemma maxElementId_set_below cmp (h : Heap) id d :
  IdMapFacts.wf h -> h <> [] -> IdMap.has id h = false ->
  (forall m, IdMap.get (HeapOps.maxElementId cmp h) h = Some m ->
             0 <= cmp m (Some d)) ->
  HeapOps.maxElementId cmp (IdMap.set id d h) = HeapOps.maxElementId cmp h.
Proof.
  intros W N A G. rewrite (set_absent _ _ _ A).
  destruct h as [| e r]; [congruence |]. cbn [app HeapOps.maxElementId] in *.
  rewrite maxEntry_app. cbn zeta.
  pose proof (maxEntry_In cmp e r) as I.
  destruct (HeapOps.maxEntry cmp e r) as [k m] eqn:Em. cbn [fst snd] in *.
  specialize (G m (wf_get_In _ _ _ W I)).
  destruct (cmp m (Some d) <? 0) eqn:C; [apply Z.ltb_lt in C; lia | reflexivity].
Qed.

(** ** Which errors a piece of code can raise *)

Section Errors.

Variable E : Error -> Prop.

Lemma throws_only_ret {A} (a : A) : throws_only E (ret a).
Proof. intros w e. discriminate. Qed.

Lemma throws_only_gets {A} (f : World -> A) : throws_only E (gets f).
Proof. intros w e. discriminate. Qed.

Lemma throws_only_modify f : throws_only E (modify f).
Proof. intros w e. discriminate. Qed.

Lemma throws_only_throw {A} e : E e -> throws_only E (@throw A e).
Proof. intros H w e'. cbn. congruence. Qed.

Lemma throws_only_bind {A B} (m : M A) (k : A -> M B) :
  throws_only E m -> (forall a, throws_only E (k a)) -> throws_only E (bind m k).
Proof.
  intros Hm Hk w e. specialize (Hm w). unfold outcome, bind in *.
  destruct (m w) as [[a | e'] w1]; cbn in *; [apply Hk | intros [= <-]; auto].
Qed.

Lemma throws_only_when c body : throws_only E body -> throws_only E (when c body).
Proof. destruct c; [auto | intros _; apply throws_only_ret]. Qed.

Lemma throws_only_forEach {A} (xs : list A) f :
  (forall x, throws_only E (f x)) -> throws_only E (forEach xs f).
Proof.
  intros H. induction xs; cbn; [apply throws_only_ret |].
  apply throws_only_bind; auto.
Qed.

Hypothesis E_TypeError : E TypeError.

Lemma throws_only_queryPublished {A} (f : Heap -> A) : throws_only E (queryPublished f).
Proof.
  intros w e. unfold outcome, queryPublished.
  destruct (_published w); cbn; congruence.
Qed.

Lemma throws_only_queryBuffer {A} (f : Heap -> A) : throws_only E (queryBuffer f).
Proof.
  intros w e. unfold outcome, queryBuffer.
  destruct (_unpublishedBuffer w); cbn; congruence.
Qed.

Lemma throws_only_mutatePublished f : throws_only E (mutatePublished f).
Proof.
  intros w e. unfold outcome, mutatePublished.
  destruct (_published w); cbn; congruence.
Qed.

Lemma throws_only_mutateBuffer f : throws_only E (mutateBuffer f).
Proof.
  intros w e. unfold outcome, mutateBuffer.
  destruct (_unpublishedBuffer w); cbn; congruence.
Qed.

End Errors.

(** Split a goal about the errors of a piece of code along its structure. *)
Ltac along_errors known :=
  lazymatch goal with
  | |- throws_only _ (bind _ _) =>
      apply throws_only_bind; [along_errors known | intros; along_errors known]
  | |- throws_only _ (ret _) => apply throws_only_ret
  | |- throws_only _ (gets _) => apply throws_only_gets
  | |- throws_only _ (modify _) => apply throws_only_modify
  | |- throws_only _ (throw _) => apply throws_only_throw; known
  | |- throws_only _ (queryPublished _) => apply throws_only_queryPublished; known
  | |- throws_only _ (queryBuffer _) => apply throws_only_queryBuffer; known
  | |- throws_only _ (mutatePublished _) => apply throws_only_mutatePublished; known
  | |- throws_only _ (mutateBuffer _) => apply throws_only_mutateBuffer; known
  | |- throws_only _ (when _ _) => apply throws_only_when; along_errors known
  | |- throws_only _ (forEach _ _) =>
      apply throws_only_forEach; intros; along_errors known
  | |- throws_only _ (if ?c then _ else _) => destruct c; along_errors known
  | |- throws_only _ (match ?x with _ => _ end) => destruct x; along_errors known
  | |- _ => known
  end.

Create HintDb errors.

Ltac other_error :=
  first [ solve [eauto with errors]
        | unfold not_removeNotCached; intros; discriminate ].

Lemma emit_raises_nothing E c : throws_only E (emit c).
Proof. apply throws_only_modify. Qed.

Lemma defer_raises_nothing E t : throws_only E (defer t).
Proof. apply throws_only_modify. Qed.

Lemma registerPhaseChange_raises_nothing E phase :
  throws_only E (_registerPhaseChange phase).
Proof. apply throws_only_modify. Qed.
#[export] Hint Resolve emit_raises_nothing defer_raises_nothing
  registerPhaseChange_raises_nothing : errors.

Lemma pollQuery_raises_other : throws_only not_removeNotCached _pollQuery.
Proof. unfold _pollQuery. along_errors other_error. Qed.
#[export] Hint Resolve pollQuery_raises_other : errors.

Lemma needToPollQuery_raises_other : throws_only not_removeNotCached _needToPollQuery.
Proof. unfold _needToPollQuery. along_errors other_error. Qed.
#[export] Hint Resolve needToPollQuery_raises_other : errors.

Lemma addBuffered_raises_other options id doc :
  throws_only not_removeNotCached (_addBuffered options id doc).
Proof. unfold _addBuffered. along_errors other_error. Qed.
#[export] Hint Resolve addBuffered_raises_other : errors.

Lemma removeBuffered_raises_other id :
  throws_only not_removeNotCached (_removeBuffered id).
Proof. unfold _removeBuffered. along_errors other_error. Qed.
#[export] Hint Resolve removeBuffered_raises_other : errors.

Lemma addPublished_raises_other options id doc :
  throws_only not_removeNotCached (_addPublished options id doc).
Proof. unfold _addPublished. along_errors other_error. Qed.
#[export] Hint Resolve addPublished_raises_other : errors.

Lemma removePublished_raises_other options id :
  throws_only not_removeNotCached (_removePublished options id).
Proof. unfold _removePublished. along_errors other_error. Qed.
#[export] Hint Resolve removePublished_raises_other : errors.

(** ** Where the writes end up *)

(** [stop] is the only step that sets the flag. *)
Lemma step_stopped options w w' :
  step options w w' ->
  _stopped w' = _stopped w \/ (_stopped w = false /\ w' = exec stop w).
Proof.
  intros [n w0 | fence w0 | mongo t before after w0 E | b id err doc w0 _ _
         | w0 | writes rest w0 E].
  - left. exact (stopped_same _ _ _ (onOplogEntry_progress options n w0)).
  - left. now destruct fence.
  - left. change (_stopped w0) with (_stopped (set_scheduled (before ++ after) w0)).
    destruct t; cbn [runTask].
    + exact (stopped_same _ _ _ (runInitialQuery_progress options mongo _)).
    + exact (stopped_same _ _ _ (pollQuery_deferred_progress options mongo _)).
    + exact (stopped_same _ _ _ (fetchLoop_progress options _)).
    + generalize (set_scheduled (before ++ after) w0). intros v.
      unfold exec, fenceWrite. run. destruct (_stopped v) eqn:St; run; [exact St |].
      destruct (Phase_eqb (_phase v) STEADY); run; [exact St |].
      now destruct (_writesToCommitWhenWeReachSteady v).
    + exact (stopped_same _ _ _ (doneQuerying_caughtUp_progress options _)).
    + exact (stopped_same _ _ _ (fetchLoop_afterWait_progress options _ _)).
  - left. exact (stopped_same _ _ _ (fetchCallback_progress options _ id err doc w0)).
  - destruct (_stopped w0) eqn:St; [left | right; auto].
    unfold exec, stop. run. rewrite St. exact St.
  - left. reflexivity.
Qed.

(** What [stop] does to a driver that is not stopped yet, as far as the
    writes go. *)
Lemma stop_commits_pending w :
  _stopped w = false ->
  _stopped (exec stop w) = true /\
  _writesToCommitWhenWeReachSteady (exec stop w) = None /\
  committed (exec stop w) = committed w ++ pendingWrites w /\
  begun (exec stop w) = begun w.
Proof.
  intros St. unfold exec, stop. run. rewrite St. run.
  rewrite (run_bind _ _ _ _ _ (commit_each _ _)). run. cbn. auto.
Qed.

(** A stopped driver has no pending write. *)
Lemma reachable_stopped_pending options w :
  reachable options w -> _stopped w = true -> pendingWrites w = [].
Proof.
  induction 1 as [w C | w w' R IH S].
  - unfold OplogObserveDriver in C. destruct (ordered options); [discriminate |].
    injection C as <-. discriminate.
  - intros St'. destruct (step_stopped _ _ _ S) as [Same | [St ->]].
    + rewrite St' in Same. symmetry in Same. specialize (IH Same).
      destruct (reachable_accounts _ _ R) as (Alive & _).
      unfold pendingWrites in *.
      destruct (step_writes_move _ _ _ S Alive)
        as [[Ew _] | _ Ew _ _ | write _ Ew _ _ | write F _ _ _ _ | write F _ _ _ _
            | F _ _ _ _ | writes _ Ew _]; try congruence; now rewrite Ew.
    + destruct (stop_commits_pending w St) as (_ & Ew & _).
      unfold pendingWrites. now rewrite Ew.
Qed.

(** In a stopped driver the deferred fence bodies can all be run; each
    commits its write. *)
Lemma fences_run options (l before : list Task) w :
  _stopped w = true -> scheduled w = before ++ l ->
  flat_map writesOfTask before = [] ->
  exists w', steps options w w' /\ _stopped w' = true /\ begun w' = begun w /\
             flat_map writesOfTask (scheduled w') = [].
Proof.
  revert before w. induction l as [| t r IH]; intros before w St E B.
  - exists w. rewrite E, app_nil_r. repeat split; auto. apply rt_refl.
  - destruct (writesOfTask t) eqn:Wt.
    { apply (IH (before ++ [t]) w St); [now rewrite <- app_assoc |].
      rewrite flat_map_app, B. cbn. now rewrite Wt. }
    destruct t as [| | | write | |]; try discriminate. clear Wt.
    pose proof (step_task options (fun _ => []) _ _ _ _ E) as S.
    cbn [runTask] in S.
    set (w1 := exec (fenceWrite write) (set_scheduled (before ++ r) w)) in *.
    assert (E1 : w1 = set_committed (committed w ++ [write])
                        (set_scheduled (before ++ r) w)).
    { unfold w1, exec, fenceWrite. run. cbn [_stopped set_scheduled]. rewrite St.
      reflexivity. }
    destruct (IH before w1) as (w' & S' & St' & Eb & F); auto; try (now rewrite E1).
    exists w'. split; [| split; [exact St' | split; [| exact F]]].
    + eapply rt_trans; [apply rt_step, S | exact S'].
    + rewrite Eb, E1. reflexivity.
Qed.

(** The multiplexer can run every onFlush callback it holds. *)
Lemma flushes_run options (l : list (list WriteToken)) w :
  onFlush w = l ->
  exists w', steps options w w' /\ onFlush w' = [] /\ _stopped w' = _stopped w /\
             begun w' = begun w /\ scheduled w' = scheduled w /\
             committed w' = committed w ++ List.concat l.
Proof.
  revert w. induction l as [| writes rest IH]; intros w E.
  - exists w. rewrite app_nil_r. repeat split; auto. apply rt_refl.
  - destruct (IH (flushed writes rest w) eq_refl) as (w' & S & F & St & Eb & Es & Ec).
    exists w'. repeat split; auto.
    + eapply rt_trans; [apply rt_step, (step_flush options _ _ _ E) | exact S].
    + rewrite Ec. cbn. now rewrite app_assoc.
Qed.

(** Every write the driver has begun gets committed: after [stop], once the
    deferred fence bodies have run and the multiplexer has run its onFlush
    callbacks, the committed writes are the writes begun. *)
Lemma writes_all_committed options w :
  reachable options w ->
  exists w', steps options w w' /\ begun w' = begun w /\
             Permutation (begun w) (committed w').
Proof.
  intros R.
  assert (Stop : exists w1, steps options w w1 /\ _stopped w1 = true /\ begun w1 = begun w).
  { destruct (_stopped w) eqn:St.
    - exists w. repeat split; auto. apply rt_refl.
    - exists (exec stop w). destruct (stop_commits_pending w St) as (S1 & _ & _ & Eb).
      repeat split; auto. apply rt_step, step_stop. }
  destruct Stop as (w1 & S1 & St1 & Eb1).
  destruct (fences_run options (scheduled w1) [] w1 St1 eq_refl eq_refl)
    as (w2 & S2 & St2 & Eb2 & F2).
  destruct (flushes_run options (onFlush w2) w2 eq_refl) as (w3 & S3 & F3 & St3 & Eb3 & Es3 & _).
  assert (S : steps options w w3).
  { eapply rt_trans; [exact S1 |]. eapply rt_trans; [exact S2 | exact S3]. }
  exists w3. split; [exact S |]. split; [congruence |].
  pose proof (reachable_steps _ _ _ R S) as R3.
  destruct (reachable_accounts _ _ R3) as (_ & _ & Held & _).
  rewrite St2 in St3.
  pose proof (reachable_stopped_pending _ _ R3 St3) as P3.
  unfold heldWrites in Held. rewrite Es3, F2, P3, F3 in Held. cbn in Held.
  replace (begun w) with (begun w3) by congruence. exact Held.
Qed.

Section Correctness.

Variable options : Options.

Local Abbreviation _limit := (limit options).
Local Abbreviation _comparator := (comparator options).

(** [_addPublished] from a world that respects the limit: either the
    document fits, or exactly one document is over and the greatest one is
    looked at. *)
Lemma addPublished_cases (w : World) (id : Id) (doc : Doc) (p : Heap) :
  0 < _limit -> _published w = Some p -> IdMap.size p <= _limit ->
  let p1 := IdMap.set id (sharedProjectionFn options doc) p in
  let w1 := afterAdding options id doc p w in
  (IdMap.size p1 <= _limit /\ _addPublished options id doc w = (Returned tt, w1))
  \/
  (IdMap.size p1 = _limit + 1 /\ IdMap.has id p = false /\ IdMap.size p = _limit /\
   let oid := HeapOps.maxElementId _comparator p1 in
   _addPublished options id doc w =
     if EJSON_equals oid id then (Thrown Err_justAddedOverflowing, w1)
     else match IdMap.get oid p1 with
          | Some d => _addBuffered options oid d
          | None => throw TypeError
          end (set_multiplexer (multiplexer w1 ++ [removed oid])
                 (set_published (Some (IdMap.remove oid p1)) w1))).
Proof.
  intros L Hp S p1 w1.
  assert (T : truthy _limit = true) by (unfold truthy; apply negb_true_iff, Z.eqb_neq; lia).
  unfold _addPublished, emit. run. rewrite T. cbn [andb].
  subst p1 w1. unfold afterAdding.
  set (p1 := IdMap.set id (sharedProjectionFn options doc) p) in *.
  destruct (_limit <? IdMap.size p1) eqn:O.
  - right. apply Z.ltb_lt in O.
    destruct (IdMap.has id p) eqn:Hid.
    { unfold p1 in O. rewrite (size_set_present _ _ _ Hid) in O. lia. }
    assert (S1 : IdMap.size p1 = IdMap.size p + 1) by (apply size_set_absent, Hid).
    repeat split; try lia.
    cbn zeta. unfold when. run.
    replace (IdMap.size p1 =? _limit + 1) with true by (symmetry; apply Z.eqb_eq; lia).
    cbn [negb]. run.
    destruct (EJSON_equals (HeapOps.maxElementId _comparator p1) id); run;
      reflexivity.
  - left. apply Z.ltb_ge in O. split; [exact O | reflexivity].
Qed.

Lemma addBuffered_raises_TypeError id doc :
  throws_only (fun e => e = TypeError) (_addBuffered options id doc).
Proof. unfold _addBuffered. along_errors ltac:(reflexivity). Qed.

(** The greatest element of a heap after a document is stored under an id
    that is new: the greatest element so far, unless it sorts strictly before
    the document stored. *)
Lemma maxElementId_set_absent (p : Heap) id stored :
  IdMapFacts.wf p -> p <> [] -> IdMap.has id p = false ->
  exists greatest greatestDoc,
    greatest = HeapOps.maxElementId _comparator p /\
    IdMap.get greatest p = Some greatestDoc /\
    greatest <> id /\
    IdMap.get greatest (IdMap.set id stored p) = Some greatestDoc /\
    HeapOps.maxElementId _comparator (IdMap.set id stored p)
    = if _comparator greatestDoc (Some stored) <? 0 then id else greatest.
Proof.
  intros W N A.
  assert (W1 : IdMapFacts.wf (IdMap.set id stored p)) by now apply wf_set.
  rewrite (set_absent _ _ _ A) in *.
  destruct p as [| e r]; [congruence |]. cbn [app HeapOps.maxElementId] in *.
  rewrite maxEntry_app. cbn zeta.
  pose proof (maxEntry_In _comparator e r) as I.
  destruct (HeapOps.maxEntry _comparator e r) as [k m]. cbn [fst snd] in *.
  exists k, m. split; [reflexivity |].
  split; [now apply wf_get_In |].
  split; [intros ->; apply In_has in I; congruence |].
  split.
  - apply wf_get_In; [exact W1 |]. change (In (k, m) ((e :: r) ++ [(id, stored)])).
    apply in_or_app. auto.
  - now destruct (_comparator m (Some stored) <? 0).
Qed.

(** C7 (amended). Let [_addPublished] be called for a limited query from a
    world with at most [limit] published documents.  The branch "overflow
    exceeding 1" is not taken.  If the insertion leaves more than [limit]
    documents it leaves exactly [limit + 1], and what happens next is
    decided by the greatest published document and the new document as it is
    stored, that is, its shared projection.  When the greatest published
    document does not sort strictly before it, that document is the one
    evicted: it is not the document just added, it is removed from the
    published heap, a [removed] call is made for it and it goes to the buffer
    through [_addBuffered].  When it does sort strictly before it, the
    document just added is the greatest and the branch "The document just
    added is overflowing the published set" is taken. *)
Theorem addPublished_overflow_evicts_one (w : World) (id : Id) (doc : Doc) (p : Heap) :
  0 < _limit -> _published w = Some p -> IdMapFacts.wf p ->
  IdMap.size p <= _limit ->
  let stored := sharedProjectionFn options doc in
  let p1 := IdMap.set id stored p in
  let w1 := afterAdding options id doc p w in
  (forall n, outcome (_addPublished options id doc) w <> Thrown (Err_overflowing n))
  /\
  (IdMap.size p1 <= _limit -> _addPublished options id doc w = (Returned tt, w1))
  /\
  (_limit < IdMap.size p1 ->
   IdMap.size p1 = _limit + 1 /\
   exists greatest greatestDoc,
     greatest = HeapOps.maxElementId _comparator p /\
     IdMap.get greatest p = Some greatestDoc /\
     greatest <> id /\
     (0 <= _comparator greatestDoc (Some stored) ->
      HeapOps.maxElementId _comparator p1 = greatest /\
      IdMap.get greatest p1 = Some greatestDoc /\
      _addPublished options id doc w =
        _addBuffered options greatest greatestDoc
          (set_multiplexer (multiplexer w1 ++ [removed greatest])
             (set_published (Some (IdMap.remove greatest p1)) w1)))
     /\
     (_comparator greatestDoc (Some stored) < 0 ->
      HeapOps.maxElementId _comparator p1 = id /\
      _addPublished options id doc w = (Thrown Err_justAddedOverflowing, w1))).
Proof.
  intros L Hp W S. cbv zeta.
  pose proof (addPublished_cases w id doc p L Hp S) as C. cbv zeta in C.
  destruct C as [[Fit Run] | (Over & A & Full & Run)].
  - split; [intros n; unfold outcome; rewrite Run; discriminate |].
    split; [intros _; exact Run | intros O; lia].
  - assert (N : p <> []).
    { intros ->. unfold IdMap.size in Full. cbn in Full. lia. }
    destruct (maxElementId_set_absent p id (sharedProjectionFn options doc) W N A)
      as (k & m & Ek & Gk & Neq & Gk1 & Max).
    assert (Cases :
      (0 <= _comparator m (Some (sharedProjectionFn options doc)) ->
       HeapOps.maxElementId _comparator (IdMap.set id (sharedProjectionFn options doc) p) = k /\
       _addPublished options id doc w =
         _addBuffered options k m
           (set_multiplexer (multiplexer (afterAdding options id doc p w) ++ [removed k])
              (set_published
                 (Some (IdMap.remove k (IdMap.set id (sharedProjectionFn options doc) p)))
                 (afterAdding options id doc p w)))) /\
      (_comparator m (Some (sharedProjectionFn options doc)) < 0 ->
       HeapOps.maxElementId _comparator (IdMap.set id (sharedProjectionFn options doc) p) = id /\
       _addPublished options id doc w
       = (Thrown Err_justAddedOverflowing, afterAdding options id doc p w))).
    { split; intros Cmp.
      - replace (_comparator m (Some (sharedProjectionFn options doc)) <? 0) with false in Max
          by (symmetry; apply Z.ltb_ge; lia).
        split; [exact Max |].
        rewrite Max in Run. rewrite Gk1 in Run.
        apply EJSON_equals_neq in Neq. now rewrite Neq in Run.
      - replace (_comparator m (Some (sharedProjectionFn options doc)) <? 0) with true in Max
          by (symmetry; apply Z.ltb_lt; lia).
        split; [exact Max |].
        rewrite Max in Run. now rewrite EJSON_equals_refl in Run. }
    destruct Cases as [Below Above].
    split; [| split].
    + intros n. unfold outcome.
      destruct (Z.lt_ge_cases (_comparator m (Some (sharedProjectionFn options doc))) 0)
        as [Cmp | Cmp].
      * destruct (Above Cmp) as [_ ->]. discriminate.
      * destruct (Below Cmp) as [_ ->]. intros H.
        apply addBuffered_raises_TypeError in H. discriminate.
    + intros Fit. lia.
    + intros _. split; [exact Over |].
      exists k, m. repeat split; auto; try (now apply Below); now apply Above.
Qed.

Section Ordering.

(** What the driver relies on from its collaborators: the comparator of the
    sorter never puts two documents strictly before each other, and the
    shared projection keeps what the comparator looks at. *)
Hypothesis comparator_antisym :
  forall a b, _comparator a (Some b) < 0 -> 0 <= _comparator b (Some a).
Hypothesis comparator_projection :
  forall a b, _comparator a (Some (sharedProjectionFn options b)) = _comparator a (Some b).

(** When the published heap is full and the new document sorts strictly
    before its greatest element, the greatest element after the insertion is
    the old one. *)
Lemma overflowing_is_old_maximum (id : Id) (doc : Doc) (p : Heap) :
  IdMapFacts.wf p -> p <> [] -> IdMap.has id p = false ->
  _comparator doc (maxElement options p) < 0 ->
  let p1 := IdMap.set id (sharedProjectionFn options doc) p in
  let oid := HeapOps.maxElementId _comparator p1 in
  oid = HeapOps.maxElementId _comparator p /\ oid <> id /\
  exists d, IdMap.get oid p1 = Some d.
Proof.
  intros W N A G p1 oid.
  assert (E : oid = HeapOps.maxElementId _comparator p).
  { apply maxElementId_set_below; auto.
    intros m Hm. unfold maxElement in G. rewrite Hm in G.
    rewrite comparator_projection. auto. }
  destruct (maxElementId_In _comparator p N) as [d I]. rewrite <- E in I.
  split; [exact E |]. split.
  - intros ->. apply In_has in I. congruence.
  - exists d. apply wf_get_In; [now apply wf_set |].
    unfold p1. rewrite (set_absent _ _ _ A). apply in_or_app. auto.
Qed.

Section Limited.

Hypothesis limited : 0 < _limit.

#[local] Instance keeps_limit_preorder : PreOrder (keeps_limit options).
Proof.
  split; [intros w H; exact H |].
  intros a b c H1 H2 H. auto.
Qed.

Lemma same_published_keeps_limit w w' :
  same_published w w' -> keeps_limit options w w'.
Proof. intros E H p Hp. apply H. now rewrite <- E. Qed.

Lemma same_published_preserves_limit {A} (m : M A) :
  preserves same_published m -> preserves (keeps_limit options) m.
Proof. intros H w. apply same_published_keeps_limit, H. Qed.

Lemma truthy_limit : truthy _limit = true.
Proof. unfold truthy. apply negb_true_iff, Z.eqb_neq. lia. Qed.

(** [_addPublished] keeps the limit unless it ends in the branch "The
    document just added is overflowing the published set". *)
Lemma addPublished_keeps_limit_unless (w : World) (id : Id) (doc : Doc) :
  within_limit options w ->
  outcome (_addPublished options id doc) w <> Thrown Err_justAddedOverflowing ->
  within_limit options (exec (_addPublished options id doc) w).
Proof.
  intros Inv Not.
  destruct (_published w) as [p |] eqn:Hp.
  2:{ unfold exec, _addPublished, bind, mutatePublished. now rewrite Hp. }
  destruct (Inv p Hp) as [W S].
  pose proof (addPublished_cases w id doc p limited Hp S) as C. cbv zeta in C.
  unfold exec, outcome in *.
  destruct C as [[Fit Run] | (Over & A & Full & Run)]; rewrite Run in *.
  - intros p' Hp'. cbn in Hp'. injection Hp' as <-. split; [now apply wf_set | exact Fit].
  - set (p1 := IdMap.set id (sharedProjectionFn options doc) p) in *.
    destruct (EJSON_equals (HeapOps.maxElementId _comparator p1) id) eqn:Eq;
      [cbn in Not; congruence |].
    assert (N1 : p1 <> []).
    { intros E. rewrite E in Over. unfold IdMap.size in Over. cbn in Over. lia. }
    destruct (maxElementId_In _comparator p1 N1) as [d I].
    assert (Evicted : within_limit options
              (set_multiplexer
                 (multiplexer (afterAdding options id doc p w) ++
                  [removed (HeapOps.maxElementId _comparator p1)])
                 (set_published
                    (Some (IdMap.remove (HeapOps.maxElementId _comparator p1) p1))
                    (afterAdding options id doc p w)))).
    { intros p' Hp'. cbn in Hp'. injection Hp' as <-.
      split; [apply wf_remove, wf_set, W |].
      pose proof (size_remove_present _ p1 (In_has _ _ _ I)). lia. }
    destruct (IdMap.get (HeapOps.maxElementId _comparator p1) p1); [| exact Evicted].
    eapply same_published_keeps_limit; [| exact Evicted].
    apply addBuffered_same_published.
Qed.

(** With the test of its callers, [_addPublished] does not end in that
    branch. *)
Lemma addPublished_tested_not_overflowing (w : World) (id : Id) (doc : Doc) :
  within_limit options w -> sorts_before_greatest options id doc w ->
  outcome (_addPublished options id doc) w <> Thrown Err_justAddedOverflowing.
Proof.
  intros Inv G.
  destruct (_published w) as [p |] eqn:Hp.
  2:{ unfold outcome, _addPublished, bind, mutatePublished. rewrite Hp. discriminate. }
  destruct (Inv p Hp) as [W S].
  pose proof (addPublished_cases w id doc p limited Hp S) as C. cbv zeta in C.
  unfold outcome.
  destruct C as [[Fit Run] | (Over & A & Full & Run)]; rewrite Run;
    [discriminate |].
  assert (N : p <> []).
  { intros ->. unfold IdMap.size in Full. cbn in Full. lia. }
  pose proof (overflowing_is_old_maximum id doc p W N A (G p Hp Full A)) as O.
  cbv zeta in O. destruct O as (_ & Neq & d & Hd).
  apply EJSON_equals_neq in Neq. rewrite Neq, Hd. intros H.
  apply addBuffered_raises_TypeError in H. discriminate.
Qed.

Lemma addPublished_keeps_limit (w : World) (id : Id) (doc : Doc) :
  within_limit options w -> sorts_before_greatest options id doc w ->
  within_limit options (exec (_addPublished options id doc) w).
Proof.
  intros Inv G. apply addPublished_keeps_limit_unless; [exact Inv |].
  now apply addPublished_tested_not_overflowing.
Qed.

Lemma published_remove_keeps_limit w p id :
  _published w = Some p ->
  keeps_limit options w (set_published (Some (IdMap.remove id p)) w).
Proof.
  intros Hp Inv p' Hp'. cbn in Hp'. injection Hp' as <-.
  destruct (Inv p Hp) as [W S]. split; [now apply wf_remove |].
  pose proof (size_remove_le id p). lia.
Qed.

(** An assignment to a field other than the published heap. *)
Ltac elsewhere :=
  unfold keeps_limit, within_limit; cbn;
  let Inv := fresh "Inv" in let p' := fresh "p'" in let Hp' := fresh "Hp'" in
  intros Inv p' Hp'; first [discriminate | exact (Inv p' Hp')].

Create HintDb limit.

Ltac settle_limit :=
  first
    [ solve [eauto with limit]
    | apply same_published_keeps_limit; solve [eauto with same_published]
    | apply same_published_preserves_limit; solve [eauto with same_published]
    | apply published_remove_keeps_limit; assumption
    | elsewhere ].

Ltac by_limit := along_code settle_limit.

Lemma removePublished_keeps_limit id :
  preserves (keeps_limit options) (_removePublished options id).
Proof.
  intros w Inv. unfold exec, _removePublished.
  destruct (_published w) as [p |] eqn:Hp;
    [| unfold bind, mutatePublished; rewrite Hp; exact Inv].
  unfold emit. run. rewrite truthy_limit. cbn [negb]. run.
  set (w1 := set_multiplexer _ (set_published _ w)).
  assert (Hp1 : _published w1 = Some (IdMap.remove id p)) by reflexivity.
  assert (Inv1 : within_limit options w1).
  { intros p' Hp'. rewrite Hp1 in Hp'. injection Hp' as <-.
    destruct (Inv p Hp) as [W S]. split; [now apply wf_remove |].
    pose proof (size_remove_le id p). lia. }
  destruct (IdMap.size (IdMap.remove id p) <? _limit) eqn:S; cbn [when];
    [| exact Inv1].
  apply Z.ltb_lt in S.
  destruct (_unpublishedBuffer w) as [b |] eqn:Eb;
    [| unfold bind, queryBuffer; cbn; rewrite Eb; exact Inv1].
  run. destruct (IdMap.size b =? 0).
  { run. now destruct (negb _ && _). }
  run.
  pose proof (removeBuffered_same_published (HeapOps.minElementId _comparator b) w1)
    as Same.
  unfold exec in Same. unfold bind at 1.
  destruct (_removeBuffered (HeapOps.minElementId _comparator b) w1)
    as [[[] | e] w2]; cbn [snd] in *;
    pose proof (same_published_keeps_limit _ _ Same Inv1) as Inv2; [| exact Inv2].
  destruct (IdMap.get _ b) as [d |]; [| exact Inv2].
  apply addPublished_keeps_limit; [exact Inv2 |].
  intros p2 Hp2 Full. rewrite Same, Hp1 in Hp2. injection Hp2 as <-. lia.
Qed.
#[local] Hint Resolve removePublished_keeps_limit : limit.

Lemma addMatching_keeps_limit doc :
  preserves (keeps_limit options) (_addMatching options doc).
Proof.
  intros w Inv. unfold exec, _addMatching, limit_and_buffered.
  destruct (_published w) as [p |] eqn:Hp;
    [| unfold bind, queryPublished; rewrite Hp; exact Inv].
  run. destruct (IdMap.has (doc_id doc) p) eqn:Hid; [exact Inv |].
  rewrite truthy_limit.
  destruct (_unpublishedBuffer w) as [b |] eqn:Eb;
    [| unfold bind, queryBuffer; cbn; rewrite Eb; exact Inv].
  run. destruct (IdMap.has (doc_id doc) b); [exact Inv |]. run.
  assert (Mp : (if 0 <? IdMap.size p then queryPublished (maxElement options)
                else ret None) w
               = (Returned (if 0 <? IdMap.size p then maxElement options p else None), w)).
  { destruct (0 <? IdMap.size p); [now apply run_queryPublished | reflexivity]. }
  rewrite (run_bind _ _ _ _ _ Mp). rewrite (maxElement_if_nonempty options p).
  assert (Mb : exists mb,
            (if 0 <? IdMap.size b then queryBuffer (maxElement options)
             else ret None) w = (Returned mb, w)).
  { destruct (0 <? IdMap.size b);
      [exists (maxElement options b); now apply run_queryBuffer
      | exists None; reflexivity]. }
  destruct Mb as (mb & Mb). run. rewrite (run_bind _ _ _ _ _ Mb). run.
  cbn [negb orb].
  destruct ((IdMap.size p <? _limit) || (_comparator doc (maxElement options p) <? 0))
    eqn:T; cbn [negb].
  - run. apply addPublished_keeps_limit; [exact Inv |].
    intros p' Hp' Full _. rewrite Hp in Hp'. injection Hp' as <-.
    apply orb_true_iff in T as [T | T]; [apply Z.ltb_lt in T; lia |].
    now apply Z.ltb_lt in T.
  - run.
    assert (K : forall c : bool, within_limit options
                  (snd ((if c then _addBuffered options (doc_id doc) doc
                         else modify (set_safeAppendToBuffer false)) w))).
    { intros [|]; [| exact Inv].
      eapply same_published_keeps_limit; [apply addBuffered_same_published | exact Inv]. }
    destruct (_safeAppendToBuffer w); run; apply K.
Qed.
#[local] Hint Resolve addMatching_keeps_limit : limit.

Lemma removeMatching_keeps_limit id :
  preserves (keeps_limit options) (_removeMatching options id).
Proof. unfold _removeMatching. by_limit. Qed.
#[local] Hint Resolve removeMatching_keeps_limit : limit.

(** Changing a document that is published does not change how many are. *)
Lemma changePublished_keeps_limit (w : World) id oldDoc newDoc :
  (forall p, _published w = Some p -> IdMap.has id p = true) ->
  within_limit options w ->
  within_limit options (exec (_changePublished options id oldDoc newDoc) w).
Proof.
  intros Present Inv. unfold exec, _changePublished.
  destruct (_published w) as [p |] eqn:Hp;
    [| unfold bind, mutatePublished; rewrite Hp; exact Inv].
  run. destruct (Inv p Hp) as [W S].
  assert (Inv1 : within_limit options
            (set_published (Some (IdMap.set id (sharedProjectionFn options newDoc) p)) w)).
  { intros p' Hp'. cbn in Hp'. injection Hp' as <-. split; [now apply wf_set |].
    rewrite size_set_present; auto. }
  destruct (negb (Obj.isEmpty _)); [| exact Inv1].
  revert Inv1. apply same_published_keeps_limit, emit_same_published.
Qed.

Lemma handleDoc_stillMatching_keeps_limit (w : World) id newDoc pb bb :
  (forall p, _published w = Some p -> IdMap.has id p = pb) ->
  within_limit options w ->
  within_limit options (exec (_handleDoc_stillMatching options id newDoc pb bb) w).
Proof.
  intros Hpb Inv. unfold exec, _handleDoc_stillMatching.
  destruct (_published w) as [p |] eqn:Hp;
    [| unfold bind, queryPublished; rewrite Hp; exact Inv].
  run. rewrite truthy_limit. cbn [negb].
  destruct (_unpublishedBuffer w) as [b |] eqn:Eb;
    [| unfold bind, queryBuffer; cbn; rewrite Eb; exact Inv].
  run.
  assert (Min : exists m,
            (if truthy (IdMap.size b) then queryBuffer (minElement options) else ret None) w
            = (Returned m, w)).
  { destruct (truthy (IdMap.size b));
      [exists (minElement options b); now apply run_queryBuffer
      | exists None; reflexivity]. }
  destruct Min as (m & Min). rewrite (run_bind _ _ _ _ _ Min).
  specialize (Hpb p eq_refl). destruct pb.
  - run. destruct ((IdMap.size b =? 0) || _).
    + apply changePublished_keeps_limit; [| exact Inv].
      intros p' Hp'. congruence.
    + assert (K : preserves (keeps_limit options)
                    (_removePublished options id ;;
                     maxBuffered <- queryBuffer (maxElement options) ;;
                     safe <- gets _safeAppendToBuffer ;;
                     if safe || fitsBelow options newDoc maxBuffered
                     then _addBuffered options id newDoc
                     else modify (set_safeAppendToBuffer false)))
        by by_limit.
      exact (K w Inv).
  - destruct bb; [| exact Inv].
    run. cbn [_safeAppendToBuffer set_unpublishedBuffer].
    set (w1 := set_unpublishedBuffer _ w).
    assert (Inv1 : within_limit options w1) by exact Inv.
    assert (Mb : exists mb,
              (if IdMap.size (IdMap.remove id b) =? 0 then ret None
               else queryBuffer (maxElement options)) w1 = (Returned mb, w1)).
    { destruct (IdMap.size (IdMap.remove id b) =? 0);
        [exists None; reflexivity
        | exists (maxElement options (IdMap.remove id b)); now apply run_queryBuffer]. }
    destruct Mb as (mb & Mb). rewrite (run_bind _ _ _ _ _ Mb). run.
    destruct (_comparator newDoc (maxElement options p) <? 0) eqn:T; cbn [negb andb orb].
    + apply addPublished_keeps_limit; [exact Inv1 |].
      intros p' Hp' _ _. cbn in Hp'. rewrite Hp in Hp'. injection Hp' as <-.
      now apply Z.ltb_lt.
    + destruct (_ || fitsBelow options newDoc mb); [| exact Inv1].
      unfold mutateBuffer. cbn. exact Inv.
Qed.

Lemma handleDoc_keeps_limit id newDoc :
  preserves (keeps_limit options) (_handleDoc options id newDoc).
Proof.
  intros w Inv. unfold exec, _handleDoc.
  destruct (_published w) as [p |] eqn:Hp;
    [| unfold bind, queryPublished; rewrite Hp; exact Inv].
  run. unfold bind at 1.
  pose proof (limit_and_buffered_progress options id w) as Pr.
  assert (Same : snd (limit_and_buffered options id w) = w).
  { unfold limit_and_buffered. destruct (truthy _limit); [| reflexivity].
    unfold queryBuffer. now destruct (_unpublishedBuffer w). }
  destruct (limit_and_buffered options id w) as [[bb | e] w0]; cbn [snd] in Same;
    subst w0; [| exact Inv].
  destruct newDoc as [d |].
  - destruct (documentMatches options d && negb (IdMap.has id p || bb)).
    { now apply addMatching_keeps_limit. }
    destruct ((IdMap.has id p || bb) && negb (documentMatches options d)).
    { now apply removeMatching_keeps_limit. }
    destruct ((IdMap.has id p || bb) && documentMatches options d); [| exact Inv].
    apply handleDoc_stillMatching_keeps_limit; [| exact Inv].
    intros p' Hp'. congruence.
  - cbn [andb]. destruct ((IdMap.has id p || bb) && negb false);
      [now apply removeMatching_keeps_limit |].
    now destruct ((IdMap.has id p || bb) && false).
Qed.
#[local] Hint Resolve handleDoc_keeps_limit : limit.

Lemma publishNewResults_keeps_limit newResults newBuffer :
  preserves (keeps_limit options) (_publishNewResults options newResults newBuffer).
Proof. unfold _publishNewResults. by_limit. Qed.
#[local] Hint Resolve publishNewResults_keeps_limit : limit.

(** *** The code around the caches *)

Lemma beSteady_keeps_limit : preserves (keeps_limit options) _beSteady.
Proof. unfold _beSteady. by_limit. Qed.
#[local] Hint Resolve beSteady_keeps_limit : limit.

Lemma fetchModifiedDocuments_keeps_limit :
  preserves (keeps_limit options) _fetchModifiedDocuments.
Proof. unfold _fetchModifiedDocuments. by_limit. Qed.
#[local] Hint Resolve fetchModifiedDocuments_keeps_limit : limit.

Lemma fetchLoop_keeps_limit : preserves (keeps_limit options) fetchLoop.
Proof. unfold fetchLoop. by_limit. Qed.
#[local] Hint Resolve fetchLoop_keeps_limit : limit.

Lemma oneLessWaiting_keeps_limit g id :
  preserves (keeps_limit options) (oneLessWaiting g id).
Proof. unfold oneLessWaiting. by_limit. Qed.
#[local] Hint Resolve oneLessWaiting_keeps_limit : limit.

Lemma fetchCallback_keeps_limit g id err doc :
  preserves (keeps_limit options) (fetchCallback options g id err doc).
Proof. unfold fetchCallback. by_limit. Qed.

Lemma fetchLoop_afterWait_keeps_limit g :
  preserves (keeps_limit options) (fetchLoop_afterWait g).
Proof. unfold fetchLoop_afterWait. by_limit. Qed.

Lemma handleOplogEntryQuerying_keeps_limit o :
  preserves (keeps_limit options) (_handleOplogEntryQuerying options o).
Proof. unfold _handleOplogEntryQuerying. by_limit. Qed.

Lemma limit_and_buffered_keeps_limit id :
  preserves (keeps_limit options) (limit_and_buffered options id).
Proof. unfold limit_and_buffered. by_limit. Qed.
#[local] Hint Resolve limit_and_buffered_keeps_limit : limit.

Lemma handleOplogEntrySteadyOrFetching_keeps_limit o :
  preserves (keeps_limit options) (_handleOplogEntrySteadyOrFetching options o).
Proof. unfold _handleOplogEntrySteadyOrFetching. by_limit. Qed.

Lemma onOplogEntry_keeps_limit n :
  preserves (keeps_limit options) (onOplogEntry options n).
Proof.
  unfold onOplogEntry.
  pose proof handleOplogEntryQuerying_keeps_limit.
  pose proof handleOplogEntrySteadyOrFetching_keeps_limit.
  by_limit.
Qed.

Lemma doneQuerying_keeps_limit : preserves (keeps_limit options) _doneQuerying.
Proof. unfold _doneQuerying. by_limit. Qed.
#[local] Hint Resolve doneQuerying_keeps_limit : limit.

Lemma doneQuerying_caughtUp_keeps_limit :
  preserves (keeps_limit options) _doneQuerying_caughtUp.
Proof. unfold _doneQuerying_caughtUp. by_limit. Qed.

Lemma runInitialQuery_keeps_limit mongo :
  preserves (keeps_limit options) (_runInitialQuery options mongo).
Proof. unfold _runInitialQuery. by_limit. Qed.

Lemma pollQuery_deferred_keeps_limit mongo :
  preserves (keeps_limit options) (pollQuery_deferred options mongo).
Proof. unfold pollQuery_deferred. by_limit. Qed.

Lemma fenceWrite_keeps_limit write : preserves (keeps_limit options) (fenceWrite write).
Proof.
  unfold fenceWrite.
  along_code ltac:(first
    [ settle_limit
    | intros w Inv; unfold exec;
      now destruct (_writesToCommitWhenWeReachSteady w) ]).
Qed.

Lemma stop_keeps_limit : preserves (keeps_limit options) stop.
Proof. unfold stop. by_limit. Qed.

Lemma onListen_keeps_limit fence : preserves (keeps_limit options) (onListen fence).
Proof. unfold onListen. by_limit. Qed.

Lemma runTask_keeps_limit mongo t :
  preserves (keeps_limit options) (runTask options mongo t).
Proof.
  destruct t; cbn [runTask].
  - apply runInitialQuery_keeps_limit.
  - apply pollQuery_deferred_keeps_limit.
  - apply fetchLoop_keeps_limit.
  - apply fenceWrite_keeps_limit.
  - apply doneQuerying_caughtUp_keeps_limit.
  - apply fetchLoop_afterWait_keeps_limit.
Qed.

Lemma step_keeps_limit w w' : step options w w' -> keeps_limit options w w'.
Proof.
  intros [n w0 | fence w0 | mongo t before after w0 E | b id err doc w0 _ _
         | w0 | writes rest w0 E].
  - apply onOplogEntry_keeps_limit.
  - apply onListen_keeps_limit.
  - intros Inv. now apply runTask_keeps_limit.
  - apply fetchCallback_keeps_limit.
  - apply stop_keeps_limit.
  - intros Inv. exact Inv.
Qed.

Lemma reachable_within_limit w : reachable options w -> within_limit options w.
Proof.
  induction 1 as [w E | w w' _ IH S].
  - unfold OplogObserveDriver in E. destruct (ordered options); [discriminate |].
    injection E as <-. intros p Hp. cbn in Hp. injection Hp as <-.
    split; [constructor | cbn; lia].
  - exact (step_keeps_limit w w' S IH).
Qed.

(** The bound on the published heap, under the two assumptions of this
    section.  For a limited query ([0 < limit]) whose comparator is
    antisymmetric and gives the same result on a document and its shared
    projection: in
    every world the driver reaches, whatever the steps were and however they
    ended, the published heap holds at most [limit] documents; and from any
    world where that holds, [_addMatching], [_removePublished], [_handleDoc]
    and [_publishNewResults] leave a world where it holds, however they end.
    [_addPublished] does so unless it ends in its branch "The document just
    added is overflowing the published set"; it does not end there when the
    document passes the test its callers make. *)
Theorem published_within_limit :
  (forall w, reachable options w ->
     within_limit options w /\ IdMap.size (publishedOf w) <= _limit)
  /\ (forall doc, preserves (keeps_limit options) (_addMatching options doc))
  /\ (forall id, preserves (keeps_limit options) (_removePublished options id))
  /\ (forall id newDoc, preserves (keeps_limit options) (_handleDoc options id newDoc))
  /\ (forall newResults newBuffer,
        preserves (keeps_limit options)
          (_publishNewResults options newResults newBuffer))
  /\ (forall w id doc,
        within_limit options w ->
        outcome (_addPublished options id doc) w <> Thrown Err_justAddedOverflowing ->
        within_limit options (exec (_addPublished options id doc) w))
  /\ (forall w id doc,
        within_limit options w -> sorts_before_greatest options id doc w ->
        outcome (_addPublished options id doc) w <> Thrown Err_justAddedOverflowing).
Proof.
  split; [| split; [| split; [| split; [| split; [| split]]]]].
  - intros w R. pose proof (reachable_within_limit w R) as Inv.
    split; [exact Inv |]. unfold publishedOf.
    destruct (_published w) as [p |] eqn:Hp; [apply (Inv p Hp) | cbn; lia].
  - apply addMatching_keeps_limit.
  - apply removePublished_keeps_limit.
  - apply handleDoc_keeps_limit.
  - apply publishNewResults_keeps_limit.
  - apply addPublished_keeps_limit_unless.
  - apply addPublished_tested_not_overflowing.
Qed.

End Limited.

End Ordering.


(** C2. [_handleDoc] of a document that matches and whose id is cached
    follows the table of the specification.  If the id was published, the
    document is changed in place exactly when the query is unlimited, the
    buffer is empty, or the document does not sort after the least buffered
    one; otherwise it is removed from the published set and then buffered
    when appending is safe or it does not sort after the greatest buffered
    document, else only [safeAppendToBuffer] is cleared.  If the id was
    buffered, the old version leaves the buffer without a repoll being
    scheduled; the document is published exactly when it sorts strictly
    before the greatest published one, else put back into the buffer when
    appending is safe or it does not sort after the greatest buffered one,
    else dropped with [safeAppendToBuffer] cleared. *)
Theorem handleDoc_follows_table (w : World) (id : Id) (newDoc : Doc) (p : Heap) :
  documentMatches options newDoc = true ->
  _published w = Some p ->
  (_limit <> 0 -> exists b, _unpublishedBuffer w = Some b) ->
  (IdMap.has id p = true ->
   _handleDoc options id (Some newDoc) w = handleDoc_published_rule options id newDoc w)
  /\
  (IdMap.has id p = false -> _limit <> 0 -> IdMap.has id (bufferOf w) = true ->
   _handleDoc options id (Some newDoc) w = handleDoc_buffered_rule options id newDoc w).
Proof.
  intros Hm Hp Hb. split.
  - intros Hid.
    unfold _handleDoc, handleDoc_published_rule, limit_and_buffered, truthy,
      publishedOf, bufferOf.
    rewrite Hm, Hp. run. rewrite Hid.
    destruct (_limit =? 0) eqn:L; cbn [negb orb andb].
    + run. cbn [negb orb andb]. unfold _handleDoc_stillMatching, truthy. rewrite L.
      run. reflexivity.
    + apply Z.eqb_neq in L. destruct (Hb L) as (b & Eb). rewrite Eb. run.
      unfold _handleDoc_stillMatching, truthy.
      apply Z.eqb_neq in L. rewrite L. cbn [negb]. run.
      destruct (IdMap.size b =? 0) eqn:S; cbn [negb orb]; run; rewrite ?S;
        cbn [negb orb].
      * reflexivity.
      * destruct (_comparator newDoc (minElement options b) <=? 0); [reflexivity |].
        pose proof (buffer_stays _ _ _ (removePublished_progress options id w)) as Bs.
        unfold exec in Bs. unfold bind at 1.
        destruct (_removePublished options id w) as [[[] | e] w1]; [| reflexivity].
        cbn [snd] in Bs. rewrite Eb in Bs.
        destruct (_unpublishedBuffer w1) as [b1 |] eqn:Eb1;
          [| exfalso; apply Bs; [discriminate | reflexivity]].
        run. now destruct (_safeAppendToBuffer w1 || _).
  - intros Hid L Hidb.
    unfold _handleDoc, handleDoc_buffered_rule, limit_and_buffered, truthy,
      publishedOf, bufferOf in *.
    destruct (Hb L) as (b & Eb). rewrite Eb in *.
    apply Z.eqb_neq in L. rewrite Hm, Hp, L. cbn [negb]. run.
    rewrite Hid, Hidb. cbn [negb orb andb].
    unfold _handleDoc_stillMatching, truthy. rewrite L. cbn [negb]. run.
    assert (Mb : (IdMap.size (IdMap.remove id b) =? 0) = true ->
                 maxElement options (IdMap.remove id b) = None).
    { intros S. apply Z.eqb_eq, size_zero_empty in S. now rewrite S. }
    destruct (negb (IdMap.size b =? 0)); run;
      (destruct (IdMap.size (IdMap.remove id b) =? 0); run;
       rewrite ?Mb by reflexivity;
       cbn [_safeAppendToBuffer set_unpublishedBuffer];
       repeat (match goal with
               | |- context [if ?c then _ else _] => destruct c
               end; cbn [negb andb orb]; run);
       reflexivity).
Qed.

Lemma has_delete (k : string) (d : Doc) : Obj.has k (Obj.delete k d) = false.
Proof.
  induction d as [| [k' v] r IH]; cbn; [reflexivity |].
  destruct (String.eqb k' k) eqn:E; cbn; [exact IH | now rewrite E].
Qed.

(** C10. Every [added] call the driver makes on the multiplexer carries the
    publish projection of a copy of the document from which [_id] was
    deleted; with a projection that never adds a key [_id], the fields
    passed do not contain [_id]. *)
Theorem added_fields_without_id (w : World) (id : Id) (fields : Doc) :
  (forall d, Obj.has "_id" d = false ->
             Obj.has "_id" (projectionFn options d) = false) ->
  reachable options w ->
  In (added id fields) (multiplexer w) ->
  (exists doc, fields = projectionFn options (Obj.delete "_id" doc)) /\
  Obj.has "_id" fields = false.
Proof.
  intros Proj R I.
  destruct (reachable_accounts _ _ R) as (_ & _ & _ & Calls).
  rewrite Forall_forall in Calls. specialize (Calls _ I). cbn in Calls.
  split; [exact Calls |]. destruct Calls as (doc & ->).
  apply Proj, has_delete.
Qed.

Lemma oneLessWaiting_only_bookkeeping g id w :
  only_bookkeeping w (exec (oneLessWaiting g id) w).
Proof.
  unfold exec, oneLessWaiting. run. cbn [fetching set_fetching].
  destruct (none_waiting g _); cbn; eexists _, _; reflexivity.
Qed.

Lemma pollQuery_next_generation w :
  _stopped w = false ->
  _fetchGeneration (exec _pollQuery w) = _fetchGeneration w + 1.
Proof. intros St. unfold exec, _pollQuery. run. rewrite St. reflexivity. Qed.

(** C6. [fetchGeneration] never decreases along the steps of the driver; a
    round of fetches and a [_pollQuery] each add one to it.  The callback of
    a fetch calls [_handleDoc] only when no error came back, the driver is
    not stopped, the phase is FETCHING and the generation is the one of its
    round; otherwise only the bookkeeping of the round changes.  A callback
    of a round that was in flight when [_pollQuery] ran changes nothing but
    that bookkeeping, whatever happened in between. *)
Theorem fetchGeneration_cancels_rounds :
  (forall w w', reachable options w -> step options w w' ->
                _fetchGeneration w <= _fetchGeneration w')
  /\
  (forall w nf, _stopped w = false -> _needToFetch w = Some nf -> nf <> [] ->
                _phase w = FETCHING ->
                fetchLoop w = (Returned tt, roundStarted nf w) /\
                _fetchGeneration (roundStarted nf w) = _fetchGeneration w + 1)
  /\
  (forall w, _stopped w = false ->
             _fetchGeneration (exec _pollQuery w) = _fetchGeneration w + 1)
  /\
  (forall w g id err doc,
     let current := negb (_stopped w) && Phase_eqb (_phase w) FETCHING &&
                    (_fetchGeneration w =? g) in
     (err = None -> current = true ->
      fetchCallback options g id err doc w
      = (_handleDoc options id doc ;; oneLessWaiting g id) w)
     /\
     (err <> None \/ current = false ->
      only_bookkeeping w (exec (fetchCallback options g id err doc) w)))
  /\
  (forall w b w' id err doc,
     reachable options w -> In b (fetching w) -> _stopped w = false ->
     steps options (exec _pollQuery w) w' ->
     only_bookkeeping w' (exec (fetchCallback options (thisGeneration b) id err doc) w')).
Proof.
  assert (Callback : forall w g id err doc,
            err <> None \/
            negb (_stopped w) && Phase_eqb (_phase w) FETCHING &&
            (_fetchGeneration w =? g) = false ->
            only_bookkeeping w (exec (fetchCallback options g id err doc) w)).
  { intros w g id err doc H. unfold exec, fetchCallback.
    destruct err as [e |].
    - run. destruct (oneLessWaiting_only_bookkeeping g id
                       (set_fetching (note_error g e (fetching w)) w))
        as (rounds & tasks & E).
      unfold exec in E. rewrite E. eexists _, _. reflexivity.
    - destruct H as [H | H]; [congruence |]. run. rewrite H. cbn [when]. run.
      apply oneLessWaiting_only_bookkeeping. }
  split; [| split; [| split; [| split]]].
  - intros w w' R St.
    destruct (reachable_accounts _ _ R) as (Alive & _).
    apply (advance_generation _ _ _ (step_advance _ _ _ St Alive)).
  - intros w nf St Nf Ne Ph. split; [| cbn; lia].
    destruct (fetchLoop_cases w)
      as [[_ [St' | Nf']] | [(_ & _ & Nf') | [[_ Ph'] | (nf' & E & _ & Nf' & _)]]];
      congruence.
  - exact pollQuery_next_generation.
  - intros w g id err doc current. split; [| apply Callback].
    intros -> C. unfold fetchCallback. subst current. run. rewrite C. reflexivity.
  - intros w b w' id err doc R I St S. apply Callback. right.
    destruct (reachable_accounts _ _ R) as (Alive & Rounds & _).
    specialize (Rounds b I).
    pose proof (pollQuery_next_generation w St) as G.
    assert (Alive' : pending_list_alive (exec _pollQuery w)).
    { destruct (pollQuery_progress options w) as [_ S' _ _ N _ _ _ _ _].
      intros H. rewrite S' in H. auto. }
    pose proof (steps_generation _ _ _ Alive' S).
    replace (_fetchGeneration w' =? thisGeneration b) with false
      by (symmetry; apply Z.eqb_neq; lia).
    apply andb_false_r.
Qed.

(** C5. Every write the driver has begun is in exactly one place: with its
    deferred fence body, in the pending list, with an onFlush callback the
    multiplexer has not run yet, or committed; so no write is committed more
    often than it was begun and none is lost.  A fence body run while the
    driver is neither stopped nor steady appends its write to the pending
    list.  In one step the writes move in no other way than those of
    [writes_move]: pending writes leave the list only on entry to STEADY or
    on stop, and the transition to FETCHING touches none.  [_beSteady] takes
    the whole pending list, empties it and registers one onFlush callback
    for all of it; [stop] commits what is pending at once.  When the
    multiplexer runs an onFlush callback, the writes of that callback are
    committed; so the writes pending on entry to STEADY are committed once
    the multiplexer has run the callbacks it holds.  And every write begun
    does get committed: after [stop], once the deferred fence bodies and the
    onFlush callbacks have run, the committed writes are the writes begun,
    each as often as it was begun. *)
Theorem writes_committed_once :
  (forall w, reachable options w ->
     Permutation (begun w) (heldWrites w) /\
     forall write, (count_occ Nat.eq_dec (committed w) write
                    <= count_occ Nat.eq_dec (begun w) write)%nat)
  /\
  (forall w w', reachable options w -> step options w w' -> writes_move w w')
  /\
  (forall w write ws,
     _stopped w = false -> _phase w <> STEADY ->
     _writesToCommitWhenWeReachSteady w = Some ws ->
     fenceWrite write w
     = (Returned tt, set_writesToCommitWhenWeReachSteady (Some (ws ++ [write])) w))
  /\
  (forall w, _fetchModifiedDocuments w
             = (Returned tt,
                set_scheduled (scheduled w ++ [Task_fetchLoop]) (set_phase FETCHING w)))
  /\
  (forall w, _beSteady w = (Returned tt, steadied w))
  /\
  (forall w, _stopped w = false ->
             committed (exec stop w) = committed w ++ pendingWrites w /\
             _writesToCommitWhenWeReachSteady (exec stop w) = None)
  /\
  (forall w writes rest,
     onFlush w = writes :: rest ->
     step options w (flushed writes rest w) /\
     committed (flushed writes rest w) = committed w ++ writes /\
     onFlush (flushed writes rest w) = rest)
  /\
  (forall w, exists w',
     steps options (exec _beSteady w) w' /\ onFlush w' = [] /\
     committed w' = committed w ++ List.concat (onFlush w) ++ pendingWrites w)
  /\
  (forall w, reachable options w ->
     exists w', steps options w w' /\ begun w' = begun w /\
                Permutation (begun w) (committed w')).
Proof.
  split; [| split; [| split; [| split; [| split; [| split; [| split; [| split]]]]]]].
  - intros w R. destruct (reachable_accounts _ _ R) as (_ & _ & Held & _).
    split; [exact Held |]. intros write.
    rewrite (Permutation_count_occ Nat.eq_dec) in Held. rewrite (Held write).
    unfold heldWrites. rewrite !count_occ_app. cbv delta [WriteToken]. lia.
  - intros w w' R St. destruct (reachable_accounts _ _ R) as (Alive & _).
    now apply step_writes_move with options.
  - intros w write ws St Ph Ew. unfold fenceWrite. run. rewrite St. run.
    destruct (_phase w); try congruence; cbn [Phase_eqb]; now rewrite Ew.
  - reflexivity.
  - reflexivity.
  - intros w St. unfold exec, stop. run. rewrite St. run.
    rewrite (run_bind _ _ _ _ _ (commit_each _ _)). run. cbn. auto.
  - intros w writes rest E. split; [now apply step_flush |]. split; reflexivity.
  - intros w.
    destruct (flushes_run options (onFlush (exec _beSteady w)) (exec _beSteady w) eq_refl)
      as (w' & S & F & _ & _ & _ & Ec).
    exists w'. split; [exact S |]. split; [exact F |].
    rewrite Ec. cbn. rewrite concat_app. cbn. now rewrite app_nil_r.
  - exact (writes_all_committed options).
Qed.

(** C8. [_runInitialQuery] iterates a cursor built with a limit of twice the
    configured limit and calls [_addMatching] on every document it yields;
    when these calls return, it sets [safeAppendToBuffer] to whether fewer
    than [limit * 2] documents came, then calls [ready] on the multiplexer
    and then [_doneQuerying], which leaves the flag as it is. *)
Theorem runInitialQuery_sets_safeAppend (mongo : Mongo) (w w1 : World) :
  let docs := mongo (_cursorForQuery (_limit * 2)) in
  let fewer := Z.of_nat (List.length docs) <? _limit * 2 in
  let w2 := set_multiplexer (multiplexer w1 ++ [ready])
              (set_safeAppendToBuffer fewer w1) in
  _stopped w = false ->
  forEach docs (_addMatching options) w = (Returned tt, w1) ->
  cursor_limit (_cursorForQuery (_limit * 2)) = 2 * _limit /\
  _runInitialQuery options mongo w = _doneQuerying w2 /\
  _doneQuerying w2
  = (Returned tt, set_scheduled (scheduled w2 ++ [Task_doneQuerying_caughtUp]) w2) /\
  _safeAppendToBuffer (exec (_runInitialQuery options mongo) w) = fewer.
Proof.
  intros docs fewer w2 St Loop.
  assert (St1 : _stopped w1 = false).
  { assert (P : preserves (progress options) (forEach docs (_addMatching options)))
      by (apply preserves_forEach; intros; apply addMatching_progress).
    specialize (P w). unfold exec in P. rewrite Loop in P. cbn [snd] in P.
    rewrite (stopped_same _ _ _ P). exact St. }
  assert (Run : _runInitialQuery options mongo w = _doneQuerying w2).
  { unfold _runInitialQuery, emit. run. rewrite St.
    fold docs. rewrite (run_bind _ _ _ _ _ Loop). run.
    cbn [_stopped set_safeAppendToBuffer]. rewrite St1. run. reflexivity. }
  assert (Done : _doneQuerying w2
                 = (Returned tt,
                    set_scheduled (scheduled w2 ++ [Task_doneQuerying_caughtUp]) w2)).
  { unfold _doneQuerying, defer. run. subst w2. cbn [_stopped set_multiplexer
      set_safeAppendToBuffer]. rewrite St1. reflexivity. }
  repeat split; try assumption.
  - unfold _cursorForQuery. cbn [cursor_limit]. lia.
  - unfold exec. rewrite Run, Done. reflexivity.
Qed.

(** C4. An update entry that is a modifier, handled in FETCHING or STEADY
    for an id that is neither queued for a fetch nor being fetched.  If no
    field name of the modifier has the marker of a custom type and the id is
    cached, the cached document gets its [_id], the modifier is applied to it,
    and [_handleDoc] is called with the shared projection of the result.
    Otherwise, if the modifier cannot be applied directly or could make the
    selector true, the id is put into [needToFetch] with the timestamp of the
    entry, and a steady driver goes to FETCHING and starts the fetch loop.
    Otherwise nothing changes. *)
Theorem update_by_modifier (w : World) (o : OplogEntry) (p : Heap)
    (nf : IdMap.t string) :
  let id := idForOp options o in
  let cached := IdMap.has id p || (truthy _limit && IdMap.has id (bufferOf w)) in
  let direct := modifierCanBeDirectlyApplied (op_o o) in
  let queued := set_needToFetch (Some (IdMap.set id (op_ts o) nf)) w in
  op_op o = "u" ->
  Obj.has "$set" (op_o o) || Obj.has "$unset" (op_o o) = true ->
  _phase w = FETCHING \/ _phase w = STEADY ->
  _published w = Some p ->
  (_limit <> 0 -> exists b, _unpublishedBuffer w = Some b) ->
  _needToFetch w = Some nf -> IdMap.has id nf = false ->
  (forall cf, _currentlyFetching w = Some cf -> IdMap.has id cf = false) ->
  (direct = true -> cached = true ->
   exists cachedDoc,
     (if IdMap.has id p then IdMap.get id p else IdMap.get id (bufferOf w))
     = Some cachedDoc /\
     _handleOplogEntrySteadyOrFetching options o w =
       match LocalCollection_modify options (Obj.assign "_id" id cachedDoc) (op_o o) with
       | Some modified =>
           _handleDoc options id (Some (sharedProjectionFn options modified)) w
       | None => (Thrown Err_modify, w)
       end)
  /\
  (direct = false \/ cached = false ->
   direct = false \/ canBecomeTrueByModifier options (op_o o) = true ->
   _handleOplogEntrySteadyOrFetching options o w =
     (Returned tt,
      match _phase w with
      | STEADY => set_scheduled (scheduled w ++ [Task_fetchLoop]) (set_phase FETCHING queued)
      | _ => queued
      end))
  /\
  (direct = true -> cached = false ->
   canBecomeTrueByModifier options (op_o o) = false ->
   _handleOplogEntrySteadyOrFetching options o w = (Returned tt, w)).
Proof.
  intros id cached direct queued Hu Hmod Hph Hp Hb Hnf Hq Hcf.
  assert (Start :
    _handleOplogEntrySteadyOrFetching options o w =
    (if cached && direct then
       isPublished <- queryPublished (IdMap.has id) ;;
       cachedDoc <- (if isPublished then queryPublished (IdMap.get id)
                     else queryBuffer (IdMap.get id)) ;;
       match cachedDoc with
       | None => throw TypeError
       | Some newDoc =>
           match LocalCollection_modify options (Obj.assign "_id" id newDoc) (op_o o) with
           | None => throw Err_modify
           | Some modified =>
               _handleDoc options id (Some (sharedProjectionFn options modified))
           end
       end
     else if negb direct || canBecomeTrueByModifier options (op_o o) then
       mutateNeedToFetch (IdMap.set id (op_ts o)) ;;
       phase <- gets _phase ;;
       when (Phase_eqb phase STEADY) _fetchModifiedDocuments
     else ret tt) w).
  { unfold _handleOplogEntrySteadyOrFetching. fold id. run.
    assert (Already :
      (if Phase_eqb (_phase w) FETCHING
       then cf <- gets _currentlyFetching ;;
            if match cf with Some m => IdMap.has id m | None => false end
            then ret true else queryNeedToFetch (IdMap.has id)
       else ret false) w = (Returned false, w)).
    { destruct (Phase_eqb (_phase w) FETCHING); [| reflexivity]. run.
      destruct (_currentlyFetching w) as [cf |] eqn:Ecf.
      - rewrite (Hcf cf eq_refl). erewrite run_queryNeedToFetch by eassumption.
        now rewrite Hq.
      - erewrite run_queryNeedToFetch by eassumption. now rewrite Hq. }
    rewrite (run_bind _ _ _ _ _ Already).
    rewrite Hu. cbn [String.eqb Ascii.eqb Bool.eqb andb].
    replace (negb (Obj.has "$set" (op_o o)) && negb (Obj.has "$unset" (op_o o)))
      with false by (destruct (Obj.has "$set" (op_o o)), (Obj.has "$unset" (op_o o));
                     cbn in *; congruence).
    cbn [negb andb]. fold direct. run.
    assert (Buffered : limit_and_buffered options id w
                       = (Returned (truthy _limit && IdMap.has id (bufferOf w)), w)).
    { unfold limit_and_buffered, truthy, bufferOf.
      destruct (_limit =? 0) eqn:L; [reflexivity |].
      apply Z.eqb_neq in L. destruct (Hb L) as (b & Eb). rewrite Eb.
      cbn [negb andb]. now erewrite run_queryBuffer by eassumption. }
    rewrite (run_bind _ _ _ _ _ Buffered). fold cached. reflexivity. }
  rewrite Start. split; [| split].
  - intros D C. rewrite D, C. cbn [andb]. run.
    subst cached. unfold bufferOf, truthy in *.
    destruct (IdMap.has id p) eqn:Hid.
    + destruct (proj1 (has_get id p) Hid) as [d Hd]. exists d. split; [exact Hd |].
      run. rewrite Hd. now destruct (LocalCollection_modify options _ _).
    + cbn [orb] in C. apply andb_true_iff in C as [L Hidb].
      apply negb_true_iff, Z.eqb_neq in L. destruct (Hb L) as (b & Eb).
      rewrite Eb in *. destruct (proj1 (has_get id b) Hidb) as [d Hd].
      exists d. split; [exact Hd |]. run. rewrite Hd.
      now destruct (LocalCollection_modify options _ _).
  - intros N F.
    replace (cached && direct) with false
      by (destruct N as [-> | ->]; [now rewrite andb_false_r | reflexivity]).
    replace (negb direct || canBecomeTrueByModifier options (op_o o)) with true
      by (destruct F as [-> | ->]; [reflexivity | now rewrite orb_true_r]).
    unfold mutateNeedToFetch, bind at 1. rewrite Hnf. fold queued. run.
    subst queued. cbn [_phase set_needToFetch].
    destruct Hph as [-> | ->]; reflexivity.
  - intros D C F. rewrite D, C, F. reflexivity.
Qed.


End Correctness.


(** ** Worked examples *)

Lemma byN_antisym lim (a b : Doc) :
  comparator (Example.options lim) a (Some b) < 0 ->
  0 <= comparator (Example.options lim) b (Some a).
Proof. cbn. lia. Qed.

Lemma byN_projection lim (a b : Doc) :
  comparator (Example.options lim) a (Some (sharedProjectionFn (Example.options lim) b))
  = comparator (Example.options lim) a (Some b).
Proof. reflexivity. Qed.

(** With [limit = 2], documents 1 and 2 published and document 3 buffered,
    document 2 changes to [n = 35]: it leaves the published set, document 3
    is promoted, and the changed document is dropped, since appending to the
    buffer is not safe and the buffer is empty by then. *)
Lemma handleDoc_follows_table_witness :
  let o := Example.options 2 in
  let w := Example.world [Example.entry 1 10; Example.entry 2 20]
             [Example.entry 3 30] false STEADY in
  _handleDoc o (VNum 2) (Some (Example.doc 2 35)) w =
  handleDoc_published_rule o (VNum 2) (Example.doc 2 35) w.
Proof.
  intros o w.
  exact (proj1 (handleDoc_follows_table o w (VNum 2) (Example.doc 2 35)
                  [Example.entry 1 10; Example.entry 2 20] eq_refl eq_refl
                  (fun _ => ex_intro _ [Example.entry 3 30] eq_refl))
           eq_refl).
Defined.

(** C7 as stated fails: with [limit = 1], document 1 ([n = 10]) published
    and document 3 ([n = 30]) buffered, both invariants hold; adding document
    2 with [n = 20] makes it the greatest published document, and
    [_addPublished] takes the branch "The document just added is overflowing
    the published set". *)
Lemma addPublished_reaches_error_branch :
  let o := Example.options 1 in
  let w := Example.world [Example.entry 1 10] [Example.entry 3 30] false STEADY in
  0 < limit o /\
  IdMap.size (publishedOf w) <= limit o /\
  caches_ordered o w /\
  outcome (_addPublished o (VNum 2) (Example.doc 2 20)) w
    = Thrown Err_justAddedOverflowing.
Proof.
  cbn zeta. repeat split; try (cbn; lia).
  intros pd bd [<- | []] [<- | []]. cbn. lia.
Qed.

(** The same world, with a document that sorts before document 1: document 1
    is evicted to the buffer and the call returns. *)
Lemma addPublished_overflow_evicts_one_witness :
  let o := Example.options 1 in
  let w := Example.world [Example.entry 1 10] [Example.entry 3 30] false STEADY in
  outcome (_addPublished o (VNum 2) (Example.doc 2 5)) w = Returned tt.
Proof.
  intros o w.
  destruct (addPublished_overflow_evicts_one o w (VNum 2) (Example.doc 2 5)
              [Example.entry 1 10] eq_refl eq_refl (conj eq_refl I))
    as (_ & _ & Over).
  - cbn. lia.
  - destruct Over as (_ & g & gd & Eg & Eget & _ & Below & _); [cbn; lia |].
    subst g. cbn in Eget. injection Eget as <-.
    destruct Below as (_ & _ & Run); [cbn; lia |].
    unfold outcome. rewrite Run. reflexivity.
Defined.

(** In [Example.steady] the buffer is empty, the initial query having
    dropped documents 3 and 4; removing the published document 1 ends in the
    assertion of [_removePublished], "At this phase, buffer can be empty only
    if published contains the whole matching set". *)
Lemma removePublished_finds_buffer_empty :
  _unpublishedBuffer Example.steady = Some [] /\
  outcome (_removeMatching (Example.options 2) (VNum 1)) Example.steady
  = Thrown Err_bufferEmptyAtThisPhase.
Proof. split; reflexivity. Qed.


(** [Example.steady] is a world the driver reaches: the constructor, then the
    deferred initial query, then the resumption of [_doneQuerying]. *)
Lemma steady_reachable : reachable (Example.options 2) Example.steady.
Proof.
  assert (C : exists w0, OplogObserveDriver (Example.options 2) = Returned w0 /\
                         scheduled w0 = [] ++ Task_runInitialQuery :: [])
    by (eexists; split; reflexivity).
  destruct C as (w0 & C & E0).
  pose proof (reachable_constructed _ _ C) as R0.
  pose proof (step_task (Example.options 2) (Example.mongo Example.fourDocs)
                Task_runInitialQuery [] [] w0 E0) as S1.
  pose proof (reachable_step _ _ _ R0 S1) as R1.
  unfold Example.steady. rewrite C.
  refine (reachable_step _ _ _ R1
            (step_task (Example.options 2) (Example.mongo Example.fourDocs)
               Task_doneQuerying_caughtUp [] [] _ _)).
  injection C as <-. reflexivity.
Qed.

(** In [Example.steady] two [added] calls were made, for documents 1 and 2. *)
Lemma added_fields_without_id_witness :
  Obj.has "_id" [("n", VNum 10)] = false.
Proof.
  exact (proj2 (added_fields_without_id (Example.options 2) Example.steady
                  (VNum 1) [("n", VNum 10)] (fun d H => H) steady_reachable
                  (or_introl eq_refl))).
Defined.

Lemma fetchGeneration_cancels_rounds_witness :
  _fetchGeneration (exec _pollQuery Example.steady)
  = _fetchGeneration Example.steady + 1.
Proof.
  exact (proj1 (proj2 (proj2 (fetchGeneration_cancels_rounds (Example.options 2))))
           Example.steady eq_refl).
Defined.

(** [fenced] is a world the driver reaches. *)
Lemma fenced_reachable : reachable (Example.options 2) fenced.
Proof.
  unfold fenced.
  set (w1 := exec (onListen (Some 7%nat)) Example.steady).
  set (w2 := exec (fenceWrite 7%nat) (set_scheduled [] w1)).
  assert (R1 : reachable (Example.options 2) w1)
    by exact (reachable_step _ _ _ steady_reachable (step_listen _ _ _)).
  assert (R2 : reachable (Example.options 2) w2)
    by exact (reachable_step _ _ _ R1
                (step_task _ (Example.mongo []) (Task_fenceWrite 7%nat) [] [] w1 eq_refl)).
  assert (R3 : reachable (Example.options 2) (flushed [] [[7%nat]] w2))
    by exact (reachable_step _ _ _ R2 (step_flush _ [] [[7%nat]] w2 eq_refl)).
  exact (reachable_step _ _ _ R3 (step_listen _ _ _)).
Qed.

(** In [fenced] the writes 7 and 8 are held, and when the multiplexer runs
    the callback of write 7, write 7 is committed. *)
Lemma writes_committed_once_witness :
  Permutation [7%nat; 8%nat] (heldWrites fenced) /\
  committed (flushed [7%nat] [] fenced) = [7%nat].
Proof.
  split.
  - exact (proj1 (proj1 (writes_committed_once (Example.options 2))
                    fenced fenced_reachable)).
  - exact (proj1 (proj2 (proj1 (proj2 (proj2 (proj2 (proj2 (proj2 (proj2
             (writes_committed_once (Example.options 2))))))))
             fenced [7%nat] [] eq_refl))).
Defined.

(** [Projecting.steady] is a world the driver reaches. *)
Lemma projecting_steady_reachable : reachable Projecting.options Projecting.steady.
Proof.
  assert (C : exists w0, OplogObserveDriver Projecting.options = Returned w0 /\
                         scheduled w0 = [] ++ Task_runInitialQuery :: [])
    by (eexists; split; reflexivity).
  destruct C as (w0 & C & E0).
  pose proof (reachable_constructed _ _ C) as R0.
  pose proof (step_task Projecting.options Projecting.mongo
                Task_runInitialQuery [] [] w0 E0) as S1.
  pose proof (reachable_step _ _ _ R0 S1) as R1.
  unfold Projecting.steady. rewrite C.
  refine (reachable_step _ _ _ R1
            (step_task Projecting.options Projecting.mongo
               Task_doneQuerying_caughtUp [] [] _ _)).
  injection C as <-. reflexivity.
Qed.

(** C1 does not hold of the driver.  With the cursor of [Projecting]
    ([limit = 1], sorted by [n] and then [m], [n] not among the fields) the
    driver reaches [Projecting.steady] with document 1 published, stored
    without its [n].  The insertion of document 2 passes the test of
    [_addMatching], which compares the document as the oplog has it with
    what is stored of document 1; [_addPublished] stores the document
    without its [n], and so stored it sorts after document 1: the branch "The
    document just added is overflowing the published set" is taken.  The
    driver is left running with two documents published, and its observers
    were told of both. *)
Theorem published_exceeds_limit :
  let o := Projecting.options in
  let w := Projecting.steady in
  let w' := Projecting.overflowed in
  limit o = 1 /\
  reachable o w /\
  publishedOf w = [(VNum 1, [("_id", VNum 1); ("m", VNum 1)])] /\
  comparator o (Projecting.doc 2 20 5) (maxElement o (publishedOf w)) < 0 /\
  step o w w' /\
  reachable o w' /\
  outcome (onOplogEntry o Projecting.insertion) w = Thrown Err_justAddedOverflowing /\
  _stopped w' = false /\
  publishedOf w' = [(VNum 1, [("_id", VNum 1); ("m", VNum 1)]);
                    (VNum 2, [("_id", VNum 2); ("m", VNum 5)])] /\
  IdMap.size (publishedOf w') = 2 /\
  multiplexer w' = multiplexer w ++ [added (VNum 2) [("m", VNum 5)]].
Proof.
  cbv zeta.
  assert (S : step Projecting.options Projecting.steady Projecting.overflowed)
    by apply step_oplog.
  pose proof projecting_steady_reachable as R.
  repeat split; try reflexivity; try assumption.
  exact (reachable_step _ _ _ R S).
Qed.

(** [Example.steady], reached with [limit = 2], has at most two documents
    published. *)
Lemma published_within_limit_witness :
  IdMap.size (publishedOf Example.steady) <= 2.
Proof.
  exact (proj2 (proj1 (published_within_limit (Example.options 2) (byN_antisym 2)
                         (byN_projection 2) eq_refl)
                  Example.steady steady_reachable)).
Defined.

(** With [limit = 2] and the four documents of [Example.fourDocs] the initial
    query fetches four documents, and the flag ends up false. *)
Lemma runInitialQuery_sets_safeAppend_witness :
  let o := Example.options 2 in
  let w := Example.world [] [] false QUERYING in
  _safeAppendToBuffer (exec (_runInitialQuery o (Example.mongo Example.fourDocs)) w)
  = false.
Proof.
  intros o w.
  exact (proj2 (proj2 (proj2
    (runInitialQuery_sets_safeAppend o (Example.mongo Example.fourDocs) w
       (exec (forEach (Example.mongo Example.fourDocs (_cursorForQuery (limit o * 2)))
                (_addMatching o)) w)
       eq_refl eq_refl)))).
Defined.

(** In [Example.steady] an update of document 7, which is not cached, by a
    modifier with the field name of a custom type: the id is queued for a
    fetch and the driver goes to FETCHING. *)
Lemma update_by_modifier_witness :
  let o := Example.options 2 in
  let e := {| op_op := "u";
              op_o := [("$set", VObj [("EJSON$value", VNum 1)])];
              op_o2 := [("_id", VNum 7)];
              op_ts := "ts1" |} in
  let queued := set_needToFetch (Some [(VNum 7, "ts1")]) Example.steady in
  _handleOplogEntrySteadyOrFetching o e Example.steady
  = (Returned tt,
     set_scheduled [Task_fetchLoop] (set_phase FETCHING queued)).
Proof.
  intros o e queued.
  refine (proj1 (proj2
    (update_by_modifier o Example.steady e
       [Example.entry 1 10; Example.entry 2 20] [] eq_refl eq_refl
       (or_intror eq_refl) eq_refl _ eq_refl eq_refl _))
    (or_introl eq_refl) (or_introl eq_refl)).
  - intros _. exists []. reflexivity.
  - intros cf H. discriminate H.
Defined.

(** * Further properties of the driver *)

(** ** Which cursors the driver accepts *)

Lemma cursor_options_pass (options : CursorDescriptionOptions) :
  truthy (opt_skip options) ||
  (truthy (opt_limit options) &&
   negb (match opt_sort options with Some _ => true | None => false end)) = false
  <-> opt_skip options = 0 /\ (opt_limit options <> 0 -> opt_sort options <> None).
Proof.
  unfold truthy.
  destruct (Z.eqb_spec (opt_skip options) 0) as [S | S]; cbn [negb orb].
  2:{ split; [discriminate | intros [? _]; contradiction]. }
  destruct (Z.eqb_spec (opt_limit options) 0) as [L | L]; cbn [negb andb].
  { split; [intros _; split; [assumption | contradiction] | auto]. }
  destruct (opt_sort options); cbn.
  - split; [intros _; split; [assumption | discriminate] | auto].
  - split; [discriminate | intros [_ H]; now destruct (H L)].
Qed.

(** [cursorSupported] answers true exactly for a cursor that is not opted
    out, skips nothing, has a sort whenever it has a limit, has a projection
    minimongo supports (if it has one), and whose selector has neither
    [$where] nor a geo query. *)
Theorem cursorSupported_true_iff check options matcher :
  cursorSupported check options matcher = Normal true <->
  opt_disableOplog options = false /\
  opt_skip options = 0 /\
  (opt_limit options <> 0 -> opt_sort options <> None) /\
  (forall fields, opt_fields options = Some fields -> check fields = None) /\
  hasWhere matcher = false /\ hasGeoQuery matcher = false.
Proof.
  unfold cursorSupported.
  destruct (opt_disableOplog options).
  { split; [discriminate | intros (H & _); discriminate]. }
  destruct (truthy _ || _) eqn:G.
  { split; [discriminate |]. intros (_ & S & L & _).
    pose proof (proj2 (cursor_options_pass options) (conj S L)). congruence. }
  apply cursor_options_pass in G as [S L].
  assert (Matcher_ok :
    Normal (negb (hasWhere matcher) && negb (hasGeoQuery matcher)) = Normal true <->
    hasWhere matcher = false /\ hasGeoQuery matcher = false).
  { destruct (hasWhere matcher), (hasGeoQuery matcher); cbn;
      (split; [try discriminate; auto | intros [? ?]; try discriminate; reflexivity]). }
  destruct (opt_fields options) as [fields |].
  - destruct (check fields) as [e |] eqn:C.
    + split.
      * destruct (String.eqb _ _); discriminate.
      * intros (_ & _ & _ & H & _). specialize (H fields eq_refl). congruence.
    + rewrite Matcher_ok. split.
      * intros [W Q]. repeat split; auto. now intros f [= <-].
      * intros (_ & _ & _ & _ & W & Q). auto.
  - rewrite Matcher_ok. split.
    + intros [W Q]. repeat split; auto. discriminate.
    + intros (_ & _ & _ & _ & W & Q). auto.
Qed.

(** [cursorSupported] throws exactly when the first tests pass and the
    projection check throws something that is not a MinimongoError, and it
    throws that same exception; a MinimongoError is never passed on. *)
Theorem cursorSupported_throws_iff check options matcher e :
  cursorSupported check options matcher = Abrupt e <->
  opt_disableOplog options = false /\
  opt_skip options = 0 /\
  (opt_limit options <> 0 -> opt_sort options <> None) /\
  (exists fields, opt_fields options = Some fields /\ check fields = Some e) /\
  error_name e <> "MinimongoError".
Proof.
  unfold cursorSupported.
  destruct (opt_disableOplog options).
  { split; [discriminate | intros (H & _); discriminate]. }
  destruct (truthy _ || _) eqn:G.
  { split; [discriminate |]. intros (_ & S & L & _).
    pose proof (proj2 (cursor_options_pass options) (conj S L)). congruence. }
  apply cursor_options_pass in G as [S L].
  destruct (opt_fields options) as [fields |].
  2:{ split; [discriminate | intros (_ & _ & _ & (f & H & _) & _); discriminate]. }
  destruct (check fields) as [e' |] eqn:C.
  2:{ split; [discriminate |].
      intros (_ & _ & _ & (f & [= <-] & H) & _). congruence. }
  destruct (String.eqb_spec (error_name e') "MinimongoError") as [N | N].
  - split; [discriminate |].
    intros (_ & _ & _ & (f & [= <-] & H) & N'). congruence.
  - split.
    + intros [= <-]. repeat split; eauto.
    + intros (_ & _ & _ & (f & [= <-] & H) & _). congruence.
Qed.

(** ** Modifiers that can be applied to a cached document *)

Lemma prefix_append (p s : string) :
  String.prefix p s = true <-> exists rest, s = String.append p rest.
Proof.
  revert s. induction p as [| a p IH]; intros s.
  - split; [intros _; now exists s | intros _; now destruct s].
  - destruct s as [| b s]; cbn.
    + split; [discriminate | intros [rest H]; discriminate].
    + destruct (ascii_dec a b) as [-> | N].
      * rewrite IH. split; intros [rest H]; exists rest; congruence.
      * split; [discriminate | intros [rest H]; congruence].
Qed.

(** The test [/pattern/.test(s)] of a pattern without metacharacters holds
    exactly when [s] has the pattern somewhere inside. *)
Lemma occurs_in_inside (p s : string) :
  occurs_in p s = true <->
  exists before after, s = String.append before (String.append p after).
Proof.
  induction s as [| c r IH].
  - cbn [occurs_in]. rewrite orb_false_r, prefix_append. split.
    + intros [rest H]. now exists EmptyString, rest.
    + intros (before & after & H). destruct before; [| discriminate].
      now exists after.
  - cbn [occurs_in]. rewrite orb_true_iff, prefix_append, IH. split.
    + intros [[rest H] | (before & after & H)].
      * now exists EmptyString, rest.
      * exists (String c before), after. cbn. now rewrite H.
    + intros (before & after & H). destruct before as [| c' before]; cbn in H.
      * left. now exists after.
      * right. exists before, after. congruence.
Qed.

(** [modifierCanBeDirectlyApplied] refuses a modifier exactly when one of its
    operators has an object argument with a field name that contains
    [EJSON$]; operators with other arguments are never an obstacle. *)
Theorem modifier_refused_iff (modifier : Doc) :
  modifierCanBeDirectlyApplied modifier = false <->
  exists operation fields field value before after,
    In (operation, VObj fields) modifier /\ In (field, value) fields /\
    field = String.append before (String.append "EJSON$" after).
Proof.
  unfold modifierCanBeDirectlyApplied. split.
  - intros H.
    assert (X : exists x, In x modifier /\
                match snd x with
                | VObj fields =>
                    forallb (fun field => negb (occurs_in "EJSON$" (fst field))) fields
                | _ => true
                end = false).
    { induction modifier as [| x r IH]; cbn in H; [discriminate |].
      apply andb_false_iff in H as [H | H].
      - exists x. split; [now left | exact H].
      - destruct (IH H) as (y & I & Hy). exists y. split; [now right | exact Hy]. }
    destruct X as ([operation v] & I & Hv). cbn [snd] in Hv.
    destruct v as [| | | | | fields]; try discriminate.
    assert (Y : exists y, In y fields /\ occurs_in "EJSON$" (fst y) = true).
    { clear I. induction fields as [| y r IH]; cbn in Hv; [discriminate |].
      apply andb_false_iff in Hv as [H' | H'].
      - exists y. split; [now left | now apply negb_false_iff].
      - destruct (IH H') as (z & I & Hz). exists z. split; [now right | exact Hz]. }
    destruct Y as ([field value] & I' & Hf). cbn [fst] in Hf.
    apply occurs_in_inside in Hf as (before & after & Hf).
    now exists operation, fields, field, value, before, after.
  - intros (operation & fields & field & value & before & after & I & I' & E).
    apply not_true_iff_false. intros H.
    rewrite forallb_forall in H. specialize (H _ I). cbn [snd] in H.
    rewrite forallb_forall in H. specialize (H _ I'). cbn [fst] in H.
    apply negb_true_iff in H.
    assert (occurs_in "EJSON$" field = true)
      by (apply occurs_in_inside; now exists before, after).
    congruence.
Qed.

(** ** How a poll divides what the cursor returns *)

Lemma splitResults_unlimited options docs i newResults newBuffer :
  limit options = 0 ->
  splitResults options docs i newResults newBuffer
  = (storedById docs newResults, newBuffer).
Proof.
  intros L. revert i newResults.
  induction docs as [| doc r IH]; intros i newResults; cbn; [reflexivity |].
  unfold truthy. rewrite L. cbn. apply IH.
Qed.

Lemma splitResults_from options docs i newResults newBuffer :
  limit options <> 0 -> 0 <= i ->
  splitResults options docs i newResults newBuffer
  = (storedById (firstn (Z.to_nat (limit options - i)) docs) newResults,
     storedById (skipn (Z.to_nat (limit options - i)) docs) newBuffer).
Proof.
  intros L. revert i newResults newBuffer.
  induction docs as [| doc r IH]; intros i newResults newBuffer I.
  - cbn. now rewrite firstn_nil, skipn_nil.
  - cbn [splitResults]. unfold truthy.
    destruct (Z.eqb_spec (limit options) 0) as [| _]; [contradiction |].
    cbn [negb orb]. destruct (Z.ltb_spec i (limit options)) as [Lt | Ge].
    + rewrite IH by lia.
      replace (Z.to_nat (limit options - i))
        with (S (Z.to_nat (limit options - (i + 1)))) by lia.
      reflexivity.
    + rewrite IH by lia.
      replace (Z.to_nat (limit options - i)) with 0%nat by lia.
      replace (Z.to_nat (limit options - (i + 1))) with 0%nat by lia.
      reflexivity.
Qed.

Lemma storedById_size docs (m : IdMap.t Doc) :
  IdMap.size (storedById docs m) <= IdMap.size m + Z.of_nat (List.length docs).
Proof.
  revert m. induction docs as [| doc r IH]; intros m; cbn; [lia |].
  specialize (IH (IdMap.set (doc_id doc) doc m)).
  pose proof (size_set_le (doc_id doc) doc m). unfold storedById in *. lia.
Qed.

(** The deferred body of [_pollQuery] stores the first [limit] documents of
    the cursor in [newResults] and the others in [newBuffer], each under its
    [_id]; for a query without a limit they all go to [newResults].  So
    [newResults] never holds more than [limit] documents of a limited query,
    and [newBuffer] holds at most [limit] when the cursor returns no more
    than the [2 * limit] it was asked for. *)
Theorem splitResults_first_limit options (docs : list Doc) :
  let n := Z.to_nat (limit options) in
  let split := splitResults options docs 0 [] [] in
  split = (if limit options =? 0 then (storedById docs [], [])
           else (storedById (firstn n docs) [], storedById (skipn n docs) []))
  /\ (0 < limit options -> IdMap.size (fst split) <= limit options)
  /\ (0 < limit options -> Z.of_nat (List.length docs) <= 2 * limit options ->
      IdMap.size (snd split) <= limit options).
Proof.
  cbn zeta.
  assert (E : splitResults options docs 0 [] [] =
              if limit options =? 0 then (storedById docs [], [])
              else (storedById (firstn (Z.to_nat (limit options)) docs) [],
                    storedById (skipn (Z.to_nat (limit options)) docs) [])).
  { destruct (Z.eqb_spec (limit options) 0) as [L | L].
    - now apply splitResults_unlimited.
    - rewrite splitResults_from by lia. now rewrite Z.sub_0_r. }
  split; [exact E |]. rewrite E.
  split; intros L.
  - destruct (Z.eqb_spec (limit options) 0); [lia |]. cbn [fst].
    pose proof (storedById_size (firstn (Z.to_nat (limit options)) docs) []) as S.
    pose proof (firstn_le_length (Z.to_nat (limit options)) docs).
    unfold IdMap.size in *. cbn [List.length] in S. lia.
  - intros N. destruct (Z.eqb_spec (limit options) 0); [lia |]. cbn [snd].
    pose proof (storedById_size (skipn (Z.to_nat (limit options)) docs) []) as S.
    rewrite length_skipn in S.
    unfold IdMap.size in *. cbn [List.length] in S. lia.
Qed.

(** ** The buffer never holds more than [limit] documents *)

Section BufferLimit.

Variable options : Options.
Hypothesis limited : 0 < limit options.

#[local] Instance keeps_buffer_limit_preorder : PreOrder (keeps_buffer_limit options).
Proof.
  split; [intros w; unfold keeps_buffer_limit; tauto |].
  intros a b c; unfold keeps_buffer_limit; tauto.
Qed.

Lemma buffer_shrinks_keeps w b b' :
  _unpublishedBuffer w = Some b -> IdMap.size b' <= IdMap.size b ->
  keeps_buffer_limit options w (set_unpublishedBuffer (Some b') w).
Proof.
  intros Hb S Inv b0 Hb0. cbn in Hb0. injection Hb0 as <-.
  specialize (Inv b Hb). lia.
Qed.

(** An assignment to a field other than the buffer. *)
Ltac buffer_elsewhere :=
  unfold keeps_buffer_limit, buffer_within_limit; cbn;
  let Inv := fresh "Inv" in let b' := fresh "b'" in let Hb' := fresh "Hb'" in
  intros Inv b' Hb'; first [discriminate | exact (Inv b' Hb')].

Create HintDb buffer_limit.

Ltac settle_buffer :=
  first
    [ solve [eauto with buffer_limit]
    | buffer_elsewhere
    | eapply buffer_shrinks_keeps;
      [eassumption
      | first [apply size_remove_le | cbn; apply size_nonneg]] ].

Ltac by_buffer := along_code settle_buffer.

Lemma addBuffered_keeps_buffer_limit id doc :
  preserves (keeps_buffer_limit options) (_addBuffered options id doc).
Proof.
  intros w Inv. unfold exec, _addBuffered.
  destruct (_unpublishedBuffer w) as [b |] eqn:Hb;
    [| unfold bind, mutateBuffer; rewrite Hb; exact Inv].
  run. set (b1 := IdMap.set id _ b).
  pose proof (size_set_le id (sharedProjectionFn options doc) b) as S.
  fold b1 in S. specialize (Inv b Hb).
  destruct (Z.ltb_spec (limit options) (IdMap.size b1)) as [Over | Fits]; cbn [when].
  - run. intros b' Hb'. cbn in Hb'. injection Hb' as <-.
    assert (N : b1 <> []).
    { intros E. rewrite E in Over. cbn in Over. lia. }
    destruct (maxElementId_In (comparator options) b1 N) as [d I].
    apply In_has in I. pose proof (size_remove_present _ _ I). lia.
  - intros b' Hb'. cbn in Hb'. injection Hb' as <-. lia.
Qed.
#[local] Hint Resolve addBuffered_keeps_buffer_limit : buffer_limit.

Lemma removeBuffered_keeps_buffer_limit id :
  preserves (keeps_buffer_limit options) (_removeBuffered id).
Proof. unfold _removeBuffered, _needToPollQuery, _pollQuery,
         _registerPhaseChange, defer. by_buffer. Qed.
#[local] Hint Resolve removeBuffered_keeps_buffer_limit : buffer_limit.

Lemma emit_keeps_buffer_limit c : preserves (keeps_buffer_limit options) (emit c).
Proof. unfold emit. by_buffer. Qed.
#[local] Hint Resolve emit_keeps_buffer_limit : buffer_limit.

Lemma addPublished_keeps_buffer_limit id doc :
  preserves (keeps_buffer_limit options) (_addPublished options id doc).
Proof. unfold _addPublished. by_buffer. Qed.
#[local] Hint Resolve addPublished_keeps_buffer_limit : buffer_limit.

Lemma removePublished_keeps_buffer_limit id :
  preserves (keeps_buffer_limit options) (_removePublished options id).
Proof. unfold _removePublished. by_buffer. Qed.
#[local] Hint Resolve removePublished_keeps_buffer_limit : buffer_limit.

Lemma changePublished_keeps_buffer_limit id oldDoc newDoc :
  preserves (keeps_buffer_limit options) (_changePublished options id oldDoc newDoc).
Proof. unfold _changePublished. by_buffer. Qed.
#[local] Hint Resolve changePublished_keeps_buffer_limit : buffer_limit.

Lemma addMatching_keeps_buffer_limit doc :
  preserves (keeps_buffer_limit options) (_addMatching options doc).
Proof. unfold _addMatching, limit_and_buffered. by_buffer. Qed.
#[local] Hint Resolve addMatching_keeps_buffer_limit : buffer_limit.

Lemma removeMatching_keeps_buffer_limit id :
  preserves (keeps_buffer_limit options) (_removeMatching options id).
Proof. unfold _removeMatching. by_buffer. Qed.
#[local] Hint Resolve removeMatching_keeps_buffer_limit : buffer_limit.

Lemma handleDoc_stillMatching_keeps_buffer_limit (w : World) id newDoc pb bb :
  (forall b, _unpublishedBuffer w = Some b -> IdMap.has id b = bb) ->
  buffer_within_limit options w ->
  buffer_within_limit options
    (exec (_handleDoc_stillMatching options id newDoc pb bb) w).
Proof.
  intros Hbb Inv. destruct pb.
  - assert (K : preserves (keeps_buffer_limit options)
                  (_handleDoc_stillMatching options id newDoc true bb))
      by (unfold _handleDoc_stillMatching; by_buffer).
    exact (K w Inv).
  - unfold exec, _handleDoc_stillMatching.
    destruct (_published w) as [p |] eqn:Hp;
      [| unfold bind, queryPublished; rewrite Hp; exact Inv].
    run. rewrite (truthy_limit options limited).
    destruct (_unpublishedBuffer w) as [b |] eqn:Eb;
      [| unfold bind, queryBuffer; cbn; rewrite Eb; exact Inv].
    run.
    assert (Min : exists m,
              (if truthy (IdMap.size b) then queryBuffer (minElement options)
               else ret None) w = (Returned m, w)).
    { destruct (truthy (IdMap.size b));
        [exists (minElement options b); now apply run_queryBuffer
        | exists None; reflexivity]. }
    destruct Min as (m & Min). rewrite (run_bind _ _ _ _ _ Min).
    specialize (Hbb b eq_refl). destruct bb; [| exact Inv].
    run. cbn [_safeAppendToBuffer set_unpublishedBuffer].
    set (w1 := set_unpublishedBuffer _ w).
    pose proof (size_remove_present _ _ Hbb) as Less.
    pose proof (Inv b Eb) as Bound.
    assert (Inv1 : buffer_within_limit options w1).
    { intros b' Hb'. cbn in Hb'. injection Hb' as <-. lia. }
    assert (Mb : exists mb,
              (if IdMap.size (IdMap.remove id b) =? 0 then ret None
               else queryBuffer (maxElement options)) w1 = (Returned mb, w1)).
    { destruct (IdMap.size (IdMap.remove id b) =? 0);
        [exists None; reflexivity
        | exists (maxElement options (IdMap.remove id b)); now apply run_queryBuffer]. }
    destruct Mb as (mb & Mb). rewrite (run_bind _ _ _ _ _ Mb). run.
    destruct (comparator options newDoc (maxElement options p) <? 0);
      cbn [negb andb orb].
    + now apply addPublished_keeps_buffer_limit.
    + destruct (_ || fitsBelow options newDoc mb); [| exact Inv1].
      unfold mutateBuffer. cbn. intros b' Hb'. cbn in Hb'. injection Hb' as <-.
      pose proof (size_set_le id newDoc (IdMap.remove id b)). lia.
Qed.

Lemma handleDoc_keeps_buffer_limit id newDoc :
  preserves (keeps_buffer_limit options) (_handleDoc options id newDoc).
Proof.
  intros w Inv. unfold exec, _handleDoc.
  destruct (_published w) as [p |] eqn:Hp;
    [| unfold bind, queryPublished; rewrite Hp; exact Inv].
  run. unfold limit_and_buffered. rewrite (truthy_limit options limited).
  destruct (_unpublishedBuffer w) as [b |] eqn:Eb;
    [| unfold bind, queryBuffer; cbn; rewrite Eb; exact Inv].
  run.
  destruct newDoc as [d |].
  - destruct (documentMatches options d && negb (IdMap.has id p || IdMap.has id b)).
    { now apply addMatching_keeps_buffer_limit. }
    destruct ((IdMap.has id p || IdMap.has id b) && negb (documentMatches options d)).
    { now apply removeMatching_keeps_buffer_limit. }
    destruct ((IdMap.has id p || IdMap.has id b) && documentMatches options d);
      [| exact Inv].
    apply handleDoc_stillMatching_keeps_buffer_limit; [| exact Inv].
    intros b' Hb'. congruence.
  - cbn [andb]. destruct ((IdMap.has id p || IdMap.has id b) && negb false);
      [now apply removeMatching_keeps_buffer_limit |].
    now destruct ((IdMap.has id p || IdMap.has id b) && false).
Qed.
#[local] Hint Resolve handleDoc_keeps_buffer_limit : buffer_limit.

Lemma publishNewResults_keeps_buffer_limit newResults newBuffer :
  preserves (keeps_buffer_limit options)
    (_publishNewResults options newResults newBuffer).
Proof. unfold _publishNewResults. by_buffer. Qed.
#[local] Hint Resolve publishNewResults_keeps_buffer_limit : buffer_limit.

Lemma onOplogEntry_keeps_buffer_limit n :
  preserves (keeps_buffer_limit options) (onOplogEntry options n).
Proof.
  unfold onOplogEntry, _handleOplogEntryQuerying, _handleOplogEntrySteadyOrFetching,
    _needToPollQuery, _pollQuery, _fetchModifiedDocuments, _registerPhaseChange,
    defer, limit_and_buffered.
  by_buffer.
Qed.

Lemma beSteady_keeps_buffer_limit : preserves (keeps_buffer_limit options) _beSteady.
Proof. unfold _beSteady, _registerPhaseChange. by_buffer. Qed.
#[local] Hint Resolve beSteady_keeps_buffer_limit : buffer_limit.

Lemma fetchLoop_keeps_buffer_limit : preserves (keeps_buffer_limit options) fetchLoop.
Proof. unfold fetchLoop. by_buffer. Qed.
#[local] Hint Resolve fetchLoop_keeps_buffer_limit : buffer_limit.

Lemma doneQuerying_keeps_buffer_limit :
  preserves (keeps_buffer_limit options) _doneQuerying.
Proof. unfold _doneQuerying, defer. by_buffer. Qed.
#[local] Hint Resolve doneQuerying_keeps_buffer_limit : buffer_limit.

Lemma runTask_keeps_buffer_limit mongo t :
  preserves (keeps_buffer_limit options) (runTask options mongo t).
Proof.
  destruct t; cbn [runTask].
  - unfold _runInitialQuery. by_buffer.
  - unfold pollQuery_deferred. by_buffer.
  - apply fetchLoop_keeps_buffer_limit.
  - unfold fenceWrite.
    along_code ltac:(first
      [ settle_buffer
      | intros w Inv; unfold exec;
        now destruct (_writesToCommitWhenWeReachSteady w) ]).
  - unfold _doneQuerying_caughtUp, _pollQuery, _fetchModifiedDocuments,
      _registerPhaseChange, defer. by_buffer.
  - unfold fetchLoop_afterWait. by_buffer.
Qed.

Lemma step_keeps_buffer_limit w w' :
  step options w w' -> keeps_buffer_limit options w w'.
Proof.
  intros [n w0 | fence w0 | mongo t before after w0 E | b id err doc w0 _ _
         | w0 | writes rest w0 E].
  - apply onOplogEntry_keeps_buffer_limit.
  - assert (K : preserves (keeps_buffer_limit options) (onListen fence))
      by (unfold onListen, defer; by_buffer).
    apply K.
  - intros Inv. now apply runTask_keeps_buffer_limit.
  - assert (K : preserves (keeps_buffer_limit options)
                  (fetchCallback options (thisGeneration b) id err doc))
      by (unfold fetchCallback, oneLessWaiting, defer; by_buffer).
    apply K.
  - assert (K : preserves (keeps_buffer_limit options) stop)
      by (unfold stop; by_buffer).
    apply K.
  - intros Inv. exact Inv.
Qed.

(** In every world a limited query reaches, the buffer holds at most
    [limit] documents: [_addBuffered] drops the greatest buffered document
    whenever an insertion makes one too many, and a document that changes
    inside the buffer replaces its old version. *)
Theorem buffer_never_exceeds_limit w :
  reachable options w -> IdMap.size (bufferOf w) <= limit options.
Proof.
  intros R.
  assert (Inv : buffer_within_limit options w).
  { induction R as [w E | w w' _ IH S].
    - unfold OplogObserveDriver in E. destruct (ordered options); [discriminate |].
      injection E as <-. intros b Hb. cbn in Hb.
      destruct (truthy (limit options)); [| discriminate].
      injection Hb as <-. cbn. lia.
    - exact (step_keeps_buffer_limit w w' S IH). }
  unfold bufferOf. destruct (_unpublishedBuffer w) as [b |] eqn:Hb;
    [exact (Inv b Hb) | cbn; lia].
Qed.

End BufferLimit.

(** ** A stopped driver is silent *)

#[export] Instance mute_preorder : PreOrder mute.
Proof.
  split; [intros w H; auto |].
  intros a b c Hab Hbc H. destruct (Hab H) as [Hb Mb].
  destruct (Hbc Hb) as [Hc Mc]. split; [exact Hc | congruence].
Qed.

#[export] Instance keeps_tidy_preorder : PreOrder keeps_tidy.
Proof.
  split; [intros w H; exact H |].
  intros a b c Hab Hbc H. exact (Hbc (Hab H)).
Qed.

(** Code that begins with a method call on the published heap ends there
    in a stopped driver. *)
Lemma mutatePublished_first_mute {B} f (k : unit -> M B) :
  preserves mute (bind (mutatePublished f) k).
Proof.
  intros w [St Pn]. unfold exec, bind, mutatePublished. rewrite Pn. cbn.
  split; [split; assumption | reflexivity].
Qed.

Create HintDb mute.

Ltac mute_leaf :=
  let St := fresh "St" in let Pn := fresh "Pn" in
  intros [St Pn]; cbn in *;
  first [congruence | split; [split; first [assumption | reflexivity] | reflexivity]].

Ltac settle_mute := first [solve [eauto with mute] | mute_leaf].
Ltac by_mute := along_code settle_mute.

Lemma addPublished_mute options id doc : preserves mute (_addPublished options id doc).
Proof. apply mutatePublished_first_mute. Qed.

Lemma removePublished_mute options id : preserves mute (_removePublished options id).
Proof. apply mutatePublished_first_mute. Qed.

Lemma changePublished_mute options id oldDoc newDoc :
  preserves mute (_changePublished options id oldDoc newDoc).
Proof. apply mutatePublished_first_mute. Qed.
#[export] Hint Resolve addPublished_mute removePublished_mute changePublished_mute : mute.

Lemma needToPollQuery_mute : preserves mute _needToPollQuery.
Proof. unfold _needToPollQuery, _pollQuery, _registerPhaseChange, defer. by_mute. Qed.
#[export] Hint Resolve needToPollQuery_mute : mute.

Lemma addBuffered_mute options id doc : preserves mute (_addBuffered options id doc).
Proof. unfold _addBuffered. by_mute. Qed.

Lemma removeBuffered_mute id : preserves mute (_removeBuffered id).
Proof. unfold _removeBuffered. by_mute. Qed.
#[export] Hint Resolve addBuffered_mute removeBuffered_mute : mute.

Lemma addMatching_mute options doc : preserves mute (_addMatching options doc).
Proof. unfold _addMatching, limit_and_buffered. by_mute. Qed.

Lemma removeMatching_mute options id : preserves mute (_removeMatching options id).
Proof. unfold _removeMatching. by_mute. Qed.
#[export] Hint Resolve addMatching_mute removeMatching_mute : mute.

Lemma handleDoc_mute options id newDoc : preserves mute (_handleDoc options id newDoc).
Proof.
  unfold _handleDoc, _handleDoc_stillMatching, limit_and_buffered. by_mute.
Qed.
#[export] Hint Resolve handleDoc_mute : mute.

Lemma beSteady_mute : preserves mute _beSteady.
Proof. unfold _beSteady, _registerPhaseChange. by_mute. Qed.
#[export] Hint Resolve beSteady_mute : mute.

Lemma fetchLoop_mute : preserves mute fetchLoop.
Proof. unfold fetchLoop. by_mute. Qed.
#[export] Hint Resolve fetchLoop_mute : mute.

Lemma onOplogEntry_mute options n : preserves mute (onOplogEntry options n).
Proof.
  unfold onOplogEntry, _handleOplogEntryQuerying, _handleOplogEntrySteadyOrFetching,
    _fetchModifiedDocuments, _registerPhaseChange, defer, limit_and_buffered.
  by_mute.
Qed.

(** The initial query of a stopped driver throws before anything else. *)
Lemma runInitialQuery_mute options mongo : preserves mute (_runInitialQuery options mongo).
Proof.
  intros w [St Pn]. unfold exec, _runInitialQuery. run. rewrite St. cbn.
  split; [split; assumption | reflexivity].
Qed.

Lemma runTask_mute options mongo t : preserves mute (runTask options mongo t).
Proof.
  destruct t; cbn [runTask].
  - apply runInitialQuery_mute.
  - unfold pollQuery_deferred, _publishNewResults, _doneQuerying, defer. by_mute.
  - apply fetchLoop_mute.
  - unfold fenceWrite.
    along_code ltac:(first
      [ settle_mute
      | intros w H; unfold exec;
        destruct (_writesToCommitWhenWeReachSteady w);
        (split; [exact H | reflexivity]) ]).
  - unfold _doneQuerying_caughtUp, _pollQuery, _fetchModifiedDocuments,
      _registerPhaseChange, defer. by_mute.
  - unfold fetchLoop_afterWait. by_mute.
Qed.

Lemma step_mute options w w' : step options w w' -> mute w w'.
Proof.
  intros [n w0 | fence w0 | mongo t before after w0 E | b id err doc w0 _ _
         | w0 | writes rest w0 E].
  - apply onOplogEntry_mute.
  - assert (K : preserves mute (onListen fence))
      by (unfold onListen, defer; by_mute).
    apply K.
  - intros H.
    assert (H1 : halted (set_scheduled (before ++ after) w0)) by exact H.
    exact (runTask_mute options mongo t _ H1).
  - assert (K : preserves mute (fetchCallback options (thisGeneration b) id err doc))
      by (unfold fetchCallback, oneLessWaiting, defer; by_mute).
    apply K.
  - assert (K : preserves mute stop) by (unfold stop; by_mute).
    apply K.
  - intros H. split; [exact H | reflexivity].
Qed.

Lemma tidy_if_mute w w' :
  _stopped w' = _stopped w -> mute w w' -> keeps_tidy w w'.
Proof.
  intros S Mu T St'. rewrite S in St'.
  destruct (Mu (conj St' (T St'))) as [[_ Pn] _]. exact Pn.
Qed.

Lemma fenceWrite_stopped_same write w :
  _stopped (exec (fenceWrite write) w) = _stopped w.
Proof.
  unfold exec, fenceWrite. run. destruct (_stopped w) eqn:St; run; [exact St |].
  destruct (Phase_eqb (_phase w) STEADY); run; [exact St |].
  now destruct (_writesToCommitWhenWeReachSteady w).
Qed.

Lemma step_keeps_tidy options w w' : step options w w' -> keeps_tidy w w'.
Proof.
  intros S. pose proof (step_mute options w w' S) as Mu. revert Mu.
  destruct S as [n w0 | fence w0 | mongo t before after w0 E | b id err doc w0 _ _
                | w0 | writes rest w0 E]; intros Mu.
  - apply tidy_if_mute; [| exact Mu].
    exact (stopped_same _ _ _ (onOplogEntry_progress options n w0)).
  - apply tidy_if_mute; [| exact Mu]. now destruct fence.
  - apply tidy_if_mute; [| exact Mu].
    change (_stopped w0) with (_stopped (set_scheduled (before ++ after) w0)).
    destruct t; cbn [runTask].
    + exact (stopped_same _ _ _ (runInitialQuery_progress options mongo _)).
    + exact (stopped_same _ _ _ (pollQuery_deferred_progress options mongo _)).
    + exact (stopped_same _ _ _ (fetchLoop_progress options _)).
    + apply fenceWrite_stopped_same.
    + exact (stopped_same _ _ _ (doneQuerying_caughtUp_progress options _)).
    + exact (stopped_same _ _ _ (fetchLoop_afterWait_progress options _ _)).
  - apply tidy_if_mute; [| exact Mu].
    exact (stopped_same _ _ _ (fetchCallback_progress options _ id err doc w0)).
  - intros T. unfold exec, stop. run.
    destruct (_stopped w0) eqn:St; [exact T |].
    run. rewrite (run_bind _ _ _ _ _ (commit_each _ _)). run. cbn [snd].
    intros _. reflexivity.
  - intros T. exact T.
Qed.

Lemma reachable_stopped_tidily options w : reachable options w -> stopped_tidily w.
Proof.
  induction 1 as [w E | w w' _ IH S].
  - unfold OplogObserveDriver in E. destruct (ordered options); [discriminate |].
    injection E as <-. intros St. discriminate St.
  - exact (step_keeps_tidy options w w' S IH).
Qed.

(** Once the driver is stopped it stays stopped and its published heap
    stays dropped, whatever notifications, callbacks and deferred work still
    arrive; no [added], [changed], [removed] or [ready] call is made on the
    multiplexer any more.  [multiplexer.onFlush] can still be called, by the
    [_beSteady] of a deferred fetch loop: a callback registered then has no
    write to commit. *)
Theorem stopped_driver_is_silent options w w' :
  reachable options w -> _stopped w = true -> steps options w w' ->
  _stopped w' = true /\ _published w' = None /\ multiplexer w' = multiplexer w /\
  (forall writes, In writes (onFlush w') -> In writes (onFlush w) \/ writes = []).
Proof.
  intros R St S. apply clos_rt_rtn1 in S.
  induction S as [| b c S1 S IH]; [now repeat split; auto; apply (reachable_stopped_tidily options) |].
  destruct IH as (Stb & Pb & Mb & Fb).
  assert (Rb : reachable options b)
    by (apply (reachable_steps options w); [exact R | now apply clos_rtn1_rt]).
  destruct (step_mute options b c S1 (conj Stb Pb)) as [[Stc Pc] Mc].
  split; [exact Stc |]. split; [exact Pc |]. split; [congruence |].
  pose proof (reachable_stopped_pending options b Rb Stb) as Pend.
  destruct (reachable_accounts _ _ Rb) as (Alive & _).
  intros writes I.
  destruct (step_writes_move _ _ _ S1 Alive)
    as [[_ Ef _] | _ _ Ef _ | write _ _ Ef _ | write F _ _ _ _ | write F _ _ _ _
        | F _ _ _ _ | ws Ef _ _]; try congruence.
  - rewrite Ef in I. auto.
  - rewrite Ef, Pend in I. apply in_app_or in I. destruct I as [I | [<- | []]]; auto.
  - rewrite Ef in I. auto.
  - apply Fb. rewrite Ef. now right.
Qed.

(** ** The observers know what is published *)

#[export] Instance unchanged_preorder : PreOrder unchanged.
Proof. split; [intros w; reflexivity | intros a b c; unfold unchanged; congruence]. Qed.

#[export] Instance keeps_agreement_preorder : PreOrder keeps_agreement.
Proof.
  split; [intros w H; exact H |].
  intros a b c Hab Hbc H. exact (Hbc (Hab H)).
Qed.

(** Going past code that only reads. *)
Lemma through_reading {A B} (m : M A) (k : A -> M B) (P : World -> Prop) w :
  preserves unchanged m -> P w -> (forall a, P (exec (k a) w)) ->
  P (exec (bind m k) w).
Proof.
  intros Hm Pw Hk. specialize (Hm w). unfold exec, unchanged, bind in *.
  destruct (m w) as [[a | e] w1]; cbn in *; subst w1; [apply Hk | exact Pw].
Qed.

Lemma through_queryPublished {A B} (f : Heap -> A) (k : A -> M B)
    (P : World -> Prop) w :
  P w -> (forall p, _published w = Some p -> P (exec (k (f p)) w)) ->
  P (exec (bind (queryPublished f) k) w).
Proof.
  intros Pw Hk. unfold exec, bind, queryPublished.
  destruct (_published w) as [p |] eqn:Hp; [now apply Hk | exact Pw].
Qed.

Ltac reading := along_code ltac:(fail).

Lemma observed_app calls c id :
  observed (calls ++ [c]) id = tells c id (observed calls id).
Proof. unfold observed. now rewrite fold_left_app. Qed.

Lemma set_added_agree w p id v fields :
  _published w = Some p -> observers_agree w ->
  observers_agree
    (set_multiplexer (multiplexer w ++ [added id fields])
       (set_published (Some (IdMap.set id v p)) w)).
Proof.
  intros Hp Inv p' Hp' id'. cbn in Hp'. injection Hp' as <-. cbn [multiplexer set_multiplexer].
  rewrite observed_app, has_set, (Inv p Hp id'). cbn [tells].
  now destruct (EJSON_equals id id').
Qed.

Lemma remove_removed_agree w p id :
  _published w = Some p -> observers_agree w ->
  observers_agree
    (set_multiplexer (multiplexer w ++ [removed id])
       (set_published (Some (IdMap.remove id p)) w)).
Proof.
  intros Hp Inv p' Hp' id'. cbn in Hp'. injection Hp' as <-. cbn [multiplexer set_multiplexer].
  rewrite observed_app, has_remove, (Inv p Hp id'). cbn [tells].
  now destruct (EJSON_equals id id').
Qed.

Lemma adding_keeps_agreement {B} id v fields (rest : M B) :
  preserves keeps_agreement rest ->
  preserves keeps_agreement
    (mutatePublished (IdMap.set id v) ;; emit (added id fields) ;; rest).
Proof.
  intros K w Inv. unfold exec, emit.
  destruct (_published w) as [p |] eqn:Hp;
    [| unfold bind, mutatePublished; rewrite Hp; exact Inv].
  run. refine (K _ _). cbn [multiplexer set_published]. now apply set_added_agree.
Qed.

Lemma removing_keeps_agreement {B} id (rest : M B) :
  preserves keeps_agreement rest ->
  preserves keeps_agreement
    (mutatePublished (IdMap.remove id) ;; emit (removed id) ;; rest).
Proof.
  intros K w Inv. unfold exec, emit.
  destruct (_published w) as [p |] eqn:Hp;
    [| unfold bind, mutatePublished; rewrite Hp; exact Inv].
  run. refine (K _ _). cbn [multiplexer set_published]. now apply remove_removed_agree.
Qed.

(** An assignment that touches neither the published heap nor the calls. *)
Ltac agree_leaf :=
  unfold keeps_agreement, observers_agree; cbn;
  let Inv := fresh "Inv" in let p' := fresh "p'" in let Hp' := fresh "Hp'" in
  intros Inv p' Hp'; first [discriminate | exact (Inv p' Hp')].

Create HintDb agreement.

Ltac settle_agree := first [solve [eauto with agreement] | agree_leaf].

(** Like [along_code], with a change of the published heap and the call
    that reports it taken together. *)
Ltac along_calls :=
  lazymatch goal with
  | |- preserves _ (bind (mutatePublished (IdMap.set _ _))
                      (fun _ => bind (emit (added _ _)) _)) =>
      apply adding_keeps_agreement; along_calls
  | |- preserves _ (bind (mutatePublished (IdMap.remove _))
                      (fun _ => bind (emit (removed _)) _)) =>
      apply removing_keeps_agreement; along_calls
  | |- preserves _ (bind _ _) =>
      apply preserves_bind; [along_calls | intros; along_calls]
  | |- preserves _ (ret _) => apply preserves_ret
  | |- preserves _ (throw _) => apply preserves_throw
  | |- preserves _ (gets _) => apply preserves_gets
  | |- preserves _ (queryPublished _) => apply preserves_queryPublished
  | |- preserves _ (queryBuffer _) => apply preserves_queryBuffer
  | |- preserves _ (queryNeedToFetch _) => apply preserves_queryNeedToFetch
  | |- preserves _ (when _ _) => apply preserves_when; along_calls
  | |- preserves _ (forEach _ _) =>
      apply preserves_forEach; intros; along_calls
  | |- preserves _ (if ?c then _ else _) => destruct c; along_calls
  | |- preserves _ (match ?x with _ => _ end) => destruct x; along_calls
  | |- preserves _ (modify _) => apply preserves_modify; intros; settle_agree
  | |- preserves _ (mutateBuffer _) =>
      apply preserves_mutateBuffer; intros; settle_agree
  | |- preserves _ (mutateNeedToFetch _) =>
      apply preserves_mutateNeedToFetch; intros; settle_agree
  | |- _ => settle_agree
  end.

Lemma needToPollQuery_keeps_agreement : preserves keeps_agreement _needToPollQuery.
Proof.
  unfold _needToPollQuery, _pollQuery, _registerPhaseChange, defer. along_calls.
Qed.
#[export] Hint Resolve needToPollQuery_keeps_agreement : agreement.

Lemma addBuffered_keeps_agreement options id doc :
  preserves keeps_agreement (_addBuffered options id doc).
Proof. unfold _addBuffered. along_calls. Qed.

Lemma removeBuffered_keeps_agreement id : preserves keeps_agreement (_removeBuffered id).
Proof. unfold _removeBuffered. along_calls. Qed.
#[export] Hint Resolve addBuffered_keeps_agreement removeBuffered_keeps_agreement
  : agreement.

Lemma addPublished_keeps_agreement options id doc :
  preserves keeps_agreement (_addPublished options id doc).
Proof. unfold _addPublished. cbn zeta. along_calls. Qed.
#[export] Hint Resolve addPublished_keeps_agreement : agreement.

Lemma removePublished_keeps_agreement options id :
  preserves keeps_agreement (_removePublished options id).
Proof. unfold _removePublished. along_calls. Qed.
#[export] Hint Resolve removePublished_keeps_agreement : agreement.

(** Changing a document that is published is no news about which documents
    are. *)
Lemma changePublished_keeps_agreement options (w : World) id oldDoc newDoc :
  (forall p, _published w = Some p -> IdMap.has id p = true) ->
  observers_agree w ->
  observers_agree (exec (_changePublished options id oldDoc newDoc) w).
Proof.
  intros Present Inv. unfold exec, _changePublished.
  destruct (_published w) as [p |] eqn:Hp;
    [| unfold bind, mutatePublished; rewrite Hp; exact Inv].
  run. specialize (Present p eq_refl).
  assert (Inv1 : observers_agree
            (set_published (Some (IdMap.set id (sharedProjectionFn options newDoc) p)) w)).
  { intros p' Hp' id'. cbn in Hp'. injection Hp' as <-. cbn [multiplexer set_published].
    rewrite has_set, <- (Inv p Hp id').
    destruct (EJSON_equals id id') eqn:E; [| reflexivity].
    apply EJSON_equals_eq in E as <-. now rewrite Present. }
  destruct (negb (Obj.isEmpty _)); cbn [when]; [| exact Inv1].
  unfold emit, modify. cbn [snd].
  intros p' Hp' id'. cbn in Hp'. cbn [multiplexer set_multiplexer set_published].
  rewrite observed_app. cbn [tells]. exact (Inv1 p' Hp' id').
Qed.

Lemma addMatching_keeps_agreement options doc :
  preserves keeps_agreement (_addMatching options doc).
Proof. unfold _addMatching, limit_and_buffered. along_calls. Qed.

Lemma removeMatching_keeps_agreement options id :
  preserves keeps_agreement (_removeMatching options id).
Proof. unfold _removeMatching. along_calls. Qed.
#[export] Hint Resolve addMatching_keeps_agreement removeMatching_keeps_agreement
  : agreement.

Lemma handleDoc_stillMatching_keeps_agreement options (w : World) id newDoc pb bb :
  (forall p, _published w = Some p -> IdMap.has id p = pb) ->
  observers_agree w ->
  observers_agree (exec (_handleDoc_stillMatching options id newDoc pb bb) w).
Proof.
  intros Hpb Inv. destruct pb.
  - unfold _handleDoc_stillMatching.
    apply through_reading; [reading | exact Inv | intros oldDoc].
    apply through_reading; [reading | exact Inv | intros minBuffered].
    apply through_reading; [reading | exact Inv | intros [|]].
    + now apply changePublished_keeps_agreement.
    + assert (K : preserves keeps_agreement
                    (_removePublished options id ;;
                     maxBuffered <- queryBuffer (maxElement options) ;;
                     safe <- gets _safeAppendToBuffer ;;
                     if safe || fitsBelow options newDoc maxBuffered
                     then _addBuffered options id newDoc
                     else modify (set_safeAppendToBuffer false)))
        by along_calls.
      exact (K w Inv).
  - assert (K : preserves keeps_agreement
                  (_handleDoc_stillMatching options id newDoc false bb))
      by (unfold _handleDoc_stillMatching; along_calls).
    exact (K w Inv).
Qed.

Lemma handleDoc_keeps_agreement options id newDoc :
  preserves keeps_agreement (_handleDoc options id newDoc).
Proof.
  intros w Inv. unfold _handleDoc.
  apply through_queryPublished; [exact Inv | intros p Hp].
  apply through_reading;
    [unfold limit_and_buffered; reading | exact Inv | intros bb].
  destruct newDoc as [d |].
  - destruct (documentMatches options d && negb (IdMap.has id p || bb)).
    { now apply addMatching_keeps_agreement. }
    destruct ((IdMap.has id p || bb) && negb (documentMatches options d)).
    { now apply removeMatching_keeps_agreement. }
    destruct ((IdMap.has id p || bb) && documentMatches options d); [| exact Inv].
    apply handleDoc_stillMatching_keeps_agreement; [| exact Inv].
    intros p' Hp'. congruence.
  - cbn [andb]. destruct ((IdMap.has id p || bb) && negb false);
      [now apply removeMatching_keeps_agreement |].
    now destruct ((IdMap.has id p || bb) && false).
Qed.
#[export] Hint Resolve handleDoc_keeps_agreement : agreement.

Lemma emit_ready_keeps_agreement : preserves keeps_agreement (emit ready).
Proof.
  intros w Inv. unfold exec, emit, modify. cbn [snd].
  intros p Hp id. cbn in Hp. cbn [multiplexer set_multiplexer].
  rewrite observed_app. cbn [tells]. exact (Inv p Hp id).
Qed.
#[export] Hint Resolve emit_ready_keeps_agreement : agreement.

Lemma beSteady_keeps_agreement : preserves keeps_agreement _beSteady.
Proof. unfold _beSteady, _registerPhaseChange. along_calls. Qed.
#[export] Hint Resolve beSteady_keeps_agreement : agreement.

Lemma fetchLoop_keeps_agreement : preserves keeps_agreement fetchLoop.
Proof. unfold fetchLoop. along_calls. Qed.
#[export] Hint Resolve fetchLoop_keeps_agreement : agreement.

Lemma onOplogEntry_keeps_agreement options n :
  preserves keeps_agreement (onOplogEntry options n).
Proof.
  unfold onOplogEntry, _handleOplogEntryQuerying, _handleOplogEntrySteadyOrFetching,
    _fetchModifiedDocuments, _registerPhaseChange, defer, limit_and_buffered.
  along_calls.
Qed.

Lemma runTask_keeps_agreement options mongo t :
  preserves keeps_agreement (runTask options mongo t).
Proof.
  destruct t; cbn [runTask].
  - unfold _runInitialQuery, _doneQuerying, defer. along_calls.
  - unfold pollQuery_deferred, _publishNewResults, _doneQuerying, defer. along_calls.
  - apply fetchLoop_keeps_agreement.
  - unfold fenceWrite. apply preserves_bind; [apply preserves_gets | intros stopped].
    destruct stopped; [along_calls |].
    apply preserves_bind; [apply preserves_gets | intros phase].
    destruct (Phase_eqb phase STEADY); [along_calls |].
    intros w Inv. unfold exec.
    destruct (_writesToCommitWhenWeReachSteady w); exact Inv.
  - unfold _doneQuerying_caughtUp, _pollQuery, _fetchModifiedDocuments,
      _registerPhaseChange, defer. along_calls.
  - unfold fetchLoop_afterWait. along_calls.
Qed.

Lemma step_keeps_agreement options w w' : step options w w' -> keeps_agreement w w'.
Proof.
  intros [n w0 | fence w0 | mongo t before after w0 E | b id err doc w0 _ _
         | w0 | writes rest w0 E].
  - apply onOplogEntry_keeps_agreement.
  - assert (K : preserves keeps_agreement (onListen fence))
      by (unfold onListen, defer; along_calls).
    apply K.
  - intros Inv.
    assert (Inv1 : observers_agree (set_scheduled (before ++ after) w0)) by exact Inv.
    exact (runTask_keeps_agreement options mongo t _ Inv1).
  - assert (K : preserves keeps_agreement
                  (fetchCallback options (thisGeneration b) id err doc))
      by (unfold fetchCallback, oneLessWaiting, defer; along_calls).
    apply K.
  - assert (K : preserves keeps_agreement stop) by (unfold stop; along_calls).
    apply K.
  - intros Inv. exact Inv.
Qed.

(** In every world the driver reaches before it is stopped, the ids in
    [_published] are exactly the ids the multiplexer was told of with [added]
    and not since with [removed]: every change of the set of published ids is
    reported, and nothing else is. *)
Theorem observers_know_published options w p :
  reachable options w -> _published w = Some p ->
  forall id, IdMap.has id p = observed (multiplexer w) id.
Proof.
  intros R. revert p. change (observers_agree w).
  induction R as [w E | w w' _ IH S].
  - unfold OplogObserveDriver in E. destruct (ordered options); [discriminate |].
    injection E as <-. intros p Hp id. cbn in Hp. injection Hp as <-. reflexivity.
  - exact (step_keeps_agreement options w w' S IH).
Qed.

(** ** [ready] is called at most once *)

#[export] Instance no_more_ready_preorder : PreOrder no_more_ready.
Proof.
  split; [intros w; unfold no_more_ready; lia |].
  intros a b c; unfold no_more_ready; lia.
Qed.

Lemma emit_no_more_ready c : is_ready c = false -> preserves no_more_ready (emit c).
Proof.
  intros H w. unfold exec, emit, modify, no_more_ready, readyCalls, initialQueries.
  cbn [snd multiplexer scheduled set_multiplexer].
  rewrite filter_app, length_app. cbn [filter]. rewrite H. cbn. lia.
Qed.

Lemma defer_no_more_ready t :
  is_initialQuery t = false -> preserves no_more_ready (defer t).
Proof.
  intros H w. unfold exec, defer, modify, no_more_ready, readyCalls, initialQueries.
  cbn [snd multiplexer scheduled set_scheduled].
  rewrite filter_app, length_app. cbn [filter]. rewrite H. cbn. lia.
Qed.

Ltac ready_leaf :=
  first
    [ apply emit_no_more_ready; reflexivity
    | apply defer_no_more_ready; reflexivity
    | unfold no_more_ready, readyCalls, initialQueries; cbn; lia ].

Ltac by_ready := along_code ready_leaf.

Lemma handleDoc_no_more_ready options id newDoc :
  preserves no_more_ready (_handleDoc options id newDoc).
Proof.
  unfold _handleDoc, _handleDoc_stillMatching, _addMatching, _removeMatching,
    limit_and_buffered, _changePublished, _removePublished, _addPublished,
    _addBuffered, _removeBuffered, _needToPollQuery, _pollQuery,
    _registerPhaseChange.
  by_ready.
Qed.

Ltac ready_with_handleDoc :=
  along_code ltac:(first [apply handleDoc_no_more_ready | ready_leaf]).

Ltac unfold_driver :=
  unfold onOplogEntry, onListen, fetchCallback, oneLessWaiting, stop,
    pollQuery_deferred, _publishNewResults, _doneQuerying, _doneQuerying_caughtUp,
    fetchLoop_afterWait, fetchLoop, _beSteady, _fetchModifiedDocuments,
    _handleOplogEntryQuerying, _handleOplogEntrySteadyOrFetching,
    _addMatching, _removeMatching, limit_and_buffered, _changePublished,
    _removePublished, _addPublished, _addBuffered, _removeBuffered,
    _needToPollQuery, _pollQuery, _registerPhaseChange.

Lemma fenceWrite_no_more_ready write : preserves no_more_ready (fenceWrite write).
Proof.
  unfold fenceWrite.
  along_code ltac:(first
    [ ready_leaf
    | intros w; unfold exec, no_more_ready, readyCalls, initialQueries;
      destruct (_writesToCommitWhenWeReachSteady w); cbn; lia ]).
Qed.

Section ReadyOnce.

Variable options : Options.

(** The initial query calls [ready] once, after its last test of
    [_stopped]. *)
Lemma runInitialQuery_one_more_ready mongo w :
  one_more_ready w (exec (_runInitialQuery options mongo) w).
Proof.
  assert (Before : preserves no_more_ready
            (forEach (mongo (_cursorForQuery (limit options * 2)))
               (_addMatching options))) by (unfold_driver; by_ready).
  assert (After : preserves no_more_ready _doneQuerying) by (unfold_driver; by_ready).
  unfold exec, _runInitialQuery. run.
  destruct (_stopped w) eqn:St; [run; unfold one_more_ready; cbn; lia |].
  specialize (Before w). unfold exec in Before. unfold bind at 1.
  destruct (forEach _ _ w) as [[[] | e] w1]; cbn [snd] in *.
  2:{ unfold no_more_ready, one_more_ready in Before |- *. lia. }
  run. cbn [_stopped set_safeAppendToBuffer].
  set (w2 := set_safeAppendToBuffer _ w1).
  assert (Before2 : no_more_ready w w2) by exact Before.
  destruct (_stopped w1).
  { unfold throw, no_more_ready, one_more_ready in Before2 |- *. cbn [snd]. lia. }
  unfold emit at 1. run.
  set (w3 := set_multiplexer _ w2).
  assert (Emitted : one_more_ready w w3).
  { unfold no_more_ready, one_more_ready, readyCalls, initialQueries in Before2 |- *.
    subst w3 w2.
    cbn [multiplexer scheduled set_multiplexer set_safeAppendToBuffer] in Before2 |- *.
    rewrite filter_app, length_app. cbn [filter is_ready List.length]. lia. }
  specialize (After w3). unfold exec in After.
  unfold no_more_ready, one_more_ready in After, Emitted |- *. lia.
Qed.

Lemma runTask_ready mongo t before after w :
  scheduled w = before ++ t :: after ->
  no_more_ready w (exec (runTask options mongo t) (set_scheduled (before ++ after) w)).
Proof.
  intros E.
  assert (Taken :
    (initialQueries (set_scheduled (before ++ after) w)
     + (if is_initialQuery t then 1 else 0) = initialQueries w)%nat).
  { unfold initialQueries. cbn [scheduled set_scheduled]. rewrite E.
    rewrite !filter_app, !length_app. cbn [filter].
    destruct (is_initialQuery t); cbn; lia. }
  assert (Calls : readyCalls (set_scheduled (before ++ after) w) = readyCalls w)
    by reflexivity.
  assert (Other : is_initialQuery t = false ->
                  preserves no_more_ready (runTask options mongo t) ->
                  no_more_ready w
                    (exec (runTask options mongo t) (set_scheduled (before ++ after) w))).
  { intros Ht K. specialize (K (set_scheduled (before ++ after) w)).
    rewrite Ht in Taken. unfold no_more_ready in *. lia. }
  destruct t; cbn [runTask] in *.
  - pose proof (runInitialQuery_one_more_ready mongo
                  (set_scheduled (before ++ after) w)) as K.
    cbn [is_initialQuery] in Taken. unfold no_more_ready, one_more_ready in *. lia.
  - apply Other; [reflexivity |]. unfold_driver. ready_with_handleDoc.
  - apply Other; [reflexivity |]. unfold_driver. by_ready.
  - apply Other; [reflexivity |]. apply fenceWrite_no_more_ready.
  - apply Other; [reflexivity |]. unfold_driver. by_ready.
  - apply Other; [reflexivity |]. unfold_driver. by_ready.
Qed.

Lemma step_no_more_ready w w' : step options w w' -> no_more_ready w w'.
Proof.
  intros [n w0 | fence w0 | mongo t before after w0 E | b id err doc w0 _ _
         | w0 | writes rest w0 E].
  - assert (K : preserves no_more_ready (onOplogEntry options n))
      by (unfold_driver; ready_with_handleDoc).
    apply K.
  - assert (K : preserves no_more_ready (onListen fence))
      by (unfold_driver; by_ready).
    apply K.
  - now apply runTask_ready.
  - assert (K : preserves no_more_ready
                  (fetchCallback options (thisGeneration b) id err doc))
      by (unfold_driver; ready_with_handleDoc).
    apply K.
  - assert (K : preserves no_more_ready stop) by (unfold_driver; by_ready).
    apply K.
  - unfold no_more_ready, readyCalls, initialQueries. cbn. lia.
Qed.

(** [multiplexer.ready()] is called at most once in the life of a driver,
    and not while the initial query is still waiting to run: only
    [_runInitialQuery] calls it, and only the constructor schedules that. *)
Theorem ready_at_most_once w :
  reachable options w -> (readyCalls w + initialQueries w <= 1)%nat.
Proof.
  induction 1 as [w E | w w' _ IH S].
  - unfold OplogObserveDriver in E. destruct (ordered options); [discriminate |].
    injection E as <-. cbn. lia.
  - pose proof (step_no_more_ready w w' S) as K. unfold no_more_ready in K. lia.
Qed.

End ReadyOnce.
(** ** A running driver never uses what [stop] drops *)

Section Careful.

Variable options : Options.

Lemma careful_ret {A} (a : A) : careful options (ret a).
Proof. intros w R. split; [exact R | discriminate]. Qed.

Lemma careful_throw {A} e : e <> TypeError -> careful options (@throw A e).
Proof. intros N w R. split; [exact R | cbn; congruence]. Qed.

Lemma careful_gets {A} (f : World -> A) : careful options (gets f).
Proof. intros w R. split; [exact R | discriminate]. Qed.

Lemma careful_modify f : (forall w, running options w -> running options (f w)) -> careful options (modify f).
Proof. intros H w R. split; [now apply H | discriminate]. Qed.

Lemma careful_bind {A B} (m : M A) (k : A -> M B) :
  careful options m -> (forall a, careful options (k a)) -> careful options (bind m k).
Proof.
  intros Hm Hk w R. destruct (Hm w R) as [R1 N1].
  unfold exec, outcome, bind in *.
  destruct (m w) as [[a | e] w1]; cbn [fst snd] in *.
  - exact (Hk a w1 R1).
  - split; [assumption | intros H; apply N1; congruence].
Qed.

Lemma careful_ret_bind {A B} (a : A) (k : A -> M B) :
  careful options (k a) -> careful options (bind (ret a) k).
Proof. intros H w. exact (H w). Qed.

Lemma careful_when c body : careful options body -> careful options (when c body).
Proof. destruct c; [auto | intros _; apply careful_ret]. Qed.

Lemma careful_forEach {A} (xs : list A) f :
  (forall x, In x xs -> careful options (f x)) -> careful options (forEach xs f).
Proof.
  induction xs as [| x r IH]; intros H; cbn; [apply careful_ret |].
  apply careful_bind; [apply H; now left | intros _; apply IH].
  intros y I. apply H. now right.
Qed.

Lemma careful_queryPublished {A} (f : Heap -> A) : careful options (queryPublished f).
Proof.
  intros w R. unfold exec, outcome, queryPublished.
  pose proof R as (St & P & _). destruct (_published w) eqn:E; [| contradiction].
  split; [exact R | discriminate].
Qed.

Lemma careful_mutatePublished f : careful options (mutatePublished f).
Proof.
  intros w R. unfold exec, outcome, mutatePublished.
  destruct R as (St & P & N & W & B). destruct (_published w) eqn:E; [| contradiction].
  split; [repeat split; try assumption; discriminate | discriminate].
Qed.

Lemma careful_queryNeedToFetch {A} (f : IdMap.t string -> A) :
  careful options (queryNeedToFetch f).
Proof.
  intros w R. unfold exec, outcome, queryNeedToFetch.
  pose proof R as (St & P & N & _). destruct (_needToFetch w) eqn:E; [| contradiction].
  split; [exact R | discriminate].
Qed.

Lemma careful_mutateNeedToFetch f : careful options (mutateNeedToFetch f).
Proof.
  intros w R. unfold exec, outcome, mutateNeedToFetch.
  destruct R as (St & P & N & W & B). destruct (_needToFetch w) eqn:E; [| contradiction].
  split; [repeat split; try assumption; discriminate | discriminate].
Qed.

Lemma careful_queryBuffer {A} (f : Heap -> A) :
  limit options <> 0 -> careful options (queryBuffer f).
Proof.
  intros L w R. unfold exec, outcome, queryBuffer.
  pose proof R as (St & P & N & W & B). specialize (B L).
  destruct (_unpublishedBuffer w) eqn:E; [| contradiction].
  split; [exact R | discriminate].
Qed.

Lemma careful_mutateBuffer f : limit options <> 0 -> careful options (mutateBuffer f).
Proof.
  intros L w R. unfold exec, outcome, mutateBuffer.
  pose proof R as (St & P & N & W & B). specialize (B L).
  destruct (_unpublishedBuffer w) eqn:E; [| contradiction].
  split; [| discriminate]. repeat split; try assumption. intros _. discriminate.
Qed.

(** An assignment that drops nothing. *)
Ltac stays_running :=
  let R := fresh "R" in
  intros ? R; destruct R as (? & ? & ? & ? & ?);
  repeat split; cbn; try assumption; try discriminate.

Create HintDb careful.

Ltac careful_leaf :=
  first
    [ solve [eauto with careful]
    | apply careful_throw; discriminate
    | apply careful_queryBuffer; assumption
    | apply careful_mutateBuffer; assumption
    | apply careful_modify; stays_running ].

(** Split a goal along the code, as [along_code] does; a boolean read from
    the driver is taken by cases at once, so that the tests on it
    reduce. *)
Ltac along_care :=
  cbn [negb andb orb when];
  lazymatch goal with
  | |- careful _ (bind (ret _) _) => apply careful_ret_bind; along_care
  | |- careful _ (bind _ _) =>
      apply careful_bind;
      [ along_care
      | let a := fresh "a" in
        intros a;
        lazymatch type of a with bool => destruct a | _ => idtac end;
        along_care ]
  | |- careful _ (ret _) => apply careful_ret
  | |- careful _ (gets _) => apply careful_gets
  | |- careful _ (queryPublished _) => apply careful_queryPublished
  | |- careful _ (mutatePublished _) => apply careful_mutatePublished
  | |- careful _ (queryNeedToFetch _) => apply careful_queryNeedToFetch
  | |- careful _ (mutateNeedToFetch _) => apply careful_mutateNeedToFetch
  | |- careful _ (when _ _) => unfold when; along_care
  | |- careful _ (forEach _ _) =>
      apply careful_forEach; intros; along_care
  | |- careful _ (if ?c then _ else _) => destruct c; along_care
  | |- careful _ (match ?x with _ => _ end) => destruct x; along_care
  | |- _ => careful_leaf
  end.

Lemma emit_careful c : careful options (emit c).
Proof. unfold emit. along_care. Qed.

Lemma defer_careful t : careful options (defer t).
Proof. unfold defer. along_care. Qed.

Lemma registerPhaseChange_careful phase : careful options (_registerPhaseChange phase).
Proof. unfold _registerPhaseChange. along_care. Qed.
#[local] Hint Resolve emit_careful defer_careful registerPhaseChange_careful : careful.

Lemma needToPollQuery_careful : careful options _needToPollQuery.
Proof. unfold _needToPollQuery, _pollQuery. along_care. Qed.
#[local] Hint Resolve needToPollQuery_careful : careful.

Section Limited.

Hypothesis limited : limit options <> 0.

Lemma addBuffered_careful id doc : careful options (_addBuffered options id doc).
Proof. unfold _addBuffered. along_care. Qed.

Lemma removeBuffered_careful id : careful options (_removeBuffered id).
Proof. unfold _removeBuffered. along_care. Qed.

End Limited.

Lemma set_nonempty {V} id (v : V) m : IdMap.set id v m <> [].
Proof. destruct m as [| [k x] r]; cbn; [| destruct (EJSON_equals k id)]; discriminate. Qed.

Lemma truthy_nonzero n : truthy n = true <-> n <> 0.
Proof. unfold truthy. now rewrite negb_true_iff, Z.eqb_neq. Qed.

(** The document [_addPublished] evicts is there to be put into the
    buffer. *)
Lemma addPublished_careful id doc : careful options (_addPublished options id doc).
Proof.
  intros w R. pose proof R as (St & P & N & W & B).
  destruct (_published w) as [p |] eqn:Hp; [| contradiction].
  unfold exec, outcome, _addPublished, emit. run.
  cbn [multiplexer set_published].
  set (p1 := IdMap.set id _ p).
  set (w1 := set_multiplexer _ _).
  assert (R1 : running options w1).
  { repeat split; cbn; try assumption; discriminate. }
  destruct (truthy (limit options) && (limit options <? IdMap.size p1)) eqn:C;
    cbn [when]; [| split; [exact R1 | discriminate]].
  apply andb_true_iff in C as [T _]. apply truthy_nonzero in T.
  run. destruct (negb (IdMap.size p1 =? limit options + 1)); run;
    [split; [exact R1 | discriminate] |].
  destruct (maxElementId_In (comparator options) p1 (set_nonempty _ _ _)) as [d I].
  apply In_has in I. apply has_get in I as [d' G]. rewrite G.
  destruct (EJSON_equals _ id); run; [split; [exact R1 | discriminate] |].
  apply (addBuffered_careful T).
  repeat split; cbn; try assumption; discriminate.
Qed.
#[local] Hint Resolve addPublished_careful : careful.

Lemma heap_nonempty (h : Heap) : (IdMap.size h =? 0) = false -> h <> [].
Proof. intros H E. subst h. discriminate H. Qed.

(** The document [_removePublished] promotes is there to be published. *)
Lemma removePublished_careful id : careful options (_removePublished options id).
Proof.
  intros w R. pose proof R as (St & P & N & W & B).
  destruct (_published w) as [p |] eqn:Hp; [| contradiction].
  unfold exec, outcome, _removePublished, emit. run.
  cbn [multiplexer set_published].
  set (w1 := set_multiplexer _ (set_published _ w)).
  assert (R1 : running options w1).
  { repeat split; cbn; try assumption; discriminate. }
  destruct (truthy (limit options)) eqn:T; cbn [negb];
    [| split; [exact R1 | discriminate]].
  apply truthy_nonzero in T. run.
  destruct (_ <? limit options); cbn [when]; [| split; [exact R1 | discriminate]].
  destruct (_unpublishedBuffer w) as [b |] eqn:Hb; [| now destruct (B T)].
  run. destruct (IdMap.size b =? 0) eqn:Sb.
  - run. destruct (_ && _); split; try exact R1; discriminate.
  - run.
    destruct (minElementId_In (comparator options) b (heap_nonempty b Sb)) as [d I].
    apply In_has in I. apply has_get in I as [d' G]. rewrite G.
    assert (K : careful options
                  (_removeBuffered (HeapOps.minElementId (comparator options) b) ;;
                   _addPublished options (HeapOps.minElementId (comparator options) b) d')).
    { apply careful_bind; [apply (removeBuffered_careful T) | intros _].
      apply addPublished_careful. }
    exact (K w1 R1).
Qed.
#[local] Hint Resolve removePublished_careful : careful.

Lemma changePublished_careful id oldDoc newDoc :
  careful options (_changePublished options id oldDoc newDoc).
Proof. unfold _changePublished. cbn zeta. along_care. Qed.
#[local] Hint Resolve changePublished_careful : careful.

(** Take the query to be limited or not, and reduce the tests of the limit
    accordingly. *)
Ltac by_limit_cases :=
  let L := fresh "L" in
  destruct (Z.eq_dec (limit options) 0) as [L | L];
  [ unfold truthy; rewrite ?L; cbn [Z.eqb negb andb orb]
  | rewrite ?(proj2 (truthy_nonzero _) L); cbn [negb andb orb] ].

Lemma limit_and_buffered_careful id : careful options (limit_and_buffered options id).
Proof. unfold limit_and_buffered. by_limit_cases; along_care. Qed.

Lemma addMatching_careful doc : careful options (_addMatching options doc).
Proof.
  pose proof addBuffered_careful. unfold _addMatching, limit_and_buffered. cbn zeta.
  by_limit_cases; along_care.
Qed.

Lemma removeMatching_careful id : careful options (_removeMatching options id).
Proof.
  pose proof removeBuffered_careful. unfold _removeMatching.
  by_limit_cases; along_care.
Qed.
#[local] Hint Resolve addMatching_careful removeMatching_careful : careful.

Lemma handleDoc_stillMatching_careful id newDoc pb bb :
  (pb = false -> bb = true -> limit options <> 0) ->
  careful options (_handleDoc_stillMatching options id newDoc pb bb).
Proof.
  intros H. pose proof addBuffered_careful.
  unfold _handleDoc_stillMatching. cbn zeta.
  destruct pb, bb; by_limit_cases;
    try (exfalso; now apply H); along_care.
Qed.

Lemma handleDoc_careful id newDoc : careful options (_handleDoc options id newDoc).
Proof.
  assert (K0 : forall i d pb,
            careful options (_handleDoc_stillMatching options i d pb false))
    by (intros; apply handleDoc_stillMatching_careful; congruence).
  unfold _handleDoc, limit_and_buffered. cbn zeta.
  by_limit_cases; [along_care |].
  assert (K : forall i d pb bb,
            careful options (_handleDoc_stillMatching options i d pb bb))
    by (intros; apply handleDoc_stillMatching_careful; auto).
  along_care.
Qed.
#[local] Hint Resolve handleDoc_careful : careful.

Lemma beSteady_careful : careful options _beSteady.
Proof. unfold _beSteady. along_care. Qed.

Lemma fetchModifiedDocuments_careful : careful options _fetchModifiedDocuments.
Proof. unfold _fetchModifiedDocuments. along_care. Qed.

Lemma pollQuery_careful : careful options _pollQuery.
Proof. unfold _pollQuery. along_care. Qed.
#[local] Hint Resolve beSteady_careful fetchModifiedDocuments_careful
  pollQuery_careful : careful.

Lemma fetchLoop_careful : careful options fetchLoop.
Proof. unfold fetchLoop. along_care. Qed.
#[local] Hint Resolve fetchLoop_careful : careful.

Lemma fetchCallback_careful g id err doc :
  careful options (fetchCallback options g id err doc).
Proof. unfold fetchCallback, oneLessWaiting. along_care. Qed.

Lemma fetchLoop_afterWait_careful g : careful options (fetchLoop_afterWait g).
Proof. unfold fetchLoop_afterWait. along_care. Qed.

Lemma doneQuerying_careful : careful options _doneQuerying.
Proof. unfold _doneQuerying. along_care. Qed.
#[local] Hint Resolve doneQuerying_careful : careful.

Lemma doneQuerying_caughtUp_careful : careful options _doneQuerying_caughtUp.
Proof. unfold _doneQuerying_caughtUp. along_care. Qed.

Lemma runInitialQuery_careful mongo : careful options (_runInitialQuery options mongo).
Proof. unfold _runInitialQuery. cbn zeta. along_care. Qed.

(** [newBuffer] is empty when the query has no limit, and so no buffer. *)
Lemma publishNewResults_careful newResults newBuffer :
  (limit options = 0 -> newBuffer = []) ->
  careful options (_publishNewResults options newResults newBuffer).
Proof.
  intros H. pose proof addBuffered_careful. unfold _publishNewResults.
  by_limit_cases; [rewrite (H L) |]; along_care.
Qed.

Lemma pollQuery_deferred_careful mongo :
  careful options (pollQuery_deferred options mongo).
Proof.
  unfold pollQuery_deferred. cbn zeta.
  apply careful_bind; [| intros _; apply doneQuerying_careful].
  apply publishNewResults_careful. intros L.
  now rewrite splitResults_unlimited.
Qed.

Lemma fenceWrite_careful write : careful options (fenceWrite write).
Proof.
  unfold fenceWrite.
  apply careful_bind; [apply careful_gets | intros [|]]; [along_care |].
  apply careful_bind; [apply careful_gets | intros phase].
  destruct (Phase_eqb phase STEADY); [along_care |].
  intros w R. pose proof R as (St & P & N & W & B).
  unfold exec, outcome.
  destruct (_writesToCommitWhenWeReachSteady w); [| contradiction].
  split; [| discriminate]. repeat split; cbn; try assumption; discriminate.
Qed.

Lemma onListen_careful fence : careful options (onListen fence).
Proof. unfold onListen. along_care. Qed.

Lemma handleOplogEntryQuerying_careful o :
  careful options (_handleOplogEntryQuerying options o).
Proof. unfold _handleOplogEntryQuerying. along_care. Qed.

(** Going past code that only reads, keeping what it returned. *)
Lemma careful_after_reading {A B} (m : M A) (k : A -> M B) w :
  preserves unchanged m -> careful options m ->
  (forall a, m w = (Returned a, w) -> careful_at options (k a) w) ->
  careful_at options (bind m k) w.
Proof.
  intros U C H R. destruct (C w R) as [R1 N1]. specialize (U w).
  unfold exec, outcome, bind, unchanged in *.
  destruct (m w) as [[a | e] w1] eqn:E; cbn [fst snd] in *; subst w1.
  - now apply H.
  - split; [exact R | intros X; apply N1; congruence].
Qed.

(** The cached document an update is applied to is there. *)
Lemma handleOplogEntrySteadyOrFetching_careful o :
  careful options (_handleOplogEntrySteadyOrFetching options o).
Proof.
  pose proof removeBuffered_careful as RB. pose proof addBuffered_careful as AB.
  intros w. unfold _handleOplogEntrySteadyOrFetching. cbn zeta.
  set (id := idForOp options o).
  apply careful_after_reading; [reading | along_care | intros phase _].
  apply careful_after_reading; [reading | along_care | intros already _].
  destruct already.
  { refine ((_ : careful options _) w). along_care. }
  destruct (String.eqb (op_op o) "d").
  { refine ((_ : careful options _) w). unfold limit_and_buffered.
    by_limit_cases; along_care. }
  destruct (String.eqb (op_op o) "i").
  { refine ((_ : careful options _) w). along_care. }
  destruct (String.eqb (op_op o) "u");
    [| refine ((_ : careful options _) w); along_care].
  apply careful_after_reading; [reading | along_care | intros pb Epb].
  apply careful_after_reading;
    [unfold limit_and_buffered; reading | apply limit_and_buffered_careful
    | intros bb Ebb].
  destruct (negb (Obj.has "$set" (op_o o)) && negb (Obj.has "$unset" (op_o o))).
  { refine ((_ : careful options _) w). along_care. }
  cbn [negb andb].
  destruct ((pb || bb) && modifierCanBeDirectlyApplied (op_o o)) eqn:C.
  2:{ refine ((_ : careful options _) w). along_care. }
  apply andb_true_iff in C as [C _].
  intros R. pose proof R as (St & P & N & W & B).
  destruct (_published w) as [p |] eqn:Hp; [| contradiction].
  unfold queryPublished in Epb. rewrite Hp in Epb. injection Epb as <-.
  unfold exec, outcome. run.
  destruct (IdMap.has id p) eqn:Hid.
  - run. apply has_get in Hid as [d G]. rewrite G.
    destruct (LocalCollection_modify options _ _);
      [apply handleDoc_careful, R | split; [exact R | discriminate]].
  - cbn [orb] in C. subst bb. unfold limit_and_buffered in Ebb.
    destruct (truthy (limit options)) eqn:T; [| discriminate Ebb].
    apply truthy_nonzero in T.
    destruct (_unpublishedBuffer w) as [b |] eqn:Hb; [| now destruct (B T)].
    unfold queryBuffer in Ebb. rewrite Hb in Ebb. injection Ebb as Hidb.
    run. apply has_get in Hidb as [d G]. rewrite G.
    destruct (LocalCollection_modify options _ _);
      [apply handleDoc_careful, R | split; [exact R | discriminate]].
Qed.

Lemma onOplogEntry_careful n : careful options (onOplogEntry options n).
Proof.
  pose proof handleOplogEntryQuerying_careful.
  pose proof handleOplogEntrySteadyOrFetching_careful.
  unfold onOplogEntry. along_care.
Qed.

Lemma runTask_careful mongo t : careful options (runTask options mongo t).
Proof.
  destruct t; cbn [runTask].
  - apply runInitialQuery_careful.
  - apply pollQuery_deferred_careful.
  - apply fetchLoop_careful.
  - apply fenceWrite_careful.
  - apply doneQuerying_caughtUp_careful.
  - apply fetchLoop_afterWait_careful.
Qed.

Lemma stop_sets_stopped w : _stopped (exec stop w) = true.
Proof.
  unfold exec, stop. run. destruct (_stopped w) eqn:St; [exact St |].
  run. rewrite (run_bind _ _ _ _ _ (commit_each _ _)). run. reflexivity.
Qed.

Lemma step_running w w' :
  step options w w' -> running options w -> _stopped w' = false -> running options w'.
Proof.
  intros [n w0 | fence w0 | mongo t before after w0 E | b id err doc w0 _ _
         | w0 | writes rest w0 E] R St'.
  - apply onOplogEntry_careful, R.
  - apply onListen_careful, R.
  - apply runTask_careful. exact R.
  - apply fetchCallback_careful, R.
  - rewrite stop_sets_stopped in St'. discriminate.
  - exact R.
Qed.

Lemma reachable_running w :
  reachable options w -> _stopped w = false -> running options w.
Proof.
  induction 1 as [w E | w w' Rw IH S]; intros St.
  - unfold OplogObserveDriver in E. destruct (ordered options); [discriminate |].
    injection E as <-. repeat split; cbn; try discriminate.
    intros L. apply truthy_nonzero in L. rewrite L. discriminate.
  - destruct (_stopped w) eqn:Sw.
    + pose proof (reachable_stopped_tidily options w Rw Sw) as Pn.
      destruct (step_mute options w w' S (conj Sw Pn)) as [[St'' _] _]. congruence.
    + exact (step_running w w' S (IH eq_refl) St).
Qed.

(** A driver that has not been stopped never calls a method on one of the
    fields [stop] sets to null (the published heap, the buffer of a limited
    query, the map of ids to fetch, the list of pending writes), and never
    finds a cached document missing where it needs one: no notification,
    callback or deferred piece of work ends in a TypeError, and [stop]
    itself never throws. *)
Theorem running_driver_no_TypeError w :
  reachable options w -> _stopped w = false ->
  (forall n, outcome (onOplogEntry options n) w <> Thrown TypeError) /\
  (forall fence, outcome (onListen fence) w <> Thrown TypeError) /\
  (forall mongo t before after,
     scheduled w = before ++ t :: after ->
     outcome (runTask options mongo t) (set_scheduled (before ++ after) w)
     <> Thrown TypeError) /\
  (forall g id err doc,
     outcome (fetchCallback options g id err doc) w <> Thrown TypeError) /\
  outcome stop w = Returned tt.
Proof.
  intros Rw St. pose proof (reachable_running w Rw St) as R.
  repeat split.
  - intros n. apply onOplogEntry_careful, R.
  - intros fence. apply onListen_careful, R.
  - intros mongo t before after _. apply runTask_careful. exact R.
  - intros g id err doc. apply fetchCallback_careful, R.
  - unfold outcome, stop. run. rewrite St. run.
    rewrite (run_bind _ _ _ _ _ (commit_each _ _)). run. reflexivity.
Qed.

End Careful.

(** ** Oplog entries in the phases STEADY and FETCHING *)

Section Entries.

Variable options : Options.

Lemma first_test_runs id w nf :
  _needToFetch w = Some nf ->
  (if Phase_eqb (_phase w) FETCHING
   then cf <- gets _currentlyFetching ;;
        if match cf with Some m => IdMap.has id m | None => false end
        then ret true else queryNeedToFetch (IdMap.has id)
   else ret false) w = (Returned (being_fetched id w), w).
Proof.
  intros Hnf. unfold being_fetched. rewrite Hnf.
  destruct (Phase_eqb (_phase w) FETCHING); [| reflexivity]. run.
  destruct (_currentlyFetching w) as [cf |]; cbn [andb orb].
  - destruct (IdMap.has id cf); [reflexivity |].
    now rewrite (run_queryNeedToFetch _ _ _ Hnf).
  - now rewrite (run_queryNeedToFetch _ _ _ Hnf).
Qed.

(** An entry for an id the driver is fetching, or about to fetch, only
    queues the id again with the timestamp of the entry: the caches and the
    multiplexer are left alone whatever the entry says, and even an entry of
    an unknown kind raises nothing. *)
Theorem entry_for_id_being_fetched (o : OplogEntry) (w : World) nf :
  let id := idForOp options o in
  _needToFetch w = Some nf -> being_fetched id w = true ->
  _handleOplogEntrySteadyOrFetching options o w
  = (Returned tt, set_needToFetch (Some (IdMap.set id (op_ts o) nf)) w).
Proof.
  intros id Hnf F. unfold _handleOplogEntrySteadyOrFetching. cbn zeta. fold id.
  run. rewrite (run_bind _ _ _ _ _ (first_test_runs id w nf Hnf)), F.
  unfold mutateNeedToFetch. now rewrite Hnf.
Qed.

Lemma limit_and_buffered_runs id w :
  (limit options <> 0 -> _unpublishedBuffer w <> None) ->
  limit_and_buffered options id w
  = (Returned (truthy (limit options) && IdMap.has id (bufferOf w)), w).
Proof.
  intros B. unfold limit_and_buffered, bufferOf.
  destruct (truthy (limit options)) eqn:T; [| reflexivity].
  apply truthy_nonzero in T. specialize (B T).
  unfold queryBuffer. now destruct (_unpublishedBuffer w).
Qed.

(** Deletes, inserts, replacements and entries of an unknown kind, for an id
    that is not being fetched.  A delete reaches [_removeMatching] exactly
    when the id is cached and otherwise changes nothing; an insert for a
    cached id is an error raised before anything changes, an insert of a
    document that does not match changes nothing, and a matching one goes
    to [_addMatching]; a replacement goes to [_handleDoc] with the entry's
    document under the id; any other kind of entry is an error raised before
    anything changes. *)
Theorem entries_not_being_fetched (o : OplogEntry) (w : World) p nf :
  let id := idForOp options o in
  let handled := _handleOplogEntrySteadyOrFetching options o w in
  _needToFetch w = Some nf -> being_fetched id w = false ->
  _published w = Some p ->
  (limit options <> 0 -> _unpublishedBuffer w <> None) ->
  (op_op o = "d" ->
     handled = if cached options id w then _removeMatching options id w
               else (Returned tt, w))
  /\ (op_op o = "i" ->
     handled =
       if IdMap.has id p then (Thrown Err_insertAlreadyPublished, w)
       else if IdMap.has id (bufferOf w) then (Thrown Err_insertAlreadyBuffered, w)
       else if documentMatches options (op_o o) then _addMatching options (op_o o) w
       else (Returned tt, w))
  /\ (op_op o = "u" ->
      Obj.has "$set" (op_o o) = false -> Obj.has "$unset" (op_o o) = false ->
      handled = _handleDoc options id (Some (Obj.extend [("_id", id)] (op_o o))) w)
  /\ (op_op o <> "d" -> op_op o <> "i" -> op_op o <> "u" ->
      handled = (Thrown Err_surprisingOperation, w)).
Proof.
  intros id handled Hnf F Hp B. subst handled.
  assert (Start : forall rest,
    (phase <- gets _phase ;;
     alreadyFetching <-
       (if Phase_eqb phase FETCHING
        then cf <- gets _currentlyFetching ;;
             if match cf with Some m => IdMap.has id m | None => false end
             then ret true else queryNeedToFetch (IdMap.has id)
        else ret false) ;;
     if alreadyFetching then mutateNeedToFetch (IdMap.set id (op_ts o))
     else rest) w = rest w).
  { intros rest. run.
    now rewrite (run_bind _ _ _ _ _ (first_test_runs id w nf Hnf)), F. }
  unfold _handleOplogEntrySteadyOrFetching. cbn zeta. fold id. rewrite Start.
  repeat split.
  - intros ->. cbn [String.eqb Ascii.eqb Bool.eqb andb]. run.
    unfold cached, publishedOf. rewrite Hp.
    destruct (IdMap.has id p); run; [reflexivity |].
    rewrite (run_bind _ _ _ _ _ (limit_and_buffered_runs id w B)). cbn [orb].
    now destruct (truthy (limit options) && IdMap.has id (bufferOf w)).
  - intros ->. cbn [String.eqb Ascii.eqb Bool.eqb andb]. run.
    destruct (IdMap.has id p); run; [reflexivity |].
    unfold bufferOf. destruct (_unpublishedBuffer w) as [b |];
      [destruct (IdMap.has id b); [reflexivity |] |];
      now destruct (documentMatches options (op_o o)).
  - intros -> S U. cbn [String.eqb Ascii.eqb Bool.eqb andb]. rewrite S, U.
    cbn [negb andb]. run.
    now rewrite (run_bind _ _ _ _ _ (limit_and_buffered_runs id w B)).
  - intros D I U.
    apply String.eqb_neq in D, I, U. now rewrite D, I, U.
Qed.

End Entries.

(** ** Oplog entries during a query *)

Lemma get_set_same {V} id (v : V) m : IdMap.get id (IdMap.set id v m) = Some v.
Proof.
  induction m as [| [k x] r IH]; cbn; [now rewrite EJSON_equals_refl |].
  destruct (EJSON_equals k id) eqn:E; cbn; rewrite E; [reflexivity | exact IH].
Qed.

Lemma get_set_other {V} id id' (v : V) m :
  id <> id' -> IdMap.get id' (IdMap.set id v m) = IdMap.get id' m.
Proof.
  intros N. apply EJSON_equals_neq in N.
  induction m as [| [k x] r IH]; cbn; [now rewrite N |].
  destruct (EJSON_equals k id) eqn:E; cbn.
  - apply EJSON_equals_eq in E as ->. now rewrite N.
  - now rewrite IH.
Qed.

Lemma queued_last options before o after nf :
  (forall o', In o' after -> idForOp options o' <> idForOp options o) ->
  IdMap.get (idForOp options o) (queued options (before ++ o :: after) nf)
  = Some (op_ts o).
Proof.
  intros Later. unfold queued. rewrite fold_left_app. cbn [fold_left].
  set (m := IdMap.set _ _ _).
  assert (G : IdMap.get (idForOp options o) m = Some (op_ts o))
    by apply get_set_same.
  clearbody m. revert m G.
  induction after as [| o' r IH]; intros m G; cbn [fold_left]; [exact G |].
  apply IH.
  - intros o'' I. apply Later. now right.
  - rewrite get_set_other; [exact G |]. apply Later. now left.
Qed.

(** While the driver is querying, oplog entries touch nothing but the map
    of ids to fetch: each one records its id with its timestamp, so that
    after any number of entries every id seen is queued with the timestamp
    of the last entry for it. *)
Theorem entries_while_querying options (entries : list OplogEntry) (w : World) nf :
  _phase w = QUERYING -> _needToFetch w = Some nf ->
  forEach (map notify entries) (onOplogEntry options) w
  = (Returned tt, set_needToFetch (Some (queued options entries nf)) w)
  /\ forall before o after,
       entries = before ++ o :: after ->
       (forall o', In o' after -> idForOp options o' <> idForOp options o) ->
       IdMap.get (idForOp options o) (queued options entries nf) = Some (op_ts o).
Proof.
  intros Ph Hnf. split.
  - assert (K : forall nf',
              forEach (map notify entries) (onOplogEntry options)
                (set_needToFetch (Some nf') w)
              = (Returned tt, set_needToFetch (Some (queued options entries nf')) w)).
    { induction entries as [| o r IH]; intros nf'; cbn [map forEach]; [reflexivity |].
      unfold onOplogEntry at 1. cbn [dropCollection notify op].
      run. cbn [_phase set_needToFetch]. rewrite Ph. cbn [Phase_eqb].
      unfold _handleOplogEntryQuerying, mutateNeedToFetch, bind.
      cbn [_needToFetch set_needToFetch]. apply IH. }
    specialize (K nf). replace (set_needToFetch (Some nf) w) with w in K; [exact K |].
    destruct w. cbn in *. now subst.
  - intros before o after -> Later. now apply queued_last.
Qed.

(** ** What a poll leaves published *)

#[export] Instance keeps_wf_preorder : PreOrder keeps_wf.
Proof.
  split; [intros w H; exact H |].
  intros a b c Hab Hbc H. exact (Hbc (Hab H)).
Qed.

Ltac wf_leaf :=
  unfold keeps_wf, published_wf; cbn;
  let Inv := fresh "Inv" in let p' := fresh "p'" in let Hp' := fresh "Hp'" in
  intros Inv p' Hp';
  first
    [ discriminate
    | exact (Inv p' Hp')
    | injection Hp' as <-;
      first [apply wf_set | apply wf_remove]; eapply Inv; eassumption ].

Lemma handleDoc_keeps_wf options id newDoc :
  preserves keeps_wf (_handleDoc options id newDoc).
Proof.
  unfold _handleDoc, _handleDoc_stillMatching, _addMatching, _removeMatching,
    limit_and_buffered, _changePublished, _removePublished, _addPublished,
    _addBuffered, _removeBuffered, _needToPollQuery, _pollQuery,
    _registerPhaseChange, emit, defer.
  along_code wf_leaf.
Qed.

Lemma removePublished_keeps_wf options id :
  preserves keeps_wf (_removePublished options id).
Proof.
  unfold _removePublished, _addPublished, _addBuffered, _removeBuffered,
    _needToPollQuery, _pollQuery, _registerPhaseChange, emit, defer.
  along_code wf_leaf.
Qed.

Lemma bind_returns {A B} (m : M A) (k : A -> M B) w b w' :
  bind m k w = (Returned b, w') ->
  exists a w1, m w = (Returned a, w1) /\ k a w1 = (Returned b, w').
Proof.
  unfold bind. destruct (m w) as [[a | e] w1]; [eauto | discriminate].
Qed.

Lemma queryPublished_returns {A} (f : Heap -> A) w a w' :
  queryPublished f w = (Returned a, w') ->
  w' = w /\ exists p, _published w = Some p /\ a = f p.
Proof.
  unfold queryPublished. destruct (_published w) as [p |]; [| discriminate].
  intros [= <- <-]. eauto.
Qed.

Lemma wf_NoDup {V} (m : IdMap.t V) : IdMapFacts.wf m -> NoDup (map fst m).
Proof.
  induction m as [| [k x] r IH]; cbn; [constructor |].
  intros [H W]. constructor; [| auto].
  intros I. apply in_map_iff in I as ([k' v] & E & I). cbn in E. subst k'.
  apply In_has in I. congruence.
Qed.

Lemma has_In_keys {V} id (m : IdMap.t V) :
  IdMap.has id m = true <-> In id (map fst m).
Proof.
  rewrite has_In. split.
  - intros [v I]. apply in_map_iff. now exists (id, v).
  - intros I. apply in_map_iff in I as ([k v] & E & I). cbn in E. subst k. eauto.
Qed.

(** Two id maps without repeated ids, one inside the other and of the same
    size, hold the same ids. *)
Lemma same_ids {V W} (a : IdMap.t V) (b : IdMap.t W) :
  IdMapFacts.wf a -> IdMap.size a = IdMap.size b ->
  (forall id, IdMap.has id a = true -> IdMap.has id b = true) ->
  forall id, IdMap.has id a = IdMap.has id b.
Proof.
  intros Wa S Sub id.
  assert (Back : incl (map fst b) (map fst a)).
  { apply NoDup_length_incl; [now apply wf_NoDup | |].
    - rewrite !length_map. unfold IdMap.size in S. lia.
    - intros k I. apply has_In_keys, Sub, has_In_keys, I. }
  destruct (IdMap.has id b) eqn:Hb.
  - apply has_In_keys, Back, has_In_keys, Hb.
  - destruct (IdMap.has id a) eqn:Ha; [| reflexivity].
    apply Sub in Ha. congruence.
Qed.

Lemma sanity_check_returns (newResults : IdMap.t Doc) (p : Heap) w w' :
  forEach p (fun e => if negb (IdMap.has (fst e) newResults)
                      then throw (Err_publishedHasExtra (fst e)) else ret tt) w
  = (Returned tt, w') ->
  w' = w /\ forall e, In e p -> IdMap.has (fst e) newResults = true.
Proof.
  revert w. induction p as [| e r IH]; intros w; cbn [forEach].
  - intros [= <-]. split; [reflexivity | intros e []].
  - intros Run. apply bind_returns in Run as ([] & w1 & R1 & Run).
    destruct (IdMap.has (fst e) newResults) eqn:H; cbn in R1; [| discriminate].
    injection R1 as <-. destruct (IH _ Run) as [-> All].
    split; [reflexivity |]. intros e' [<- | I]; auto.
Qed.

(** When [_publishNewResults] returns, the published heap holds exactly the
    ids of [newResults], and [_safeAppendToBuffer] tells whether [newBuffer]
    had fewer than [limit] documents. *)
Theorem publishNewResults_publishes options newResults newBuffer w w' p :
  _published w = Some p -> IdMapFacts.wf p ->
  _publishNewResults options newResults newBuffer w = (Returned tt, w') ->
  exists p',
    _published w' = Some p' /\
    (forall id, IdMap.has id p' = IdMap.has id newResults) /\
    IdMap.size p' = IdMap.size newResults /\
    _safeAppendToBuffer w' = (IdMap.size newBuffer <? limit options).
Proof.
  intros Hp Wp Run. unfold _publishNewResults in Run.
  assert (W0 : published_wf w) by (intros p0 Hp0; congruence).
  apply bind_returns in Run as ([] & w1 & R1 & Run).
  assert (W1 : published_wf w1).
  { assert (K : preserves keeps_wf
                  (when (truthy (limit options)) (mutateBuffer (fun _ => []))))
      by along_code wf_leaf.
    specialize (K w W0). unfold exec in K. now rewrite R1 in K. }
  apply bind_returns in Run as (ids & w2 & R2 & Run).
  apply queryPublished_returns in R2 as [-> _].
  apply bind_returns in Run as ([] & w3 & R3 & Run).
  assert (W3 : published_wf w3).
  { assert (K : preserves keeps_wf (forEach ids (_removePublished options)))
      by (apply preserves_forEach; intros; apply removePublished_keeps_wf).
    specialize (K w1 W1). unfold exec in K. now rewrite R3 in K. }
  apply bind_returns in Run as ([] & w4 & R4 & Run).
  assert (W4 : published_wf w4).
  { assert (K : preserves keeps_wf
                  (forEach newResults
                     (fun e => _handleDoc options (fst e) (Some (snd e)))))
      by (apply preserves_forEach; intros; apply handleDoc_keeps_wf).
    specialize (K w3 W3). unfold exec in K. now rewrite R4 in K. }
  apply bind_returns in Run as (size & w5 & R5 & Run).
  apply queryPublished_returns in R5 as [-> (p4 & Hp4 & ->)].
  destruct (Z.eqb_spec (IdMap.size p4) (IdMap.size newResults)) as [S | S];
    cbn [negb] in Run; [| discriminate].
  apply bind_returns in Run as (p5 & w6 & R6 & Run).
  apply queryPublished_returns in R6 as [-> (p4' & Hp4' & ->)].
  assert (p4' = p4) as -> by congruence.
  apply bind_returns in Run as ([] & w7 & R7 & Run).
  apply sanity_check_returns in R7 as [-> All].
  apply bind_returns in Run as ([] & w8 & R8 & Run).
  assert (P8 : _published w8 = Some p4).
  { assert (K : preserves same_published
                  (forEach newBuffer
                     (fun e => _addBuffered options (fst e) (snd e))))
      by (apply preserves_forEach; intros; apply addBuffered_same_published).
    specialize (K w4). unfold exec, same_published in K. rewrite R8 in K.
    cbn [snd] in K. congruence. }
  injection Run as <-. exists p4. repeat split; [exact P8 | | exact S].
  apply same_ids; [exact (W4 p4 Hp4) | exact S |].
  intros id H. apply has_In in H as [v I]. exact (All _ I).
Qed.

(** ** Promotion from the buffer, and a round trip *)

Lemma remove_absent {V} id (m : IdMap.t V) :
  IdMap.has id m = false -> IdMap.remove id m = m.
Proof.
  induction m as [| [k x] r IH]; cbn; [reflexivity |].
  intros H. apply orb_false_iff in H as [-> H]. now rewrite IH.
Qed.

Lemma size_remove_wf {V} id (m : IdMap.t V) :
  IdMapFacts.wf m -> IdMap.has id m = true ->
  IdMap.size (IdMap.remove id m) = IdMap.size m - 1.
Proof.
  unfold IdMap.size. induction m as [| [k x] r IH]; cbn [IdMapFacts.wf IdMap.has IdMap.remove];
    [discriminate |].
  intros [A W] H. destruct (EJSON_equals k id) eqn:E.
  - apply EJSON_equals_eq in E as ->. rewrite (remove_absent _ _ A).
    cbn [List.length]. lia.
  - cbn [orb] in H. specialize (IH W H). cbn [List.length]. lia.
Qed.

Lemma remove_set_absent {V} id (v : V) m :
  IdMap.has id m = false -> IdMap.remove id (IdMap.set id v m) = m.
Proof.
  intros H. rewrite (set_absent _ _ _ H).
  induction m as [| [k x] r IH]; cbn.
  - now rewrite EJSON_equals_refl.
  - cbn in H. apply orb_false_iff in H as [E H]. rewrite E. now rewrite IH.
Qed.

(** [_removeBuffered] returns; it leaves the published heap and the calls
    as they are. *)
Lemma removeBuffered_runs id w b :
  _unpublishedBuffer w = Some b ->
  exists w', _removeBuffered id w = (Returned tt, w') /\
             _published w' = _published w /\
             multiplexer w' = multiplexer w /\
             _unpublishedBuffer w' = Some (IdMap.remove id b).
Proof.
  intros Hb. unfold _removeBuffered. run.
  destruct ((IdMap.size (IdMap.remove id b) =? 0) && _); cbn [when];
    [| eexists; split; [reflexivity | now cbn]].
  unfold _needToPollQuery. run. cbn [_stopped set_unpublishedBuffer].
  destruct (_stopped w) eqn:St; [eexists; split; [reflexivity | now cbn] |].
  run. cbn [_phase set_unpublishedBuffer].
  destruct (negb (Phase_eqb (_phase w) QUERYING));
    [| eexists; split; [reflexivity | now cbn]].
  unfold _pollQuery, _registerPhaseChange, defer. run.
  cbn [_stopped set_unpublishedBuffer]. rewrite St.
  run. eexists. split; [reflexivity | now cbn].
Qed.

Section Promotion.

Variable options : Options.

(** Removing a published document of a limited query whose buffer is not
    empty promotes the least buffered document: [removed] is called for the
    one, [added] for the other, the published heap is as large as before,
    and nothing is thrown. *)
Theorem removePublished_promotes id (w : World) p b :
  let promoted := HeapOps.minElementId (comparator options) b in
  let w' := exec (_removePublished options id) w in
  0 < limit options ->
  _published w = Some p -> _unpublishedBuffer w = Some b ->
  IdMapFacts.wf p -> IdMap.size p <= limit options ->
  IdMap.has id p = true -> b <> [] -> IdMap.has promoted p = false ->
  outcome (_removePublished options id) w = Returned tt /\
  (exists d,
     IdMap.get promoted b = Some d /\
     _published w' =
       Some (IdMap.set promoted (sharedProjectionFn options d) (IdMap.remove id p)) /\
     multiplexer w' =
       multiplexer w ++
       [removed id; added promoted (projectionFn options (Obj.delete "_id" d))]) /\
  _unpublishedBuffer w' = Some (IdMap.remove promoted b) /\
  IdMap.size (publishedOf w') = IdMap.size p.
Proof.
  intros promoted w' L Hp Hb Wp Sp Hid Nb Fresh. subst w'.
  pose proof (size_remove_wf id p Wp Hid) as S1.
  destruct (minElementId_In (comparator options) b Nb) as [d0 I].
  fold promoted in I. apply In_has in I. apply has_get in I as [d G].
  assert (Absent : IdMap.has promoted (IdMap.remove id p) = false)
    by (rewrite has_remove, Fresh; apply andb_false_r).
  pose proof (size_set_absent promoted (sharedProjectionFn options d) _ Absent) as S2.
  assert (Run : exists w1,
    _removePublished options id w = (Returned tt, w1) /\
    _published w1 =
      Some (IdMap.set promoted (sharedProjectionFn options d) (IdMap.remove id p)) /\
    multiplexer w1 =
      multiplexer w ++
      [removed id; added promoted (projectionFn options (Obj.delete "_id" d))] /\
    _unpublishedBuffer w1 = Some (IdMap.remove promoted b)).
  { unfold _removePublished, emit. run. rewrite (truthy_limit options L). cbn [negb].
    run. cbn [multiplexer set_published].
    replace (IdMap.size (IdMap.remove id p) <? limit options) with true
      by (symmetry; apply Z.ltb_lt; lia).
    cbn [when]. run.
    replace (IdMap.size b =? 0) with false
      by (symmetry; apply Z.eqb_neq; rewrite size_zero_empty; exact Nb).
    run. fold promoted. rewrite G.
    set (w1 := set_multiplexer _ _).
    destruct (removeBuffered_runs promoted w1 b Hb) as (w2 & R2 & P2 & M2 & B2).
    rewrite (run_bind _ _ _ _ _ R2).
    unfold _addPublished, emit. cbn zeta.
    rewrite (bind_mutatePublished _ _ _ _ P2). run.
    rewrite (truthy_limit options L).
    replace (limit options <? _) with false
      by (symmetry; apply Z.ltb_ge; lia).
    cbn [andb when]. eexists. split; [reflexivity |].
    cbn [_published multiplexer _unpublishedBuffer set_multiplexer set_published].
    rewrite M2, B2. subst w1. cbn [multiplexer set_multiplexer].
    rewrite <- app_assoc. cbn [app]. repeat split; reflexivity. }
  destruct Run as (w1 & R1 & P1 & M1 & B1).
  unfold outcome, exec, publishedOf. rewrite R1. cbn [fst snd]. rewrite P1.
  repeat split; [exists d; repeat split; assumption | exact B1 | lia].
Qed.

(** For a query without a limit, a document that joins the result set and
    leaves it again is published under its id in between, and afterwards the
    caches are as they were; the multiplexer has been told [added], then
    [removed]. *)
Theorem unlimited_add_then_remove doc (w : World) p :
  let id := doc_id doc in
  limit options = 0 -> _published w = Some p -> IdMap.has id p = false ->
  IdMap.get id (publishedOf (exec (_addMatching options doc) w))
  = Some (sharedProjectionFn options doc)
  /\ (_addMatching options doc ;; _removeMatching options id) w
     = (Returned tt,
        set_multiplexer
          (multiplexer w ++
           [added id (projectionFn options (Obj.delete "_id" doc)); removed id]) w).
Proof.
  intros id L Hp Hid.
  assert (T : truthy (limit options) = false) by (unfold truthy; now rewrite L).
  assert (Add : _addMatching options doc w =
    (Returned tt,
     set_multiplexer
       (multiplexer w ++ [added id (projectionFn options (Obj.delete "_id" doc))])
       (set_published (Some (IdMap.set id (sharedProjectionFn options doc) p)) w))).
  { unfold _addMatching, limit_and_buffered. cbn zeta. fold id. run.
    rewrite Hid, T. run. cbn [negb orb].
    unfold _addPublished, emit. cbn zeta. run. rewrite T. reflexivity. }
  split.
  - unfold exec, publishedOf. rewrite Add. cbn [snd _published set_multiplexer set_published].
    apply get_set_same.
  - rewrite (run_bind _ _ _ _ _ Add). unfold _removeMatching, _removePublished, emit.
    run. rewrite has_set, EJSON_equals_refl. cbn [orb negb andb]. run.
    rewrite T. cbn [negb]. unfold ret. f_equal.
    rewrite (remove_set_absent _ _ _ Hid).
    cbn [multiplexer set_multiplexer set_published]. rewrite <- app_assoc.
    destruct w. cbn in *. now subst.
Qed.

End Promotion.

(** ** Requests to poll again *)

(** The first request to poll leaves the driver querying: it sets the flag
    if a query is under way, and otherwise starts a poll.  Any number of
    further requests do no more than set the flag, and when the query is
    done the flag is cleared and one more poll is started. *)
Theorem poll_requests_collapse (w : World) :
  let once := exec _needToPollQuery w in
  _stopped w = false ->
  _phase once = QUERYING /\
  once = (if Phase_eqb (_phase w) QUERYING
          then set_requeryWhenDoneThisQuery true w
          else exec _pollQuery w) /\
  (forall n, forEach (repeat tt (S n)) (fun _ => _needToPollQuery) once
             = (Returned tt, set_requeryWhenDoneThisQuery true once)) /\
  _doneQuerying_caughtUp (set_requeryWhenDoneThisQuery true once)
  = _pollQuery (set_requeryWhenDoneThisQuery false once).
Proof.
  intros once St.
  assert (Once : once = if Phase_eqb (_phase w) QUERYING
                        then set_requeryWhenDoneThisQuery true w
                        else exec _pollQuery w).
  { unfold once, exec, _needToPollQuery. run. rewrite St. run.
    now destruct (Phase_eqb (_phase w) QUERYING). }
  assert (Ph : _phase once = QUERYING).
  { rewrite Once. destruct (_phase w) eqn:P; cbn [Phase_eqb]; [exact P | |];
      unfold exec, _pollQuery, _registerPhaseChange, defer; run; rewrite St; run;
      reflexivity. }
  assert (St1 : _stopped once = false).
  { rewrite Once. destruct (Phase_eqb (_phase w) QUERYING); [exact St |].
    unfold exec, _pollQuery, _registerPhaseChange, defer. run. rewrite St. run.
    exact St. }
  assert (Again : forall v, _needToPollQuery (set_requeryWhenDoneThisQuery v once)
                            = (Returned tt, set_requeryWhenDoneThisQuery true once)).
  { intros v. unfold _needToPollQuery. run.
    cbn [_stopped _phase set_requeryWhenDoneThisQuery]. rewrite St1. run.
    cbn [_phase set_requeryWhenDoneThisQuery]. rewrite Ph. reflexivity. }
  repeat split; [exact Ph | exact Once | |].
  - assert (K : forall n,
              forEach (repeat tt n) (fun _ => _needToPollQuery)
                (set_requeryWhenDoneThisQuery true once)
              = (Returned tt, set_requeryWhenDoneThisQuery true once)).
    { induction n as [| n IH]; cbn [repeat forEach]; [reflexivity |].
      now rewrite (run_bind _ _ _ _ _ (Again true)). }
    intros n. cbn [repeat forEach].
    assert (First : _needToPollQuery once
                    = (Returned tt, set_requeryWhenDoneThisQuery true once)).
    { unfold _needToPollQuery. run. rewrite St1. run. rewrite Ph. reflexivity. }
    rewrite (run_bind _ _ _ _ _ First). apply K.
  - unfold _doneQuerying_caughtUp. run.
    cbn [_stopped _phase _requeryWhenDoneThisQuery set_requeryWhenDoneThisQuery].
    rewrite St1. run. cbn [_phase set_requeryWhenDoneThisQuery]. rewrite Ph.
    cbn [Phase_eqb negb]. run. reflexivity.
Qed.

(** ** Errors of a round of fetches *)

#[export] Instance same_rounds_preorder : PreOrder same_rounds.
Proof.
  split; [intros w; reflexivity | intros a b c; unfold same_rounds; congruence].
Qed.

Lemma handleDoc_same_rounds options id newDoc :
  preserves same_rounds (_handleDoc options id newDoc).
Proof.
  unfold _handleDoc, _handleDoc_stillMatching, _addMatching, _removeMatching,
    limit_and_buffered, _changePublished, _removePublished, _addPublished,
    _addBuffered, _removeBuffered, _needToPollQuery, _pollQuery,
    _registerPhaseChange, emit, defer.
  along_code ltac:(unfold same_rounds; reflexivity).
Qed.

Lemma note_error_round g e bs :
  filter (batch_is g) (note_error g e bs)
  = map (fun b => Build_FetchBatch (thisGeneration b) (outstanding b)
                    (match anyError b with Some e0 => Some e0 | None => Some e end))
      (filter (batch_is g) bs).
Proof.
  unfold note_error. induction bs as [| b r IH]; cbn [map filter]; [reflexivity |].
  destruct (batch_is g b) eqn:B.
  - unfold batch_is at 1. cbn [thisGeneration]. unfold batch_is in B. rewrite B.
    cbn [map]. now rewrite IH.
  - rewrite B. exact IH.
Qed.

Lemma note_delivery_round g id bs :
  filter (batch_is g) (note_delivery g id bs)
  = map (fun b => Build_FetchBatch (thisGeneration b)
                    (remove_first id (outstanding b)) (anyError b))
      (filter (batch_is g) bs).
Proof.
  unfold note_delivery. induction bs as [| b r IH]; cbn [map filter]; [reflexivity |].
  destruct (batch_is g b) eqn:B.
  - unfold batch_is at 1. cbn [thisGeneration]. unfold batch_is in B. rewrite B.
    cbn [map]. now rewrite IH.
  - rewrite B. exact IH.
Qed.

Lemma oneLessWaiting_runs g id w :
  exists w', oneLessWaiting g id w = (Returned tt, w') /\
             fetching w' = note_delivery g id (fetching w).
Proof.
  unfold oneLessWaiting, defer. run. cbn [fetching set_fetching].
  destruct (none_waiting g _); cbn [when]; run; eexists; split; reflexivity.
Qed.

(** In a round of fetches the first error is the one that counts: a
    callback records its error only if none is recorded yet, a callback
    without error records none (and if [_handleDoc] throws in it, the
    callback is not even counted), and when the round is over the loop
    throws the recorded error, having touched nothing but the record of the
    round. *)
Theorem first_fetch_error_wins options g (w : World) (b : FetchBatch) :
  filter (batch_is g) (fetching w) = [b] ->
  (forall id e doc,
     filter (batch_is g)
       (fetching (exec (fetchCallback options g id (Some e) doc) w))
     = [delivered id (Some e) b])
  /\ (forall id doc,
        filter (batch_is g)
          (fetching (exec (fetchCallback options g id None doc) w))
        = match outcome (fetchCallback options g id None doc) w with
          | Returned _ => [delivered id None b]
          | Thrown _ => [b]
          end)
  /\ (forall e,
        anyError b = Some e ->
        fetchLoop_afterWait g w
        = (Thrown (Err_fetch e),
           set_fetching (filter (fun b => negb (batch_is g b)) (fetching w)) w)).
Proof.
  intros Round. repeat split.
  - intros id e doc. unfold exec, fetchCallback. run.
    destruct (oneLessWaiting_runs g id
                (set_fetching (note_error g e (fetching w)) w)) as (w' & R & F).
    rewrite R. cbn [snd]. rewrite F. cbn [fetching set_fetching].
    rewrite note_delivery_round, note_error_round, Round. reflexivity.
  - intros id doc. unfold exec, outcome, fetchCallback. run.
    set (c := negb (_stopped w) && _ && _).
    assert (K : preserves same_rounds (when c (_handleDoc options id doc)))
      by (apply preserves_when, handleDoc_same_rounds).
    specialize (K w). unfold exec, same_rounds in K. unfold bind.
    destruct (when c (_handleDoc options id doc) w) as [[[] | e] w1];
      cbn [fst snd] in *.
    + destruct (oneLessWaiting_runs g id w1) as (w' & R & F).
      rewrite R. cbn [fst snd]. rewrite F, K.
      rewrite note_delivery_round, Round. unfold delivered. cbn [map].
      now destruct (anyError b).
    + now rewrite K.
  - intros e He. unfold fetchLoop_afterWait. run.
    cbn [fetching set_fetching].
    assert (Errs : flat_map
              (fun b0 => if batch_is g b0
                         then match anyError b0 with Some e0 => [e0] | None => [] end
                         else []) (fetching w) = [e]).
    { revert Round. generalize (fetching w). intros bs.
      induction bs as [| x r IH]; cbn [filter flat_map]; [discriminate |].
      destruct (batch_is g x) eqn:B.
      - intros [= -> Rest]. rewrite He. cbn [app]. f_equal.
        clear IH. induction r as [| y r IH]; cbn [filter flat_map] in *; [reflexivity |].
        destruct (batch_is g y); [discriminate | auto].
      - cbn [app]. exact IH. }
    rewrite Errs. reflexivity.
Qed.

(** ** Further worked examples *)

(** [Example.steady], then [stop]. *)
Lemma stopped_reachable :
  reachable (Example.options 2) (exec stop Example.steady).
Proof. exact (reachable_step _ _ _ steady_reachable (step_stop _ _)). Qed.

(** The buffer of [Example.steady] is within the limit of 2. *)
Lemma buffer_never_exceeds_limit_witness :
  IdMap.size (bufferOf Example.steady) <= 2.
Proof.
  exact (buffer_never_exceeds_limit (Example.options 2) eq_refl Example.steady
           steady_reachable).
Defined.

(** [stoppedWhileFetching] is a world the driver reaches. *)
Lemma stoppedWhileFetching_reachable :
  reachable (Example.options 2) stoppedWhileFetching.
Proof.
  exact (reachable_step _ _ _
           (reachable_step _ _ _ steady_reachable (step_oplog _ _ _))
           (step_stop _ _)).
Qed.

(** After [stop], the deferred fetch loop still runs: it makes no call for a
    document, and registers one onFlush callback, with no write. *)
Lemma stopped_driver_is_silent_witness :
  let w := stoppedWhileFetching in
  let w' := exec fetchLoop (set_scheduled [] w) in
  multiplexer w' = multiplexer w /\
  onFlush w' = onFlush w ++ [[]] /\
  (forall writes, In writes (onFlush w') -> In writes (onFlush w) \/ writes = []).
Proof.
  intros w w'.
  pose proof (stopped_driver_is_silent (Example.options 2) w w'
                stoppedWhileFetching_reachable eq_refl
                (rt_step _ _ _ _
                   (step_task _ (Example.mongo []) Task_fetchLoop [] [] w eq_refl)))
    as (_ & _ & Mu & Fl).
  split; [exact Mu |]. split; [reflexivity | exact Fl].
Defined.

(** In [Example.steady] the observers were told of document 1. *)
Lemma observers_know_published_witness :
  IdMap.has (VNum 1) [Example.entry 1 10; Example.entry 2 20]
  = observed (multiplexer Example.steady) (VNum 1).
Proof.
  exact (observers_know_published (Example.options 2) Example.steady
           [Example.entry 1 10; Example.entry 2 20] steady_reachable eq_refl
           (VNum 1)).
Defined.

Lemma ready_at_most_once_witness :
  (readyCalls Example.steady + initialQueries Example.steady <= 1)%nat.
Proof.
  exact (ready_at_most_once (Example.options 2) Example.steady steady_reachable).
Defined.

(** In [Example.steady] the delete of document 1 throws (the buffer is
    empty), but no TypeError. *)
Lemma running_driver_no_TypeError_witness :
  let n := {| dropCollection := false;
              op := {| op_op := "d"; op_o := [("_id", VNum 1)]; op_o2 := [];
                       op_ts := "ts1" |} |} in
  outcome (onOplogEntry (Example.options 2) n) Example.steady <> Thrown TypeError.
Proof.
  intros n.
  exact (proj1 (running_driver_no_TypeError (Example.options 2) Example.steady
                  steady_reachable eq_refl) n).
Defined.

(** A driver fetching document 7 sees an update of document 7. *)
Lemma entry_for_id_being_fetched_witness :
  let w := set_needToFetch (Some [(VNum 7, "ts0")])
             (Example.world [Example.entry 1 10] [] true FETCHING) in
  let o := {| op_op := "u"; op_o := [("$set", VObj [("n", VNum 5)])];
              op_o2 := [("_id", VNum 7)]; op_ts := "ts1" |} in
  _handleOplogEntrySteadyOrFetching (Example.options 2) o w
  = (Returned tt, set_needToFetch (Some [(VNum 7, "ts1")]) w).
Proof.
  intros w o.
  exact (entry_for_id_being_fetched (Example.options 2) o w [(VNum 7, "ts0")]
           eq_refl eq_refl).
Defined.

(** In [Example.steady] the delete of a document that is not cached changes
    nothing. *)
Lemma entries_not_being_fetched_witness :
  let o := {| op_op := "d"; op_o := [("_id", VNum 9)]; op_o2 := [];
              op_ts := "ts1" |} in
  _handleOplogEntrySteadyOrFetching (Example.options 2) o Example.steady
  = (Returned tt, Example.steady).
Proof.
  intros o.
  refine (proj1 (entries_not_being_fetched (Example.options 2) o Example.steady
                   [Example.entry 1 10; Example.entry 2 20] []
                   eq_refl eq_refl eq_refl _) eq_refl).
  intros _. discriminate.
Defined.

(** Two entries for document 1 and one for document 2 during a query. *)
Lemma entries_while_querying_witness :
  let w := Example.world [] [] false QUERYING in
  let entry i ts := {| op_op := "i"; op_o := Example.doc i 10; op_o2 := [];
                       op_ts := ts |} in
  forEach (map notify [entry 1 "ts1"; entry 2 "ts2"; entry 1 "ts3"])
    (onOplogEntry (Example.options 2)) w
  = (Returned tt,
     set_needToFetch (Some [(VNum 1, "ts3"); (VNum 2, "ts2")]) w).
Proof.
  intros w entry.
  exact (proj1 (entries_while_querying (Example.options 2)
                  [entry 1 "ts1"; entry 2 "ts2"; entry 1 "ts3"] w []
                  eq_refl eq_refl)).
Defined.

(** A poll of [Example.steady] that finds documents 1 and 2 again. *)
Lemma publishNewResults_publishes_witness :
  let o := Example.options 2 in
  let found := [Example.entry 1 10; Example.entry 2 20] in
  let w' := exec (_publishNewResults o found []) Example.steady in
  exists p',
    _published w' = Some p' /\
    (forall id, IdMap.has id p' = IdMap.has id found) /\
    IdMap.size p' = IdMap.size found /\
    _safeAppendToBuffer w' = (IdMap.size (@nil (Id * Doc)) <? limit o).
Proof.
  intros o found w'.
  refine (publishNewResults_publishes o found [] Example.steady w'
            [Example.entry 1 10; Example.entry 2 20] eq_refl _ _).
  - repeat split.
  - vm_compute. reflexivity.
Defined.

(** With documents 1 and 2 published and document 3 buffered, removing
    document 1 promotes document 3. *)
Lemma removePublished_promotes_witness :
  let o := Example.options 2 in
  let w := Example.world [Example.entry 1 10; Example.entry 2 20]
             [Example.entry 3 30] true STEADY in
  outcome (_removePublished o (VNum 1)) w = Returned tt.
Proof.
  intros o w.
  refine (proj1 (removePublished_promotes o (VNum 1) w
                   [Example.entry 1 10; Example.entry 2 20] [Example.entry 3 30]
                   eq_refl eq_refl eq_refl _ _ eq_refl _ eq_refl)).
  - repeat split.
  - cbn. lia.
  - discriminate.
Defined.

(** A query without a limit: document 1 joins the result set and leaves
    it. *)
Lemma unlimited_add_then_remove_witness :
  let o := Example.options 0 in
  let w := Example.world [] [] false STEADY in
  IdMap.get (VNum 1) (publishedOf (exec (_addMatching o (Example.doc 1 10)) w))
  = Some (Example.doc 1 10).
Proof.
  intros o w.
  exact (proj1 (unlimited_add_then_remove o (Example.doc 1 10) w []
                  eq_refl eq_refl eq_refl)).
Defined.

(** A request to poll in [Example.steady] leaves the driver querying. *)
Lemma poll_requests_collapse_witness :
  _phase (exec _needToPollQuery Example.steady) = QUERYING.
Proof. exact (proj1 (poll_requests_collapse Example.steady eq_refl)). Defined.

(** A round of generation 1 waiting for documents 1 and 2; the fetch of
    document 1 fails. *)
Lemma first_fetch_error_wins_witness :
  let round := {| thisGeneration := 1; outstanding := [VNum 1; VNum 2];
                  anyError := None |} in
  let w := set_fetching [round] (Example.world [] [] false FETCHING) in
  filter (batch_is 1)
    (fetching (exec (fetchCallback (Example.options 2) 1 (VNum 1) (Some "failed") None) w))
  = [{| thisGeneration := 1; outstanding := [VNum 2]; anyError := Some "failed" |}].
Proof.
  intros round w.
  exact (proj1 (first_fetch_error_wins (Example.options 2) 1 w round eq_refl)
           (VNum 1) "failed" None).
Defined.

(** ** A poll started while a fetch loop is still to run *)

(** The deferred body of [_fetchModifiedDocuments] does not look at the
    phase when there is nothing to fetch.  If [_pollQuery] ran after the
    body was deferred (the driver is querying again and the ids to fetch
    were forgotten), the body makes the driver steady and hands the pending
    writes to the multiplexer although the poll is not done; the poll then
    ends in "Phase unexpectedly STEADY". *)
Theorem fetch_loop_steadies_during_poll (w : World) :
  let w' := exec fetchLoop w in
  _stopped w = false -> _phase w = QUERYING -> _needToFetch w = Some [] ->
  fetchLoop w = (Returned tt, w') /\
  _phase w' = STEADY /\
  onFlush w' = onFlush w ++ [pendingWrites w] /\
  _doneQuerying_caughtUp w' = (Thrown (Err_phaseUnexpectedly STEADY), w').
Proof.
  intros w' St Ph Hnf.
  assert (Run : fetchLoop w = (Returned tt, steadied w)).
  { unfold fetchLoop. rewrite bind_gets, St, bind_assoc.
    rewrite (bind_queryNeedToFetch _ _ _ _ Hnf), bind_ret. cbn [IdMap.empty negb].
    apply beSteady_run. }
  assert (E : w' = steadied w) by (unfold w', exec; now rewrite Run).
  rewrite E. repeat split.
  - exact Run.
  - unfold _doneQuerying_caughtUp. run.
    cbn [_stopped _phase steadied set_onFlush set_writesToCommitWhenWeReachSteady
         set_phase]. rewrite St. reflexivity.
Qed.

(** [polledBeforeFetching] is a world the driver reaches, with the fetch
    loop and the poll both waiting to run. *)
Lemma polledBeforeFetching_reachable :
  reachable (Example.options 2) polledBeforeFetching /\
  scheduled polledBeforeFetching = [Task_fetchLoop; Task_pollQuery].
Proof.
  split; [| reflexivity].
  exact (reachable_step _ _ _
           (reachable_step _ _ _ steady_reachable (step_oplog _ _ _))
           (step_oplog _ _ _)).
Qed.

Lemma fetch_loop_steadies_during_poll_witness :
  _doneQuerying_caughtUp (exec fetchLoop polledBeforeFetching)
  = (Thrown (Err_phaseUnexpectedly STEADY), exec fetchLoop polledBeforeFetching).
Proof.
  exact (proj2 (proj2 (proj2
    (fetch_loop_steadies_during_poll polledBeforeFetching
       eq_refl eq_refl eq_refl)))).
Defined.

(** ** Steady means nothing is left to fetch *)

#[export] Instance keeps_settled_preorder : PreOrder keeps_settled.
Proof.
  split; [intros w H; exact H |].
  intros a b c Hab Hbc H. exact (Hbc (Hab H)).
Qed.

(** Past code that only reads, keeping what it returned. *)
Lemma through_reading_value {A B} (m : M A) (k : A -> M B) (P : World -> Prop) w :
  preserves unchanged m -> P w ->
  (forall a, m w = (Returned a, w) -> P (exec (k a) w)) ->
  P (exec (bind m k) w).
Proof.
  intros Hm Pw Hk. specialize (Hm w). unfold exec, unchanged, bind in *.
  destruct (m w) as [[a | e] w1] eqn:E; cbn [snd] in *; subst w1;
    [now apply Hk | exact Pw].
Qed.

(** An assignment that makes the driver leave STEADY, empties the map of
    ids to fetch, or touches neither. *)
Ltac settled_leaf :=
  unfold keeps_settled, steady_settled; cbn;
  let Inv := fresh "Inv" in let St := fresh "St" in let Ph := fresh "Ph" in
  intros Inv St Ph; first [discriminate | reflexivity | exact (Inv St Ph)].

Create HintDb settled.

Ltac settle_settled := first [solve [eauto with settled] | settled_leaf].

(** Queueing an id and leaving STEADY at once, taken together. *)
Lemma queueing_keeps_settled f :
  preserves keeps_settled
    (mutateNeedToFetch f ;;
     phase <- gets _phase ;;
     when (Phase_eqb phase STEADY) _fetchModifiedDocuments).
Proof.
  intros w Inv. unfold exec, mutateNeedToFetch, bind at 1.
  destruct (_needToFetch w) as [nf |] eqn:Hnf; [| exact Inv].
  run. cbn [_phase set_needToFetch].
  destruct (_phase w) eqn:Ph; cbn [Phase_eqb when].
  - intros _ Ph'. cbn in Ph'. congruence.
  - intros _ Ph'. cbn in Ph'. congruence.
  - unfold _fetchModifiedDocuments, _registerPhaseChange, defer. run.
    intros _ Ph'. discriminate Ph'.
Qed.

Ltac along_settled :=
  lazymatch goal with
  | |- preserves _ (bind (mutateNeedToFetch _)
                      (fun _ => bind (gets _phase) _)) =>
      apply queueing_keeps_settled
  | |- preserves _ (bind _ _) =>
      apply preserves_bind; [along_settled | intros; along_settled]
  | |- preserves _ (ret _) => apply preserves_ret
  | |- preserves _ (throw _) => apply preserves_throw
  | |- preserves _ (gets _) => apply preserves_gets
  | |- preserves _ (queryPublished _) => apply preserves_queryPublished
  | |- preserves _ (queryBuffer _) => apply preserves_queryBuffer
  | |- preserves _ (queryNeedToFetch _) => apply preserves_queryNeedToFetch
  | |- preserves _ (when _ _) => apply preserves_when; along_settled
  | |- preserves _ (forEach _ _) =>
      apply preserves_forEach; intros; along_settled
  | |- preserves _ (if ?c then _ else _) => destruct c; along_settled
  | |- preserves _ (match ?x with _ => _ end) => destruct x; along_settled
  | |- preserves _ (modify _) => apply preserves_modify; intros; settle_settled
  | |- preserves _ (mutatePublished _) =>
      apply preserves_mutatePublished; intros; settle_settled
  | |- preserves _ (mutateBuffer _) =>
      apply preserves_mutateBuffer; intros; settle_settled
  | |- _ => settle_settled
  end.

Lemma handleDoc_keeps_settled options id newDoc :
  preserves keeps_settled (_handleDoc options id newDoc).
Proof.
  unfold _handleDoc, _handleDoc_stillMatching, _addMatching, _removeMatching,
    limit_and_buffered, _changePublished, _removePublished, _addPublished,
    _addBuffered, _removeBuffered, _needToPollQuery, _pollQuery,
    _registerPhaseChange, emit, defer.
  along_settled.
Qed.
#[export] Hint Resolve handleDoc_keeps_settled : settled.

Lemma fetchLoop_keeps_settled : preserves keeps_settled fetchLoop.
Proof.
  intros w Inv. unfold exec.
  destruct (fetchLoop_cases w) as [[E C] | [[E _] | [[E _] | (nf & E & _)]]];
    rewrite E; try exact Inv.
  - rewrite beSteady_run. cbn [snd]. intros St _. cbn in St |- *.
    destruct C as [C | C]; congruence.
  - cbn [snd]. intros _ _. reflexivity.
Qed.
#[export] Hint Resolve fetchLoop_keeps_settled : settled.

Lemma doneQuerying_caughtUp_keeps_settled :
  preserves keeps_settled _doneQuerying_caughtUp.
Proof.
  intros w Inv. unfold exec, _doneQuerying_caughtUp. run.
  destruct (_stopped w) eqn:St; [exact Inv |]. run.
  destruct (negb (Phase_eqb (_phase w) QUERYING)); [exact Inv |]. run.
  destruct (_requeryWhenDoneThisQuery w).
  - assert (K : preserves keeps_settled
                  (modify (set_requeryWhenDoneThisQuery false) ;; _pollQuery))
      by (unfold _pollQuery, _registerPhaseChange, defer; along_settled).
    exact (K w Inv).
  - destruct (_needToFetch w) as [nf |] eqn:Hnf;
      [| unfold bind, queryNeedToFetch; rewrite Hnf; exact Inv].
    rewrite (bind_queryNeedToFetch _ _ _ _ Hnf).
    destruct nf as [| e r]; cbn [IdMap.empty].
    + rewrite beSteady_run. cbn [snd]. intros _ _. exact Hnf.
    + assert (K : preserves keeps_settled _fetchModifiedDocuments)
        by (unfold _fetchModifiedDocuments, _registerPhaseChange, defer;
            along_settled).
      exact (K w Inv).
Qed.

Lemma onOplogEntry_keeps_settled options n :
  preserves keeps_settled (onOplogEntry options n).
Proof.
  intros w Inv. unfold onOplogEntry.
  destruct (dropCollection n).
  { assert (K : preserves keeps_settled _needToPollQuery)
      by (unfold _needToPollQuery, _pollQuery, _registerPhaseChange, defer;
          along_settled).
    exact (K w Inv). }
  unfold exec. run. destruct (_phase w) eqn:Ph; cbn [Phase_eqb].
  - (* QUERYING *)
    unfold _handleOplogEntryQuerying, mutateNeedToFetch.
    destruct (_needToFetch w); [| exact Inv].
    cbn [snd]. intros _ Ph'. cbn in Ph'. congruence.
  - (* FETCHING *)
    assert (Leaves : forall w', _phase w' = FETCHING -> steady_settled w')
      by (intros w' P' _ P''; congruence).
    unfold _handleOplogEntrySteadyOrFetching. cbn zeta. run. rewrite Ph.
    cbn [Phase_eqb].
    apply (through_reading_value _ _ steady_settled);
      [reading | exact Inv | intros already _].
    destruct already.
    + unfold exec, mutateNeedToFetch. destruct (_needToFetch w); [| exact Inv].
      apply Leaves. exact Ph.
    + refine ((_ : preserves keeps_settled _) w Inv).
      unfold _addMatching, _removeMatching, limit_and_buffered, _removePublished,
        _addPublished, _addBuffered, _removeBuffered, _needToPollQuery, _pollQuery,
        _registerPhaseChange, emit, defer.
      along_settled.
  - (* STEADY *)
    unfold _handleOplogEntrySteadyOrFetching. cbn zeta. run. rewrite Ph.
    cbn [Phase_eqb]. run.
    refine ((_ : preserves keeps_settled _) w Inv).
    unfold _addMatching, _removeMatching, limit_and_buffered, _removePublished,
      _addPublished, _addBuffered, _removeBuffered, _needToPollQuery, _pollQuery,
      _registerPhaseChange, emit, defer.
    along_settled.
Qed.

Lemma runTask_keeps_settled options mongo t :
  preserves keeps_settled (runTask options mongo t).
Proof.
  destruct t; cbn [runTask].
  - unfold _runInitialQuery, _doneQuerying, _addMatching, limit_and_buffered,
      _addPublished, _addBuffered, emit, defer. cbn zeta. along_settled.
  - unfold pollQuery_deferred, _publishNewResults, _doneQuerying,
      _removePublished, _addPublished, _addBuffered, _removeBuffered,
      _needToPollQuery, _pollQuery, _registerPhaseChange, emit, defer.
    cbn zeta. along_settled.
  - apply fetchLoop_keeps_settled.
  - unfold fenceWrite. apply preserves_bind; [apply preserves_gets | intros stopped].
    destruct stopped; [along_settled |].
    apply preserves_bind; [apply preserves_gets | intros phase].
    destruct (Phase_eqb phase STEADY); [along_settled |].
    intros w Inv. unfold exec.
    destruct (_writesToCommitWhenWeReachSteady w); exact Inv.
  - apply doneQuerying_caughtUp_keeps_settled.
  - unfold fetchLoop_afterWait. along_settled.
Qed.

Lemma step_keeps_settled options w w' : step options w w' -> keeps_settled w w'.
Proof.
  intros [n w0 | fence w0 | mongo t before after w0 E | b id err doc w0 _ _
         | w0 | writes rest w0 E].
  - apply onOplogEntry_keeps_settled.
  - assert (K : preserves keeps_settled (onListen fence))
      by (unfold onListen, defer; along_settled).
    apply K.
  - intros Inv.
    assert (Inv1 : steady_settled (set_scheduled (before ++ after) w0)) by exact Inv.
    exact (runTask_keeps_settled options mongo t _ Inv1).
  - assert (K : preserves keeps_settled
                  (fetchCallback options (thisGeneration b) id err doc))
      by (unfold fetchCallback, oneLessWaiting, defer; along_settled).
    apply K.
  - intros _ St. rewrite stop_sets_stopped in St. discriminate.
  - intros Inv. exact Inv.
Qed.

(** Whenever a driver that is not stopped is in the phase STEADY, the map
    of ids to fetch is empty: ids are queued while querying or fetching,
    and an id queued in STEADY takes the driver to FETCHING in the same
    piece of code. *)
Theorem steady_has_nothing_to_fetch options w :
  reachable options w -> _stopped w = false -> _phase w = STEADY ->
  _needToFetch w = Some [].
Proof.
  intros R. change (steady_settled w).
  induction R as [w E | w w' _ IH S].
  - unfold OplogObserveDriver in E. destruct (ordered options); [discriminate |].
    injection E as <-. intros _ Ph. discriminate Ph.
  - exact (step_keeps_settled options w w' S IH).
Qed.

Lemma steady_has_nothing_to_fetch_witness : _needToFetch Example.steady = Some [].
Proof.
  exact (steady_has_nothing_to_fetch (Example.options 2) Example.steady
           steady_reachable eq_refl eq_refl).
Defined.
